(** * Microinjector firmware v2.0 (microinject.ino): motion core

    A shallow embedding of [src/injector2/microinject/microinject.ino]:
    the speed profile [computeSpeed], the move start-up [startStep], the
    console prompts, the program store edited by the [P] editor, and the
    [loop] state machine with its commands and its abort path.

    Numeric types follow the target (Arduino Nano, AVR): [float] is IEEE-754
    binary32, [long] is 32 bits, [int] is 16 bits, [uint8_t] is 8 bits.
    Floating-point operations are the correctly rounded ones (round to
    nearest, ties to even) of the standard library's [SpecFloat], at
    precision 24 and maximal exponent 128. *)

From Stdlib Require Import ZArith Bool Lia Ascii String.
From Stdlib Require Import Floats.SpecFloat.
From stdpp Require Import base list strings.

Local Open Scope Z_scope.

(** ** Machine integers *)

Definition wrap_signed (bits x : Z) : Z :=
  (x + 2 ^ (bits - 1)) mod 2 ^ bits - 2 ^ (bits - 1).

(** [long] on AVR: 32-bit two's complement. *)
Definition wrap_long (x : Z) : Z := wrap_signed 32 x.
(** [int] on AVR: 16-bit two's complement. *)
Definition wrap_int (x : Z) : Z := wrap_signed 16 x.
(** [uint8_t] *)
Definition wrap_u8 (x : Z) : Z := x mod 256.

(** Arduino's [abs] macro, [((x)>0?(x):-(x))], at type [long]. *)
Definition abs_long (x : Z) : Z := if 0 <? x then x else wrap_long (- x).

(** ** binary32 floating point *)

Module F32.
Definition prec : Z := 24.
Definition emax : Z := 128.

Definition float : Type := spec_float.

Definition add : float -> float -> float := SFadd prec emax.
Definition mul : float -> float -> float := SFmul prec emax.
Definition sqrt : float -> float := SFsqrt prec emax.
Definition neg : float -> float := SFopp.
Definition eqb : float -> float -> bool := SFeqb.
Definition ltb : float -> float -> bool := SFltb.
Definition leb : float -> float -> bool := SFleb.
(** C's [a > b] and [a >= b]. *)
Definition gtb (a b : float) : bool := SFltb b a.
Definition geb (a b : float) : bool := SFleb b a.

(** Conversion of an integer to [float], as in the cast [(float)n]. *)
Definition of_Z (n : Z) : float := binary_normalize prec emax n 0 false.

Definition zero : float := S754_zero false.
Definition one : float := of_Z 1.
Definition two : float := of_Z 2.

(** Arduino's [min] and [max] macros, [((a)<(b)?(a):(b))] and
    [((a)>(b)?(a):(b))], at type [float]. *)
Definition min (a b : float) : float := if ltb a b then a else b.
Definition max (a b : float) : float := if gtb a b then a else b.

(** The cast [(int)x]: truncation toward zero, kept to 16 bits. *)
Definition to_int (x : float) : Z :=
  match x with
  | S754_finite s m e =>
      let a := if 0 <=? e then Zpos m * 2 ^ e else Zpos m / 2 ^ (- e) in
      wrap_int (if s then - a else a)
  | _ => 0
  end.

(** Well-formed binary32 encodings: a canonical mantissa and exponent. *)
Definition valid (x : float) : bool := valid_binary prec emax x.
End F32.

Abbreviation float := F32.float.

Definition ABS_MAX_SPEED : float := F32.of_Z 1000.
Definition ABS_MAX_ACCEL : float := F32.of_Z 1000.
Definition MAX_STEPS : Z := 5.

(** ** Program steps *)

Record Step := {
  forward : bool;
  distance : Z;
  start_speed : float;
  end_speed : float;
  accel : float
}.

Definition zeroStep : Step :=
  {| forward := false; distance := 0; start_speed := F32.zero;
     end_speed := F32.zero; accel := F32.zero |}.

(** ** Arduino [String] operations used by the sketch *)

Definition isspace (c : ascii) : bool :=
  let n := N_of_ascii c in ((n =? 32) || ((9 <=? n) && (n <=? 13)))%N.

Definition isdigit (c : ascii) : bool :=
  let n := N_of_ascii c in ((48 <=? n) && (n <=? 57))%N.

Definition toupper (c : ascii) : ascii :=
  let n := N_of_ascii c in
  if ((97 <=? n) && (n <=? 122))%N then ascii_of_N (n - 32) else c.

Fixpoint ltrim (s : string) : string :=
  match s with
  | EmptyString => EmptyString
  | String c s' => if isspace c then ltrim s' else s
  end.

Fixpoint rtrim (s : string) : string :=
  match s with
  | EmptyString => EmptyString
  | String c s' =>
      match rtrim s' with
      | EmptyString => if isspace c then EmptyString else String c EmptyString
      | r => String c r
      end
  end.

(** [String::trim] *)
Definition trim (s : string) : string := rtrim (ltrim s).

(** [String::toUpperCase] *)
Fixpoint toUpperCase (s : string) : string :=
  match s with
  | EmptyString => EmptyString
  | String c s' => String (toupper c) (toUpperCase s')
  end.

(** [String::substring(from)] *)
Fixpoint substring_from (from : nat) (s : string) : string :=
  match from, s with
  | O, _ => s
  | S k, String _ s' => substring_from k s'
  | S _, EmptyString => EmptyString
  end.

Fixpoint atol_digits (acc : Z) (s : string) : Z :=
  match s with
  | String c s' =>
      if isdigit c
      then atol_digits (wrap_long (acc * 10 + (Z.of_N (N_of_ascii c) - 48))) s'
      else acc
  | EmptyString => acc
  end.

(** [String::toInt], which is [atol]: leading white space, an optional
    sign, then decimal digits up to the first other character. *)
Definition toInt (s : string) : Z :=
  match ltrim s with
  | String "-" s' => wrap_long (- atol_digits 0 s')
  | String "+" s' => atol_digits 0 s'
  | s' => atol_digits 0 s'
  end.

(** First character of a string; [String::charAt] returns 0 out of range. *)
Definition charAt0 (s : string) : ascii :=
  match s with
  | String c _ => c
  | EmptyString => zero
  end.

Definition strlen (s : string) : Z := Z.of_nat (String.length s).

(** ** Serial console

    Output is the sequence of [Serial.print] arguments; [Endl] is the line
    end added by [Serial.println].  Input is the list of received lines that
    have not been read yet; [readStringUntil('\n')] takes the first one.  A
    blocking wait ([while (!Serial.available()) {}]) on an empty list does
    not return: the computation yields [None]. *)

Inductive Tok :=
| Txt (s : string)
| Num (n : Z)
| Flt (f : float)
| Chr (c : ascii)
| Endl.

Definition Console (A : Type) : Type :=
  list string -> option (A * list string * list Tok).

Definition ret {A} (a : A) : Console A := fun inp => Some (a, inp, []).

Definition bind {A B} (m : Console A) (k : A -> Console B) : Console B :=
  fun inp =>
    match m inp with
    | None => None
    | Some (a, inp', out) =>
        match k a inp' with
        | None => None
        | Some (b, inp'', out') => Some (b, inp'', out ++ out')
        end
    end.

Definition print (ts : list Tok) : Console unit := fun inp => Some (tt, inp, ts).

(** [while (!Serial.available()) {}] followed by [readStringUntil('\n')] *)
Definition readLineBlocking : Console string :=
  fun inp => match inp with [] => None | l :: rest => Some (l, rest, []) end.

Declare Scope console_scope.
Delimit Scope console_scope with console.
Notation "x <<- m ;; k" := (bind m (fun x => k))
  (at level 100, m at next level, right associativity) : console_scope.
Notation "m >>> k" := (bind m (fun _ => k))
  (at level 100, right associativity) : console_scope.

(** ** The AccelStepper driver

    AccelStepper is an external library; the repository carries its manual,
    and the seven methods the sketch calls are modelled on the fields they
    touch, as the manual describes them: [setMaxSpeed] stores an absolute
    value, [setSpeed] limits the speed to +/- [maxSpeed],
    [setCurrentPosition] also resets the speed to 0, [runSpeed] makes at most
    one step, when a step is due, and moves [currentPosition] up or down by
    one with the sign of the speed; the constructor sets position 0, speed 0,
    maximum speed 1 and enables the outputs.

    [pulses] counts the calls of the library's internal [step()], that is
    the step requests sent to the motor.  Whether a step is due depends on
    [micros()]; that comparison is the [due] argument of [runSpeed].  The
    library keeps a step interval of [1000000 / speed] microseconds, which is
    zero (no stepping) when the speed is zero; speeds in this sketch never
    exceed 1000. *)

Record AccelStepper := {
  currentPos : Z;
  speed : float;
  maxSpeed : float;
  outputs : bool;
  pulses : Z
}.

Module Stepper.
(** Arduino's [constrain] macro,
    [((x)<(lo)?(lo):((x)>(hi)?(hi):(x)))]. *)
Definition constrain (x lo hi : float) : float :=
  if F32.ltb x lo then lo else if F32.gtb x hi then hi else x.

Definition currentPosition (s : AccelStepper) : Z := currentPos s.

Definition setCurrentPosition (p : Z) (s : AccelStepper) : AccelStepper :=
  {| currentPos := p; speed := F32.zero; maxSpeed := maxSpeed s;
     outputs := outputs s; pulses := pulses s |}.

Definition setMaxSpeed (v : float) (s : AccelStepper) : AccelStepper :=
  let v := if F32.ltb v F32.zero then F32.neg v else v in
  if F32.eqb (maxSpeed s) v then s
  else {| currentPos := currentPos s; speed := speed s; maxSpeed := v;
          outputs := outputs s; pulses := pulses s |}.

Definition setSpeed (v : float) (s : AccelStepper) : AccelStepper :=
  if F32.eqb v (speed s) then s
  else {| currentPos := currentPos s;
          speed := constrain v (F32.neg (maxSpeed s)) (maxSpeed s);
          maxSpeed := maxSpeed s; outputs := outputs s;
          pulses := pulses s |}.

Definition runSpeed (due : bool) (s : AccelStepper) : AccelStepper :=
  if F32.eqb (speed s) F32.zero then s
  else if due then
    {| currentPos :=
         wrap_long (if F32.gtb (speed s) F32.zero
                    then currentPos s + 1 else currentPos s - 1);
       speed := speed s; maxSpeed := maxSpeed s; outputs := outputs s;
       pulses := pulses s + 1 |}
  else s.

Definition setOutputs (b : bool) (s : AccelStepper) : AccelStepper :=
  {| currentPos := currentPos s; speed := speed s; maxSpeed := maxSpeed s;
     outputs := b; pulses := pulses s |}.

Definition enableOutputs : AccelStepper -> AccelStepper := setOutputs true.
Definition disableOutputs : AccelStepper -> AccelStepper := setOutputs false.

(** The constructor: position 0, speed 0, maximum speed 1, outputs on. *)
Definition init : AccelStepper :=
  {| currentPos := 0; speed := F32.zero; maxSpeed := F32.one;
     outputs := true; pulses := 0 |}.
End Stepper.

(** ** Firmware state: the sketch's globals *)

Inductive State := STATE_IDLE | STATE_MOVING_MANUAL | STATE_MOVING_PROG.

Record Firmware := {
  program : list Step;
  programCount : Z;
  g_moving : bool;
  g_target_dist : Z;
  g_start_speed : float;
  g_end_speed : float;
  g_accel : float;
  g_fwd : bool;
  state : State;
  progStepIndex : Z;
  stepper : AccelStepper
}.

Definition with_store (p : list Step) (n : Z) (fw : Firmware) : Firmware :=
  {| program := p; programCount := n; g_moving := g_moving fw;
     g_target_dist := g_target_dist fw; g_start_speed := g_start_speed fw;
     g_end_speed := g_end_speed fw; g_accel := g_accel fw;
     g_fwd := g_fwd fw; state := state fw;
     progStepIndex := progStepIndex fw; stepper := stepper fw |}.

Definition with_stepper (s : AccelStepper) (fw : Firmware) : Firmware :=
  {| program := program fw; programCount := programCount fw;
     g_moving := g_moving fw; g_target_dist := g_target_dist fw;
     g_start_speed := g_start_speed fw; g_end_speed := g_end_speed fw;
     g_accel := g_accel fw; g_fwd := g_fwd fw; state := state fw;
     progStepIndex := progStepIndex fw; stepper := s |}.

Definition with_moving (b : bool) (fw : Firmware) : Firmware :=
  {| program := program fw; programCount := programCount fw;
     g_moving := b; g_target_dist := g_target_dist fw;
     g_start_speed := g_start_speed fw; g_end_speed := g_end_speed fw;
     g_accel := g_accel fw; g_fwd := g_fwd fw; state := state fw;
     progStepIndex := progStepIndex fw; stepper := stepper fw |}.

Definition with_state (st : State) (fw : Firmware) : Firmware :=
  {| program := program fw; programCount := programCount fw;
     g_moving := g_moving fw; g_target_dist := g_target_dist fw;
     g_start_speed := g_start_speed fw; g_end_speed := g_end_speed fw;
     g_accel := g_accel fw; g_fwd := g_fwd fw; state := st;
     progStepIndex := progStepIndex fw; stepper := stepper fw |}.

Definition with_progStepIndex (i : Z) (fw : Firmware) : Firmware :=
  {| program := program fw; programCount := programCount fw;
     g_moving := g_moving fw; g_target_dist := g_target_dist fw;
     g_start_speed := g_start_speed fw; g_end_speed := g_end_speed fw;
     g_accel := g_accel fw; g_fwd := g_fwd fw; state := state fw;
     progStepIndex := i; stepper := stepper fw |}.

(** Element [i] of the [program] array. *)
Definition program_at (fw : Firmware) (i : Z) : Step :=
  default zeroStep (program fw !! Z.to_nat i).

(** The stored program as [printProgram] lists it: entries
    [0 .. programCount-1] of the array. *)
Definition listing (fw : Firmware) : list Step :=
  take (Z.to_nat (programCount fw)) (program fw).

(** ** Starting a move and the speed profile *)

Definition startStep (st : Step) (fw : Firmware) : Firmware :=
  let s0 := Stepper.setCurrentPosition 0 (stepper fw) in
  let g_start := F32.max F32.one (start_speed st) in
  let g_end := F32.max F32.one (end_speed st) in
  let max_v := F32.max g_start g_end in
  let s1 := Stepper.setMaxSpeed max_v s0 in
  let s2 := Stepper.setSpeed
              (if forward st then g_start else F32.neg g_start) s1 in
  {| program := program fw; programCount := programCount fw;
     g_moving := true; g_target_dist := distance st;
     g_start_speed := g_start; g_end_speed := g_end; g_accel := accel st;
     g_fwd := forward st; state := state fw;
     progStepIndex := progStepIndex fw; stepper := s2 |}.

Definition computeSpeed (fw : Firmware) (steps_done : Z) : float :=
  if F32.eqb (g_accel fw) F32.zero
     || F32.eqb (g_start_speed fw) (g_end_speed fw)
  then g_start_speed fw
  else
    let v2 := F32.add (F32.mul (g_start_speed fw) (g_start_speed fw))
                (F32.mul (F32.mul F32.two (g_accel fw))
                   (F32.of_Z steps_done)) in
    let v2 := if F32.ltb v2 F32.zero then F32.zero else v2 in
    let v := F32.sqrt v2 in
    let v := if F32.gtb (g_accel fw) F32.zero
             then F32.min v (g_end_speed fw)
             else F32.max v (g_end_speed fw) in
    F32.max v F32.one.

(** ** Console dialogue *)

Definition println (t : Tok) : list Tok := [t; Endl].

Definition printDivider : list Tok := println (Txt "----------------------------").

Definition printMainMenu (fw : Firmware) : list Tok :=
  printDivider ++ println (Txt "  MICROINJECTOR  v2.0") ++ printDivider
  ++ println (Txt "  [M] Manual move") ++ println (Txt "  [P] Edit program")
  ++ println (Txt "  [R] Run program") ++ println (Txt "  [S] Show program")
  ++ println (Txt "  [C] Clear program") ++ println (Txt "  [?] Help")
  ++ printDivider ++ [Txt "  Steps stored: "] ++ println (Num (programCount fw))
  ++ printDivider ++ println (Txt "Enter command > ").

Definition printHelp : list Tok :=
  println (Txt "Units & limits:")
  ++ println (Txt "  Distance  : steps  (2048 = 1 rev)")
  ++ println (Txt "  Start spd : steps/s  (1 - 1000)  speed at t=0")
  ++ println (Txt "  End spd   : steps/s  (1 - 1000)  target final speed")
  ++ println (Txt "  Accel     : steps/s2 (-1000 to +1000, 0 = constant)")
  ++ println (Txt "  Direction : F = forward, B = backward")
  ++ println (Txt "During a move: type X + Enter to abort.").

Definition printProgramRow (i : nat) (st : Step) : list Tok :=
  [Num (Z.of_nat i + 1); Txt "  ";
   Chr (if forward st then "F" else "B")%char; Txt "    ";
   Num (distance st); Txt "         ";
   Num (F32.to_int (start_speed st)); Txt "        ";
   Num (F32.to_int (end_speed st)); Txt "     ";
   Num (F32.to_int (accel st)); Endl].

Definition printProgram (fw : Firmware) : list Tok :=
  if programCount fw =? 0 then println (Txt "Program is empty.")
  else
    println (Txt "#  Dir  Dist(steps)  StartSpd  EndSpd  Accel")
    ++ printDivider
    ++ concat (imap printProgramRow (listing fw)).

Definition promptLine (msg : string) : Console string :=
  fun inp =>
    match inp with
    | [] => None
    | l :: rest => Some (trim l, rest, [Txt msg])
    end.

(** The prompt loops [while (true) { s = promptLine(msg); ... }]: try again
    after an error message until the line parses.  Each round reads one
    line, so the recursion is on the list of lines. *)
Fixpoint promptUntil {A} (msg : string) (parse : string -> option A)
    (err : list Tok) (inp : list string) : option (A * list string * list Tok) :=
  match inp with
  | [] => None
  | l :: rest =>
      match parse (trim l) with
      | Some a => Some (a, rest, [Txt msg])
      | None =>
          match promptUntil msg parse err rest with
          | None => None
          | Some (a, rest', out) => Some (a, rest', Txt msg :: err ++ out)
          end
      end
  end.

Definition promptLong (msg : string) (lo hi : Z) : Console Z :=
  promptUntil msg
    (fun s => let v := toInt s in
              if (v >=? lo) && (v <=? hi) then Some v else None)
    ([Txt "  ! Out of range ("; Num lo; Txt " - "; Num hi]
     ++ println (Txt "), try again.")).

Definition promptDirection : Console bool :=
  promptUntil "  Direction (F=forward, B=backward) > "
    (fun s => let s := toUpperCase s in
              if String.eqb s "F" then Some true
              else if String.eqb s "B" then Some false else None)
    (println (Txt "  ! Enter F or B.")).

Local Open Scope console_scope.

Section Sketch.
(** [String::toFloat] is avr-libc's decimal conversion, which is not
    specified to the last bit: it is a parameter of the model. *)
Variable toFloat : string -> float.

Definition promptFloat (msg : string) (lo hi : float) : Console float :=
  promptUntil msg
    (fun s => let v := toFloat s in
              if F32.geb v lo && F32.leb v hi then Some v else None)
    ([Txt "  ! Out of range ("; Flt lo; Txt " - "; Flt hi]
     ++ println (Txt "), try again.")).

Definition promptStep : Console Step :=
  fwd <<- promptDirection;;
  dist <<- promptLong "  Distance  (steps, 1-999999) > " 1 999999;;
  s <<- promptFloat "  Start spd (steps/s, 1-1000) > " F32.one ABS_MAX_SPEED;;
  e <<- promptFloat "  End spd   (steps/s, 1-1000) > " F32.one ABS_MAX_SPEED;;
  a <<- promptFloat "  Accel     (steps/s2, -1000 to 1000) > "
         (F32.neg ABS_MAX_ACCEL) ABS_MAX_ACCEL;;
  ret {| forward := fwd; distance := dist; start_speed := s;
         end_speed := e; accel := a |}.

(** The delete loop
    [for (i = idx; i < programCount - 1; i++) program[i] = program[i + 1];]
    with [n] the number of rounds left, [programCount - 1 - i]. *)
Fixpoint shiftDown (n i : nat) (prog : list Step) : list Step :=
  match n with
  | O => prog
  | S n' =>
      shiftDown n' (S i)
        (match prog !! S i with
         | Some x => <[i := x]> prog
         | None => prog
         end)
  end.

(** One round of the [while (editing)] loop of the program editor; the
    boolean is [editing] after the round. *)
Definition editorMenu (fw : Firmware) : list Tok :=
  printProgram fw
  ++ [Endl] ++ println (Txt "[A] Add step  [D n] Delete step  [Q] Back")
  ++ [Txt "> "].

Definition editorCommand (fw : Firmware) : Console (bool * Firmware) :=
  print (editorMenu fw) >>>
  l <<- readLineBlocking;;
  let s := trim l in
  if strlen s =? 0 then ret (true, fw)
  else
    let ec := toupper (charAt0 s) in
    if Ascii.eqb ec "Q" then ret (false, fw)
    else if Ascii.eqb ec "A" then
      if programCount fw >=? MAX_STEPS then
        print (println (Txt "! Program full (max 5 steps).")) >>>
        ret (true, fw)
      else
        print ([Endl; Txt "--- New Step "; Num (programCount fw + 1)]
               ++ println (Txt " ---")) >>>
        st <<- promptStep;;
        print (println (Txt "Step added.")) >>>
        ret (true, with_store (<[Z.to_nat (programCount fw) := st]> (program fw))
                     (wrap_u8 (programCount fw + 1)) fw)
    else if Ascii.eqb ec "D" then
      if strlen s <? 3 then
        print (println (Txt "! Usage: D <n>")) >>> ret (true, fw)
      else
        let idx := wrap_int (wrap_long (toInt (substring_from 2 s) - 1)) in
        if (idx <? 0) || (idx >=? programCount fw) then
          print (println (Txt "! Invalid step number.")) >>> ret (true, fw)
        else
          print (println (Txt "Step deleted.")) >>>
          ret (true, with_store
                       (shiftDown (Z.to_nat (programCount fw - 1 - idx))
                          (Z.to_nat idx) (program fw))
                       (wrap_u8 (programCount fw - 1)) fw)
    else
      print (println (Txt "! Use A, D <n>, or Q.")) >>> ret (true, fw).

(** The [while (editing)] loop.  A round reads at least one line, so the
    number of unread lines bounds the number of rounds; with no line left
    the next round waits for input. *)
Fixpoint editor (fuel : nat) (fw : Firmware) : Console Firmware :=
  match fuel with
  | O => fun _ => None
  | S fuel' =>
      r <<- editorCommand fw;;
      if fst r then editor fuel' (snd r) else ret (snd r)
  end.

(** ** [setup()] and [loop()] *)

Definition initial : Firmware :=
  {| program := replicate (Z.to_nat MAX_STEPS) zeroStep; programCount := 0;
     g_moving := false; g_target_dist := 0; g_start_speed := F32.one;
     g_end_speed := F32.one; g_accel := F32.zero; g_fwd := true;
     state := STATE_IDLE; progStepIndex := 0;
     stepper := Stepper.init |}.

Definition setup : Firmware * list Tok :=
  let fw := with_stepper
              (Stepper.disableOutputs
                 (Stepper.setMaxSpeed ABS_MAX_SPEED (stepper initial)))
              initial in
  (fw, printMainMenu fw).

(** [if (Serial.available()) readStringUntil('\n')], without waiting *)
Definition readLineIfAvailable : Console (option string) :=
  fun inp => match inp with
             | [] => Some (None, [], [])
             | l :: rest => Some (Some l, rest, [])
             end.

(** The motion service at the top of [loop()]. *)
Definition service (due : bool) (fw : Firmware) : Firmware :=
  if g_moving fw then
    let steps_done := abs_long (Stepper.currentPosition (stepper fw)) in
    let v := computeSpeed fw steps_done in
    with_stepper
      (Stepper.runSpeed due
         (Stepper.setSpeed (if g_fwd fw then v else F32.neg v)
            (Stepper.setMaxSpeed v (stepper fw))))
      fw
  else fw.

Definition moveDone (fw : Firmware) : bool :=
  abs_long (Stepper.currentPosition (stepper fw)) >=? g_target_dist fw.

(** The completion branch, [if (done) { ... return; }]. *)
Definition complete (fw : Firmware) : Console Firmware :=
  let fw := with_stepper (Stepper.disableOutputs (stepper fw))
              (with_moving false fw) in
  match state fw with
  | STATE_MOVING_MANUAL =>
      print ([Endl] ++ println (Txt "[DONE] Move complete.")) >>>
      let fw := with_state STATE_IDLE fw in
      print (printMainMenu fw) >>> ret fw
  | _ =>
      let fw := with_progStepIndex (wrap_u8 (progStepIndex fw + 1)) fw in
      if progStepIndex fw <? programCount fw then
        print ([Endl; Txt "[STEP "; Num (progStepIndex fw + 1); Chr "/";
                Num (programCount fw)] ++ println (Txt "] Starting...")) >>>
        ret (startStep (program_at fw (progStepIndex fw))
               (with_stepper (Stepper.enableOutputs (stepper fw)) fw))
      else
        print ([Endl] ++ println (Txt "[DONE] Program complete.")) >>>
        let fw := with_state STATE_IDLE fw in
        print (printMainMenu fw) >>> ret fw
  end.

(** The abort branch, taken on the line [X]. *)
Definition abort (fw : Firmware) : Console Firmware :=
  let fw := with_stepper (Stepper.setSpeed F32.zero (stepper fw)) fw in
  let fw := with_moving false fw in
  let fw := with_stepper (Stepper.disableOutputs (stepper fw)) fw in
  print ([Endl] ++ println (Txt "[ABORTED] Motor stopped.")) >>>
  let fw := with_state STATE_IDLE fw in
  print (printMainMenu fw) >>> ret fw.

(** The command [switch] of the idle state, on the trimmed, upper-cased
    line [cmd]. *)
Definition command (cmd : string) (fw : Firmware) : Console Firmware :=
  if strlen cmd =? 0 then print (printMainMenu fw) >>> ret fw
  else
    let ch := charAt0 cmd in
    if Ascii.eqb ch "M" then
      print ([Endl] ++ println (Txt "--- Manual Move ---")) >>>
      st <<- promptStep;;
      print (println (Txt "Starting move... (type X + Enter to abort)")) >>>
      let fw := with_stepper (Stepper.enableOutputs (stepper fw)) fw in
      ret (with_state STATE_MOVING_MANUAL (startStep st fw))
    else if Ascii.eqb ch "P" then
      print ([Endl] ++ println (Txt "--- Program Editor ---")) >>>
      fw <<- (fun inp => editor (length inp) fw inp);;
      print (printMainMenu fw) >>> ret fw
    else if Ascii.eqb ch "R" then
      if programCount fw =? 0 then
        print (println (Txt "! Program empty.")) >>>
        print (printMainMenu fw) >>> ret fw
      else
        let fw := with_progStepIndex 0 fw in
        print ([Endl; Txt "--- Running Program ("; Num (programCount fw)]
               ++ println (Txt " step(s)) --- type X + Enter to abort ---")
               ++ [Txt "[STEP 1/"; Num (programCount fw)]
               ++ println (Txt "] Starting...")) >>>
        let fw := with_stepper (Stepper.enableOutputs (stepper fw)) fw in
        ret (with_state STATE_MOVING_PROG (startStep (program_at fw 0) fw))
    else if Ascii.eqb ch "S" then
      print ([Endl] ++ println (Txt "--- Current Program ---")) >>>
      print (printProgram fw) >>>
      print (printMainMenu fw) >>> ret fw
    else if Ascii.eqb ch "C" then
      let fw := with_store (program fw) 0 fw in
      print (println (Txt "Program cleared.")) >>>
      print (printMainMenu fw) >>> ret fw
    else if Ascii.eqb ch "?" then
      print ([Endl] ++ printHelp) >>>
      print (printMainMenu fw) >>> ret fw
    else
      print ([Txt "! Unknown command: "] ++ println (Txt cmd)) >>>
      print (printMainMenu fw) >>> ret fw.

Definition isMoving (s : State) : bool :=
  match s with STATE_IDLE => false | _ => true end.

(** One call of [loop()].  [due] is the outcome of [runSpeed]'s timing test
    in this call. *)
Definition loop (due : bool) (fw : Firmware) : Console Firmware :=
  let fw := service due fw in
  if isMoving (state fw) then
    if moveDone fw then complete fw
    else
      l <<- readLineIfAvailable;;
      match l with
      | None => ret fw
      | Some l =>
          let s := toUpperCase (trim l) in
          if String.eqb s "X" then abort fw else ret fw
      end
  else
    l <<- readLineIfAvailable;;
    match l with
    | None => ret fw
    | Some l => command (toUpperCase (trim l)) fw
    end.
End Sketch.

(** * Properties *)

(** ** Comparisons of [float] *)

Lemma SFcompare_antisym (x y : float) :
  SFcompare x y = option_map CompOpp (SFcompare y x).
Proof.
  destruct x as [[]|[]| |[] mx ex], y as [[]|[]| |[] my ey]; simpl; try reflexivity;
    rewrite (Z.compare_antisym ey ex); destruct (ey ?= ex); simpl; try reflexivity;
    rewrite (Pos.compare_cont_antisym my mx Eq); simpl;
    destruct (Pos.compare_cont Eq my mx); reflexivity.
Qed.

Lemma leb_not_ltb (x y : float) : F32.leb x y = true -> F32.ltb y x = false.
Proof.
  unfold F32.leb, F32.ltb, SFleb, SFltb. rewrite (SFcompare_antisym y x).
  destruct (SFcompare x y) as [[]|]; simpl; congruence.
Qed.

Lemma max_one_id (x : float) : F32.leb F32.one x = true -> F32.max F32.one x = x.
Proof.
  intros H. unfold F32.max, F32.gtb. fold (F32.ltb x F32.one).
  now rewrite (leb_not_ltb _ _ H).
Qed.

Lemma ltb_abs_zero (v : float) :
  F32.ltb (if F32.ltb v F32.zero then F32.neg v else v) F32.zero = false.
Proof. destruct v as [[]|[]| |[] m e]; reflexivity. Qed.

Lemma eqb_ltb_zero (x y : float) :
  F32.eqb x y = true -> F32.ltb y F32.zero = false -> F32.ltb x F32.zero = false.
Proof.
  destruct x as [[]|[]| |[] mx ex], y as [[]|[]| |[] my ey]; simpl;
    try reflexivity; try discriminate.
Qed.

Lemma eqb_zero_sym (x : float) :
  F32.eqb F32.zero x = true -> F32.eqb x F32.zero = true.
Proof. destruct x as [[]|[]| |[] m e]; simpl; try reflexivity; discriminate. Qed.

Lemma constrain_zero (m : float) :
  F32.ltb m F32.zero = false ->
  F32.eqb (Stepper.constrain F32.zero (F32.neg m) m) F32.zero = true.
Proof. destruct m as [[]|[]| |[] mm e]; simpl; try reflexivity; discriminate. Qed.

(** ** binary32 arithmetic: digits, shifts and rounding *)

Abbreviation digits m := (Zpos (digits2_pos m)).

Lemma digits_bounds (m : positive) :
  2 ^ (digits m - 1) <= Zpos m < 2 ^ digits m.
Proof.
  induction m as [p IH|p IH|]; simpl digits2_pos;
    rewrite ?Pos2Z.inj_succ.
  - replace (Z.succ (digits p) - 1) with (Z.succ (digits p - 1)) by lia.
    rewrite !Z.pow_succ_r by lia. lia.
  - replace (Z.succ (digits p) - 1) with (Z.succ (digits p - 1)) by lia.
    rewrite !Z.pow_succ_r by lia. lia.
  - simpl. lia.
Qed.

Lemma digits_unique (m : positive) (d : Z) :
  2 ^ (d - 1) <= Zpos m < 2 ^ d -> digits m = d.
Proof.
  intros [Hl Hu]. destruct (digits_bounds m) as [Hl' Hu'].
  assert (0 < d).
  { destruct (Z_lt_le_dec 0 d) as [|Hd]; [assumption|].
    assert (2 ^ d <= 2 ^ 0) by (apply Z.pow_le_mono_r; lia).
    simpl in *. lia. }
  assert (d - 1 < digits m).
  { apply (Z.pow_lt_mono_r_iff 2); lia. }
  assert (digits m - 1 < d).
  { apply (Z.pow_lt_mono_r_iff 2); lia. }
  lia.
Qed.

Lemma iter_pos_nat {A} (f : A -> A) (p : positive) (x : A) :
  SpecFloat.iter_pos f p x = Nat.iter (Pos.to_nat p) f x.
Proof.
  revert x. induction p as [p IH|p IH|]; intros x; simpl SpecFloat.iter_pos.
  - rewrite !IH.
    replace (Pos.to_nat p~1) with (Pos.to_nat p + (Pos.to_nat p + 1))%nat by lia.
    now rewrite !Nat.iter_add.
  - rewrite !IH.
    replace (Pos.to_nat p~0) with (Pos.to_nat p + Pos.to_nat p)%nat by lia.
    now rewrite Nat.iter_add.
  - reflexivity.
Qed.

Lemma shr_1_spec (m : Z) (r s : bool) :
  0 <= m ->
  shr_1 {| shr_m := m; shr_r := r; shr_s := s |}
  = {| shr_m := m / 2; shr_r := Z.odd m; shr_s := r || s |}.
Proof.
  intros Hm. rewrite <- Z.div2_div.
  destruct m as [|[p|p|]|]; try reflexivity. lia.
Qed.

Definition mrs (m : Z) (r s : bool) : shr_record :=
  {| shr_m := m; shr_r := r; shr_s := s |}.

(** [n+1] right shifts of an exact mantissa: quotient, round bit, sticky
    bit. *)
Lemma shr_iter (m : Z) (n : nat) :
  0 <= m ->
  Nat.iter (S n) shr_1 (mrs m false false)
  = mrs (m / 2 ^ Z.of_nat (S n)) (Z.odd (m / 2 ^ Z.of_nat n))
      (negb (m mod 2 ^ Z.of_nat n =? 0)).
Proof.
  intros Hm. induction n as [|n IH].
  - change (Nat.iter 1 shr_1 (mrs m false false))
      with (shr_1 (mrs m false false)).
    unfold mrs. rewrite shr_1_spec by assumption.
    change (2 ^ Z.of_nat 0) with 1. change (2 ^ Z.of_nat 1) with 2.
    now rewrite Z.div_1_r, Z.mod_1_r.
  - rewrite Nat.iter_succ, IH. unfold mrs.
    assert (Hp : 0 < 2 ^ Z.of_nat n) by (apply Z.pow_pos_nonneg; lia).
    rewrite shr_1_spec by (apply Z.div_pos; [assumption | apply Z.pow_pos_nonneg; lia]).
    rewrite !Nat2Z.inj_succ, !Z.pow_succ_r by lia.
    f_equal.
    + rewrite Z.div_div by lia. now rewrite (Z.mul_comm _ 2).
    + rewrite (Z.mul_comm 2), Z.rem_mul_r by lia.
      rewrite Zodd_mod.
      destruct (m mod 2 ^ Z.of_nat n =? 0) eqn:E1;
        destruct ((m / 2 ^ Z.of_nat n) mod 2 =? 1) eqn:E2;
        simpl; symmetry.
      * apply Z.eqb_eq in E2. apply Z.eqb_eq in E1.
        apply negb_true_iff, Z.eqb_neq. lia.
      * apply Z.eqb_neq in E2. apply Z.eqb_eq in E1.
        apply negb_false_iff, Z.eqb_eq.
        pose proof (Z.mod_pos_bound (m / 2 ^ Z.of_nat n) 2). lia.
      * apply Z.eqb_neq in E1. apply negb_true_iff, Z.eqb_neq.
        pose proof (Z.mod_pos_bound m (2 ^ Z.of_nat n)). lia.
      * apply Z.eqb_neq in E1. apply negb_true_iff, Z.eqb_neq.
        pose proof (Z.mod_pos_bound m (2 ^ Z.of_nat n)).
        pose proof (Z.mod_pos_bound (m / 2 ^ Z.of_nat n) 2). nia.
Qed.

(** Nearest integer to [m / 2^n], ties to even, as the round and sticky
    bits of the shifted mantissa select it. *)
Definition round_shift (m n : Z) : Z :=
  round_nearest_even (m / 2 ^ n)
    (loc_of_shr_record
       (mrs (m / 2 ^ n) (Z.odd (m / 2 ^ (n - 1)))
          (negb (m mod 2 ^ (n - 1) =? 0)))).

Lemma shr_exact (m e n : Z) :
  0 <= m -> 0 < n ->
  shr (mrs m false false) e n
  = (mrs (m / 2 ^ n) (Z.odd (m / 2 ^ (n - 1)))
       (negb (m mod 2 ^ (n - 1) =? 0)), e + n).
Proof.
  intros Hm Hn. destruct n as [|p|p]; try lia.
  unfold shr. rewrite iter_pos_nat.
  destruct (Pos.to_nat p) as [|k] eqn:Ek; [lia|].
  rewrite shr_iter by assumption.
  replace (Z.of_nat (S k)) with (Z.pos p) by lia.
  replace (Z.of_nat k) with (Z.pos p - 1) by lia.
  reflexivity.
Qed.

Lemma round_shift_nearest (m n : Z) :
  0 <= m -> 0 < n ->
  m / 2 ^ n <= round_shift m n <= m / 2 ^ n + 1
  /\ forall j, Z.abs (m - round_shift m n * 2 ^ n) <= Z.abs (m - j * 2 ^ n).
Proof.
  intros Hm Hn. unfold round_shift.
  set (h := 2 ^ (n - 1)).
  assert (Hh : 0 < h) by (apply Z.pow_pos_nonneg; lia).
  assert (H2 : 2 ^ n = 2 * h).
  { unfold h. rewrite <- Z.pow_succ_r by lia. f_equal. lia. }
  rewrite H2.
  pose proof (Z.div_mod m h ltac:(lia)) as Hdm.
  pose proof (Z.mod_pos_bound m h Hh) as Hb.
  set (a := m / h) in *. set (b := m mod h) in *.
  assert (Hq : m / (2 * h) = a / 2).
  { unfold a. rewrite Z.mul_comm, <- Z.div_div by lia. reflexivity. }
  rewrite Hq.
  pose proof (Z.div_mod a 2 ltac:(lia)) as Hda.
  pose proof (Z.mod_pos_bound a 2 ltac:(lia)) as Ht.
  rewrite Zodd_mod.
  set (q := a / 2) in *. set (t := a mod 2) in *.
  assert (Hm' : m = q * (2 * h) + t * h + b) by nia.
  assert (Hj : forall j, j <= q -> j * (2 * h) <= q * (2 * h))
    by (intros; apply Z.mul_le_mono_nonneg_r; lia).
  assert (Hj' : forall j, q + 1 <= j -> (q + 1) * (2 * h) <= j * (2 * h))
    by (intros; apply Z.mul_le_mono_nonneg_r; lia).
  assert (Hcase : forall j, j <= q \/ q + 1 <= j) by (intros; lia).
  destruct (t =? 1) eqn:Et; destruct (b =? 0) eqn:Eb; simpl;
    [apply Z.eqb_eq in Et | apply Z.eqb_eq in Et
    |apply Z.eqb_neq in Et | apply Z.eqb_neq in Et];
    [apply Z.eqb_eq in Eb | apply Z.eqb_neq in Eb
    |apply Z.eqb_eq in Eb | apply Z.eqb_neq in Eb].
  - destruct (Z.even q); (split; [lia|]); intros j;
      destruct (Hcase j) as [Hc|Hc];
      [specialize (Hj j Hc) | specialize (Hj' j Hc)
      |specialize (Hj j Hc) | specialize (Hj' j Hc)]; nia.
  - split; [lia|]. intros j.
    destruct (Hcase j) as [Hc|Hc];
      [specialize (Hj j Hc) | specialize (Hj' j Hc)]; nia.
  - split; [lia|]. intros j.
    destruct (Hcase j) as [Hc|Hc];
      [specialize (Hj j Hc) | specialize (Hj' j Hc)]; nia.
  - split; [lia|]. intros j.
    destruct (Hcase j) as [Hc|Hc];
      [specialize (Hj j Hc) | specialize (Hj' j Hc)]; nia.
Qed.

(** ** Values of binary32 numbers

    Every finite binary32 number is a multiple of [2^-149], and the exact
    product of two of them a multiple of [2^-298]: values are kept as
    integers in units of [2^-298]. *)

Definition K : Z := 298.

Definition sgn (s : bool) : Z := if s then -1 else 1.

Definition V (x : float) : Z :=
  match x with
  | S754_finite s m e => sgn s * Zpos m * 2 ^ (e + K)
  | _ => 0
  end.

Definition is_finite (x : float) : bool :=
  match x with
  | S754_finite _ _ _ | S754_zero _ => true
  | _ => false
  end.

(** A finite, well-formed binary32 number. *)
Definition fv (x : float) : Prop :=
  F32.valid x = true /\ is_finite x = true.

(** [r] is a binary32 number nearest to the exact value [z]. *)
Definition nearest (z : Z) (r : float) : Prop :=
  fv r /\ forall f, fv f -> Z.abs (z - V r) <= Z.abs (z - V f).

Definition has_sign (s : bool) (r : float) : Prop :=
  match r with
  | S754_finite s' _ _ | S754_zero s' => s' = s
  | _ => False
  end.

Lemma fexp32 (x : Z) : fexp 24 128 x = Z.max (x - 24) (-149).
Proof. reflexivity. Qed.

Lemma shr_nonpos (r : shr_record) (e n : Z) : n <= 0 -> shr r e n = (r, e).
Proof. destruct n; [reflexivity | lia | reflexivity]. Qed.

(** The second half of [binary_round_aux]: renormalise after rounding and
    test for overflow. *)
Definition finish (s : bool) (R E : Z) : float :=
  let '(mrs'', e'') := shr_fexp 24 128 R E loc_Exact in
  match shr_m mrs'' with
  | Z0 => S754_zero s
  | Zpos m => if e'' <=? 104 then S754_finite s m e'' else S754_infinity s
  | Zneg _ => S754_nan
  end.

Lemma binary_round_aux_finish (s : bool) (m e : Z) (l : location) :
  binary_round_aux 24 128 s m e l
  = finish s
      (round_nearest_even (shr_m (fst (shr_fexp 24 128 m e l)))
         (loc_of_shr_record (fst (shr_fexp 24 128 m e l))))
      (snd (shr_fexp 24 128 m e l)).
Proof.
  unfold binary_round_aux, finish.
  destruct (shr_fexp 24 128 m e l) as [r e']. reflexivity.
Qed.

Lemma pow2_pos (x : Z) : 0 <= x -> 0 < 2 ^ x.
Proof. intros. apply Z.pow_pos_nonneg; lia. Qed.

Lemma digits_le (m : positive) (d : Z) : Zpos m < 2 ^ d -> digits m <= d.
Proof.
  intros H. destruct (digits_bounds m) as [Hl _].
  destruct (Z_le_gt_dec (digits m) d) as [|Hgt]; [assumption|].
  assert (0 <= d).
  { destruct (Z_le_gt_dec 0 d); [assumption|].
    rewrite Z.pow_neg_r in H by lia. lia. }
  assert (2 ^ d <= 2 ^ (digits m - 1)) by (apply Z.pow_le_mono_r; lia).
  lia.
Qed.

Lemma valid_finite_iff (s : bool) (m : positive) (e : Z) :
  F32.valid (S754_finite s m e) = true
  <-> digits m <= 24 /\ -149 <= e <= 104 /\ (-149 < e -> digits m = 24).
Proof.
  unfold F32.valid, valid_binary, bounded, canonical_mantissa.
  rewrite fexp32. change (F32.emax - F32.prec) with 104.
  rewrite andb_true_iff, Z.eqb_eq, Z.leb_le. lia.
Qed.

Lemma finish_spec (s : bool) (R E : Z) :
  -149 <= E <= 103 ->
  0 <= R <= 2 ^ 24 ->
  (-149 < E -> 2 ^ 23 <= R) ->
  fv (finish s R E)
  /\ V (finish s R E) = sgn s * R * 2 ^ (E + K)
  /\ has_sign s (finish s R E).
Proof.
  intros HE HR Hn. unfold finish, shr_fexp.
  destruct R as [|r|r]; [| |lia].
  - (* zero *)
    simpl Zdigits2. rewrite fexp32, shr_nonpos by lia. simpl.
    repeat split. lia.
  - simpl Zdigits2.
    destruct (Z.eq_dec (Zpos r) (2 ^ 24)) as [Hc|Hc].
    + (* carry: the rounded mantissa is 2^24 *)
      assert (Hd : digits r = 25).
      { apply digits_unique. rewrite Hc. change (25 - 1) with 24.
        split; [apply Z.le_refl | apply Z.pow_lt_mono_r; lia]. }
      rewrite Hd, fexp32.
      replace (Z.max (25 + E - 24) (-149) - E) with 1 by lia.
      change (shr_record_of_loc (Z.pos r) loc_Exact) with (mrs (Zpos r) false false).
      rewrite shr_exact by lia. rewrite Hc. simpl shr_m.
      change (2 ^ 24 / 2 ^ 1) with (Zpos 8388608).
      cbv iota beta.
      destruct (E + 1 <=? 104) eqn:Ele; [|apply Z.leb_gt in Ele; lia].
      repeat split.
      * apply valid_finite_iff. change (digits 8388608) with 24. lia.
      * unfold V. replace (E + 1 + K) with (Z.succ (E + K)) by lia.
        rewrite Z.pow_succ_r by (unfold K; lia). lia.
    + assert (Hd : digits r <= 24) by (apply digits_le; lia).
      rewrite fexp32, shr_nonpos by lia. simpl shr_m. cbv iota beta.
      destruct (E <=? 104) eqn:Ele; [|apply Z.leb_gt in Ele; lia].
      repeat split.
      apply valid_finite_iff. split; [assumption|]. split; [lia|].
      intros HEn. apply digits_unique. change (24 - 1) with 23. lia.
Qed.

Lemma abs_sgn (s : bool) (x : Z) : Z.abs (sgn s * x) = Z.abs x.
Proof. destruct s; unfold sgn; lia. Qed.

Lemma sgn_sq (s : bool) : sgn s * sgn s = 1.
Proof. now destruct s. Qed.

Lemma pow2_split (a b : Z) : 0 <= a -> 0 <= b -> 2 ^ (a + b) = 2 ^ a * 2 ^ b.
Proof. intros. now apply Z.pow_add_r. Qed.

Lemma V_zero_or_finite (f : float) :
  fv f ->
  V f = 0
  \/ exists s m e, f = S754_finite s m e
                   /\ digits m <= 24 /\ -149 <= e <= 104
                   /\ (-149 < e -> digits m = 24).
Proof.
  intros [Hv Hf]. destruct f as [s|s| |s m e]; try discriminate; auto.
  right. exists s, m, e. split; [reflexivity|].
  exact (proj1 (valid_finite_iff s m e) Hv).
Qed.

(** Rounding an exact [p * 2^e]: [binary_round_aux] returns a nearest
    binary32 number, with the sign asked for. *)
Lemma round_aux_nearest (s : bool) (p : positive) (e : Z) :
  - K <= e ->
  e <= fexp 24 128 (digits p + e) ->
  Zpos p * 2 ^ (e + K) < 2 ^ (127 + K) ->
  nearest (sgn s * (Zpos p * 2 ^ (e + K)))
    (binary_round_aux 24 128 s (Zpos p) e loc_Exact)
  /\ has_sign s (binary_round_aux 24 128 s (Zpos p) e loc_Exact).
Proof.
  intros He Hcan Hub. rewrite fexp32 in Hcan.
  set (d := digits p) in *.
  destruct (digits_bounds p) as [Hdl Hdu]. fold d in Hdl, Hdu.
  assert (Hd1 : 1 <= d) by (unfold d; lia).
  set (E := Z.max (d + e - 24) (-149)) in *.
  set (n := E - e).
  assert (Hn : 0 <= n) by (unfold n; lia).
  set (P := 2 ^ (e + K)).
  assert (HP : 0 < P) by (apply pow2_pos; lia).
  set (N := 2 ^ n).
  assert (HN : 0 < N) by (apply pow2_pos; lia).
  assert (HEK : 2 ^ (E + K) = N * P).
  { unfold N, P. rewrite <- pow2_split by lia. f_equal. unfold n. lia. }
  (* no overflow *)
  assert (HE103 : E <= 103).
  { assert (d - 1 + (e + K) < 127 + K).
    { apply (Z.pow_lt_mono_r_iff 2); [lia | unfold K; lia |].
      rewrite pow2_split by lia. fold P. nia. }
    unfold E. lia. }
  (* the rounded mantissa *)
  set (R := if n =? 0 then Zpos p else round_shift (Zpos p) n).
  assert (HR : binary_round_aux 24 128 s (Zpos p) e loc_Exact = finish s R E).
  { rewrite binary_round_aux_finish. unfold shr_fexp. simpl Zdigits2.
    rewrite fexp32. fold d. fold E. fold n.
    change (shr_record_of_loc (Z.pos p) loc_Exact) with (mrs (Zpos p) false false).
    unfold R. destruct (n =? 0) eqn:En.
    - apply Z.eqb_eq in En. rewrite shr_nonpos by lia. simpl.
      f_equal. unfold n in En. lia.
    - apply Z.eqb_neq in En. rewrite shr_exact by lia. simpl fst. simpl snd.
      unfold round_shift. f_equal. unfold n. lia. }
  assert (HM : forall j, Z.abs (Zpos p - R * N) <= Z.abs (Zpos p - j * N)).
  { intros j. unfold R. destruct (n =? 0) eqn:En.
    - apply Z.eqb_eq in En. unfold N. rewrite En. simpl. lia.
    - apply Z.eqb_neq in En.
      apply (proj2 (round_shift_nearest (Zpos p) n ltac:(lia) ltac:(lia))). }
  assert (HRb : 0 <= R <= 2 ^ 24 /\ (-149 < E -> 2 ^ 23 <= R)).
  { assert (HdN : Zpos p < 2 ^ 24 * N).
    { unfold N. rewrite <- pow2_split by lia.
      eapply Z.lt_le_trans; [exact Hdu|]. apply Z.pow_le_mono_r; unfold n, E; lia. }
    assert (HdN' : -149 < E -> 2 ^ 23 * N <= Zpos p).
    { intros HEn. unfold N. rewrite <- pow2_split by lia.
      eapply Z.le_trans; [|exact Hdl]. apply Z.pow_le_mono_r; unfold n, E in *; lia. }
    unfold R. destruct (n =? 0) eqn:En.
    - apply Z.eqb_eq in En. unfold N in *. rewrite En in *. simpl in *. lia.
    - apply Z.eqb_neq in En.
      destruct (round_shift_nearest (Zpos p) n ltac:(lia) ltac:(lia)) as [[Hq1 Hq2] _].
      fold N in Hq1, Hq2.
      assert (Zpos p / N < 2 ^ 24) by (apply Z.div_lt_upper_bound; lia).
      assert (0 <= Zpos p / N) by (apply Z.div_pos; lia).
      split; [lia|]. intros HEn.
      assert (2 ^ 23 <= Zpos p / N) by (apply Z.div_le_lower_bound; specialize (HdN' HEn); lia).
      lia. }
  destruct HRb as [HRb HRn].
  destruct (finish_spec s R E ltac:(unfold E; lia) HRb HRn) as (Hfv & HV & Hs).
  rewrite HR. split; [|exact Hs].
  split; [exact Hfv|]. intros f Hf.
  rewrite HV, HEK.
  replace (sgn s * (Zpos p * P) - sgn s * R * (N * P))
    with (sgn s * ((Zpos p - R * N) * P)) by ring.
  rewrite abs_sgn, Z.abs_mul, (Z.abs_eq P) by lia.
  destruct (V_zero_or_finite f Hf) as [HV0 | (sf & mf & ef & -> & Hdf & Hef & Hnf)].
  - rewrite HV0, Z.sub_0_r, abs_sgn, Z.abs_mul, (Z.abs_eq P) by lia.
    apply Z.mul_le_mono_nonneg_r; [lia|].
    specialize (HM 0). now rewrite Z.mul_0_l, Z.sub_0_r in HM.
  - unfold V.
    destruct (Z_le_gt_dec E ef) as [Hge | Hlt].
    + (* [f] is a multiple of the spacing at [E] *)
      assert (Hef' : 2 ^ (ef + K) = 2 ^ (ef - E) * (N * P)).
      { rewrite <- HEK, <- pow2_split by (unfold E in *; unfold K; lia).
        f_equal. lia. }
      rewrite Hef'.
      replace (sgn s * (Zpos p * P) - sgn sf * Zpos mf * (2 ^ (ef - E) * (N * P)))
        with (sgn s * ((Zpos p - (sgn s * sgn sf * Zpos mf * 2 ^ (ef - E)) * N) * P)).
      2:{ transitivity (sgn s * Zpos p * P
                        - (sgn s * sgn s) * sgn sf * Zpos mf * 2 ^ (ef - E) * N * P);
            [ring | rewrite sgn_sq; ring]. }
      rewrite abs_sgn, Z.abs_mul, (Z.abs_eq P) by lia.
      apply Z.mul_le_mono_nonneg_r; [lia | apply HM].
    + (* [f] lies under the binade of the exact value *)
      assert (HEn : -149 < E) by lia.
      specialize (HRn HEn).
      assert (Hmf : Zpos mf < 2 ^ 24).
      { destruct (digits_bounds mf) as [_ Hu].
        eapply Z.lt_le_trans; [exact Hu|]. apply Z.pow_le_mono_r; lia. }
      assert (Hpw : 2 * 2 ^ (ef + K) <= N * P).
      { rewrite <- HEK, <- Z.pow_succ_r by (unfold K; lia).
        apply Z.pow_le_mono_r; lia. }
      assert (HpN : 2 ^ 23 * N <= Zpos p).
      { unfold N. rewrite <- pow2_split by lia.
        eapply Z.le_trans; [|exact Hdl]. apply Z.pow_le_mono_r; unfold n, E in *; lia. }
      pose proof (HM (2 ^ 23)) as HM23.
      rewrite (Z.abs_eq (Zpos p - 2 ^ 23 * N)) in HM23 by lia.
      assert (Hf2 : Zpos mf * 2 ^ (ef + K) < 2 ^ 23 * (N * P)).
      { assert (H0 : 0 < 2 ^ (ef + K)) by (apply pow2_pos; unfold K; lia).
        change (2 ^ 24) with 16777216 in Hmf. change (2 ^ 23) with 8388608 in *.
        apply (Z.mul_lt_mono_pos_r _ _ _ H0) in Hmf. lia. }
      assert (Hz : (Zpos p - 2 ^ 23 * N) * P
                   <= Z.abs (sgn s * (Zpos p * P)
                             - sgn sf * Zpos mf * 2 ^ (ef + K))).
      { apply (Z.mul_le_mono_nonneg_r _ _ P) in HpN; [|lia].
        clear - HpN Hf2. destruct s, sf; unfold sgn; lia. }
      eapply Z.le_trans; [|exact Hz].
      apply Z.mul_le_mono_nonneg_r; lia.
Qed.

(** ** Comparison is comparison of values *)

Lemma mag_lt (m1 m2 : positive) (e1 e2 : Z) :
  digits m1 <= 24 -> -149 <= e1 -> e1 < e2 -> digits m2 = 24 ->
  Zpos m1 * 2 ^ (e1 + K) < Zpos m2 * 2 ^ (e2 + K).
Proof.
  intros Hd1 He1 Hlt Hd2.
  destruct (digits_bounds m1) as [_ Hu1].
  destruct (digits_bounds m2) as [Hl2 _]. rewrite Hd2 in Hl2.
  assert (Hm1 : Zpos m1 < 2 ^ 24).
  { eapply Z.lt_le_trans; [exact Hu1|]. apply Z.pow_le_mono_r; lia. }
  assert (H1 : 0 < 2 ^ (e1 + K)) by (apply pow2_pos; unfold K; lia).
  assert (H2 : 2 * 2 ^ (e1 + K) <= 2 ^ (e2 + K)).
  { rewrite <- Z.pow_succ_r by (unfold K; lia). apply Z.pow_le_mono_r; lia. }
  change (24 - 1) with 23 in Hl2.
  change (2 ^ 24) with (2 * 8388608) in Hm1. change (2 ^ 23) with 8388608 in Hl2.
  nia.
Qed.

Lemma V_finite_sign (s : bool) (m : positive) (e : Z) :
  F32.valid (S754_finite s m e) = true ->
  0 < sgn s * V (S754_finite s m e).
Proof.
  intros Hv. apply valid_finite_iff in Hv.
  assert (0 < 2 ^ (e + K)) by (apply pow2_pos; unfold K; lia).
  unfold V. destruct s; unfold sgn; nia.
Qed.

Lemma compare_cont_Eq (m1 m2 : positive) :
  Pos.compare_cont Eq m1 m2 = (Zpos m1 ?= Zpos m2).
Proof. reflexivity. Qed.

Lemma SFcompare_V (x y : float) :
  fv x -> fv y -> SFcompare x y = Some (V x ?= V y).
Proof.
  intros Hx Hy.
  destruct (V_zero_or_finite x Hx) as [Hx0 | (sx & mx & ex & -> & Hdx & Hex & Hnx)];
    destruct (V_zero_or_finite y Hy) as [Hy0 | (sy & my & ey & -> & Hdy & Hey & Hny)].
  - destruct Hx as [Hvx Hfx], Hy as [Hvy Hfy].
    destruct x as [?|?| |sx mx ex], y as [?|?| |sy my ey]; try discriminate;
      try reflexivity; exfalso;
      [pose proof (V_finite_sign _ _ _ Hvy) as Hs; rewrite Hy0 in Hs
      |pose proof (V_finite_sign _ _ _ Hvx) as Hs; rewrite Hx0 in Hs
      |pose proof (V_finite_sign _ _ _ Hvx) as Hs; rewrite Hx0 in Hs]; lia.
  - destruct Hx as [Hvx Hfx].
    assert (HP : 0 < 2 ^ (ey + K)) by (apply pow2_pos; unfold K; lia).
    destruct x as [?|?| |sx mx ex]; try discriminate.
    + unfold SFcompare, V. f_equal. symmetry. destruct sy; unfold sgn.
      * apply Z.compare_gt_iff. nia.
      * apply Z.compare_lt_iff. nia.
    + exfalso. pose proof (V_finite_sign _ _ _ Hvx) as Hs. rewrite Hx0 in Hs. lia.
  - destruct Hy as [Hvy Hfy].
    assert (HP : 0 < 2 ^ (ex + K)) by (apply pow2_pos; unfold K; lia).
    destruct y as [?|?| |sy my ey]; try discriminate.
    + unfold SFcompare, V. f_equal. symmetry. destruct sx; unfold sgn.
      * apply Z.compare_lt_iff. nia.
      * apply Z.compare_gt_iff. nia.
    + exfalso. pose proof (V_finite_sign _ _ _ Hvy) as Hs. rewrite Hy0 in Hs. lia.
  - assert (HPx : 0 < 2 ^ (ex + K)) by (apply pow2_pos; unfold K; lia).
    assert (HPy : 0 < 2 ^ (ey + K)) by (apply pow2_pos; unfold K; lia).
    assert (Hlt : ex < ey -> Zpos mx * 2 ^ (ex + K) < Zpos my * 2 ^ (ey + K))
      by (intros; apply mag_lt; lia).
    assert (Hgt : ey < ex -> Zpos my * 2 ^ (ey + K) < Zpos mx * 2 ^ (ex + K))
      by (intros; apply mag_lt; lia).
    unfold SFcompare, V. f_equal. symmetry.
    destruct sx, sy; unfold sgn.
    + destruct (Z.compare_spec ex ey) as [->|H|H].
      * rewrite compare_cont_Eq.
        destruct (Z.compare_spec (Zpos mx) (Zpos my)) as [E|E|E]; simpl.
        -- apply Z.compare_eq_iff. rewrite E. reflexivity.
        -- apply Z.compare_gt_iff. nia.
        -- apply Z.compare_lt_iff. nia.
      * apply Z.compare_gt_iff. specialize (Hlt H). lia.
      * apply Z.compare_lt_iff. specialize (Hgt H). lia.
    + apply Z.compare_lt_iff. nia.
    + apply Z.compare_gt_iff. nia.
    + destruct (Z.compare_spec ex ey) as [->|H|H].
      * rewrite compare_cont_Eq.
        destruct (Z.compare_spec (Zpos mx) (Zpos my)) as [E|E|E]; simpl.
        -- apply Z.compare_eq_iff. rewrite E. reflexivity.
        -- apply Z.compare_lt_iff. nia.
        -- apply Z.compare_gt_iff. nia.
      * apply Z.compare_lt_iff. specialize (Hlt H). lia.
      * apply Z.compare_gt_iff. specialize (Hgt H). lia.
Qed.

(** ** The operations return a nearest number *)

Lemma iter_xO (m d : positive) :
  Zpos (Pos.iter xO m d) = Zpos m * 2 ^ Zpos d.
Proof.
  induction d as [|d IH] using Pos.peano_ind.
  - simpl. lia.
  - rewrite Pos.iter_succ, Pos2Z.inj_xO, IH, Pos2Z.inj_succ, Z.pow_succ_r by lia.
    lia.
Qed.

Lemma digits_shift (m : positive) (t : Z) (mz : positive) :
  0 <= t -> Zpos mz = Zpos m * 2 ^ t -> digits mz = digits m + t.
Proof.
  intros Ht Hm. apply digits_unique. rewrite Hm.
  destruct (digits_bounds m) as [Hl Hu].
  assert (0 < 2 ^ t) by (apply pow2_pos; lia).
  assert (1 <= digits m) by lia.
  replace (digits m + t - 1) with (digits m - 1 + t) by lia.
  rewrite !pow2_split by lia. nia.
Qed.

Lemma shl_align_spec (m : positive) (e e' : Z) :
  let '(mz, ez) := shl_align m e e' in
  ez = Z.min e e' /\ Zpos mz = Zpos m * 2 ^ (e - ez).
Proof.
  unfold shl_align. destruct (e' - e) as [|d|d] eqn:Ed.
  - split; [lia|]. replace (e - e) with 0 by lia. simpl. lia.
  - split; [lia|]. replace (e - e) with 0 by lia. simpl. lia.
  - split; [lia|]. rewrite iter_xO. f_equal. f_equal. lia.
Qed.

Lemma binary_round_nearest (s : bool) (m : positive) (e : Z) :
  -149 <= e ->
  Zpos m * 2 ^ (e + K) < 2 ^ (127 + K) ->
  nearest (sgn s * (Zpos m * 2 ^ (e + K))) (binary_round 24 128 s m e)
  /\ has_sign s (binary_round 24 128 s m e).
Proof.
  intros He Hub. unfold binary_round.
  pose proof (shl_align_spec m e (fexp 24 128 (digits m + e))) as Hsh.
  destruct (shl_align m e (fexp 24 128 (digits m + e))) as [mz ez].
  destruct Hsh as [Hez Hmz]. rewrite fexp32 in Hez.
  assert (Ht : 0 <= e - ez) by lia.
  assert (Hval : Zpos mz * 2 ^ (ez + K) = Zpos m * 2 ^ (e + K)).
  { rewrite Hmz, <- Z.mul_assoc, <- pow2_split by (unfold K; lia).
    f_equal. f_equal. lia. }
  rewrite <- Hval in *.
  apply round_aux_nearest; [unfold K; lia | | assumption].
  rewrite fexp32, (digits_shift m (e - ez) mz Ht Hmz). lia.
Qed.

Lemma nearest_exact (r : float) : fv r -> nearest (V r) r.
Proof. intros H. split; [exact H|]. intros f _. rewrite Z.sub_diag. simpl. lia. Qed.

Lemma fv_zero (s : bool) : fv (S754_zero s).
Proof. split; reflexivity. Qed.

Lemma binary_normalize_nearest (z e : Z) :
  -149 <= e ->
  Z.abs z * 2 ^ (e + K) < 2 ^ (127 + K) ->
  nearest (z * 2 ^ (e + K)) (binary_normalize 24 128 z e false).
Proof.
  intros He Hub. destruct z as [|m|m]; simpl binary_normalize.
  - rewrite Z.mul_0_l. apply (nearest_exact (S754_zero false)), fv_zero.
  - destruct (binary_round_nearest false m e He Hub) as [H _].
    unfold sgn in H. now rewrite Z.mul_1_l in H.
  - destruct (binary_round_nearest true m e He Hub) as [H _].
    unfold sgn in H.
    now replace (-1 * (Z.pos m * 2 ^ (e + K))) with (Z.neg m * 2 ^ (e + K)) in H by lia.
Qed.

Lemma of_Z_nearest (n : Z) :
  Z.abs n < 2 ^ 127 -> nearest (n * 2 ^ K) (F32.of_Z n).
Proof.
  intros H. unfold F32.of_Z.
  change (2 ^ K) with (2 ^ (0 + K)). apply binary_normalize_nearest; [lia|].
  change (127 + K) with (127 + (0 + K)). rewrite (pow2_split 127) by (unfold K; lia).
  apply Z.mul_lt_mono_pos_r; [apply pow2_pos; unfold K; lia | assumption].
Qed.

Lemma add_nearest (x y : float) :
  fv x -> fv y ->
  Z.abs (V x + V y) < 2 ^ (127 + K) ->
  nearest (V x + V y) (F32.add x y).
Proof.
  intros Hx Hy Hub.
  destruct x as [sx|sx| |sx mx ex]; try (destruct Hx; discriminate);
    destruct y as [sy|sy| |sy my ey]; try (destruct Hy; discriminate).
  - (* 0 + 0 *)
    change (V (S754_zero sx) + V (S754_zero sy)) with 0.
    destruct sx, sy; apply (nearest_exact (S754_zero _)), fv_zero.
  - change (V (S754_zero sx)) with 0. rewrite Z.add_0_l. now apply nearest_exact.
  - change (V (S754_zero sy)) with 0. rewrite Z.add_0_r. now apply nearest_exact.
  - unfold F32.add, SFadd.
    pose proof (proj1 (valid_finite_iff _ _ _) (proj1 Hx)) as (Hdx & Hex & Hnx).
    pose proof (proj1 (valid_finite_iff _ _ _) (proj1 Hy)) as (Hdy & Hey & Hny).
    set (ez := Z.min ex ey).
    pose proof (shl_align_spec mx ex ez) as Hax.
    pose proof (shl_align_spec my ey ez) as Hay.
    destruct (shl_align mx ex ez) as [mx' ex'], (shl_align my ey ez) as [my' ey'].
    simpl fst. destruct Hax as [Hex' Hmx'], Hay as [Hey' Hmy'].
    replace ex' with ez in Hmx' by (unfold ez in *; lia).
    replace ey' with ez in Hmy' by (unfold ez in *; lia).
    assert (HP : 0 < 2 ^ (ez + K)) by (apply pow2_pos; unfold ez, K; lia).
    assert (Hsum : V (S754_finite sx mx ex) + V (S754_finite sy my ey)
                   = (cond_Zopp sx (Zpos mx') + cond_Zopp sy (Zpos my'))
                     * 2 ^ (ez + K)).
    { unfold V. rewrite Hmx', Hmy'.
      replace (ex + K) with ((ex - ez) + (ez + K)) by lia.
      replace (ey + K) with ((ey - ez) + (ez + K)) by lia.
      rewrite (pow2_split (ex - ez)), (pow2_split (ey - ez))
        by (unfold ez, K; lia).
      destruct sx, sy; unfold sgn, cond_Zopp; ring. }
    rewrite Hsum in *.
    apply binary_normalize_nearest; [unfold ez; lia|].
    now rewrite Z.abs_mul, (Z.abs_eq (2 ^ (ez + K))) in Hub by lia.
Qed.

Lemma digits_mul_ge (a b : positive) :
  digits a + digits b - 1 <= digits (a * b).
Proof.
  destruct (digits_bounds a) as [Ha _], (digits_bounds b) as [Hb _].
  destruct (digits_bounds (a * b)) as [_ Hab]. rewrite Pos2Z.inj_mul in Hab.
  assert (1 <= digits a) by lia. assert (1 <= digits b) by lia.
  assert (Hlt : 2 ^ (digits a - 1 + (digits b - 1)) < 2 ^ digits (a * b)).
  { rewrite pow2_split by lia. nia. }
  apply Z.pow_lt_mono_r_iff in Hlt; lia.
Qed.

Lemma mul_nearest (x y : float) (z : Z) :
  fv x -> fv y ->
  z * 2 ^ K = V x * V y ->
  Z.abs z < 2 ^ (127 + K) ->
  nearest z (F32.mul x y).
Proof.
  intros Hx Hy Hz Hub.
  assert (HK : 0 < 2 ^ K) by (apply pow2_pos; unfold K; lia).
  destruct x as [sx|sx| |sx mx ex]; try (destruct Hx; discriminate);
    destruct y as [sy|sy| |sy my ey]; try (destruct Hy; discriminate);
    try (assert (z = 0) by (simpl in Hz; nia); subst z;
         apply (nearest_exact (S754_zero _)), fv_zero).
  unfold F32.mul, SFmul.
  pose proof (proj1 (valid_finite_iff _ _ _) (proj1 Hx)) as (Hdx & Hex & Hnx).
  pose proof (proj1 (valid_finite_iff _ _ _) (proj1 Hy)) as (Hdy & Hey & Hny).
  assert (Hzv : z = sgn (xorb sx sy) * (Zpos (mx * my) * 2 ^ (ex + ey + K))).
  { apply (Z.mul_cancel_r _ _ (2 ^ K)); [lia|]. rewrite Hz. unfold V.
    rewrite Pos2Z.inj_mul.
    replace (ex + ey + K) with ((ex + K) + ey) by lia.
    replace (ey + K) with (ey + K) by lia.
    assert (E : 2 ^ (ex + K + ey) * 2 ^ K = 2 ^ (ex + K) * 2 ^ (ey + K)).
    { rewrite <- !pow2_split by (unfold K; lia). f_equal. lia. }
    assert (Hs : sgn (xorb sx sy) = sgn sx * sgn sy) by (destruct sx, sy; reflexivity).
    rewrite Hs.
    transitivity (sgn sx * sgn sy * (Z.pos mx * Z.pos my)
                  * (2 ^ (ex + K + ey) * 2 ^ K)); [rewrite E|]; ring. }
  rewrite Hzv in *.
  rewrite abs_sgn, Z.abs_eq in Hub
    by (apply Z.mul_nonneg_nonneg; [lia | apply Z.pow_nonneg; lia]).
  apply round_aux_nearest; [unfold K; lia | | exact Hub].
  rewrite fexp32. pose proof (digits_mul_ge mx my).
  assert (1 <= digits mx) by lia. assert (1 <= digits my) by lia.
  destruct (Z_le_gt_dec ex (-149)), (Z_le_gt_dec ey (-149)); lia.
Qed.

(** [r] is a nearest binary32 number to the square root of [x]; midpoints
    are compared through their squares. *)
Definition sqrt_nearest (x r : float) : Prop :=
  fv r /\ 0 <= V r
  /\ forall f, fv f -> 0 <= V f ->
       (V r < V f -> 4 * V x * 2 ^ K <= (V r + V f) ^ 2)
       /\ (V f < V r -> (V r + V f) ^ 2 <= 4 * V x * 2 ^ K).

Lemma loc_of_shr_record_of_loc (m : Z) (l : location) :
  l <> loc_Inexact Eq ->
  round_nearest_even (shr_m (shr_record_of_loc m l))
    (loc_of_shr_record (shr_record_of_loc m l))
  = round_nearest_even m l.
Proof. destruct l as [|[]]; simpl; congruence. Qed.

Lemma sqrt_mid_up (q rem R j : Z) :
  0 <= rem <= 2 * q -> 1 <= q ->
  (R = q /\ rem <= q) \/ (R = q + 1 /\ q < rem) ->
  R + 1 <= j ->
  4 * (q * q + rem) <= (R + j) ^ 2.
Proof.
  intros Hrem Hq HR Hj. rewrite Z.pow_2_r.
  assert (H : (2 * R + 1) * (2 * R + 1) <= (R + j) * (R + j))
    by (apply Z.mul_le_mono_nonneg; lia).
  destruct HR as [[-> ?]|[-> ?]]; nia.
Qed.

Lemma sqrt_mid_down (q rem R j : Z) :
  0 <= rem <= 2 * q -> 1 <= q ->
  (R = q /\ rem <= q) \/ (R = q + 1 /\ q < rem) ->
  0 <= j -> j + 1 <= R ->
  (R + j) ^ 2 <= 4 * (q * q + rem).
Proof.
  intros Hrem Hq HR Hj0 Hj. rewrite Z.pow_2_r.
  assert (H : (R + j) * (R + j) <= (2 * R - 1) * (2 * R - 1))
    by (apply Z.mul_le_mono_nonneg; lia).
  destruct HR as [[-> ?]|[-> ?]]; nia.
Qed.

Lemma sqrt_mid_low (q rem R : Z) :
  0 <= rem <= 2 * q -> 1 <= q ->
  (R = q /\ rem <= q) \/ (R = q + 1 /\ q < rem) ->
  (2 * R + 2 * q - 1) ^ 2 <= 16 * (q * q + rem).
Proof.
  intros Hrem Hq HR. rewrite Z.pow_2_r.
  destruct HR as [[-> ?]|[-> ?]]; nia.
Qed.

Lemma sqrt_spec (x : float) :
  fv x -> 0 < V x -> sqrt_nearest x (F32.sqrt x).
Proof.
  intros Hx Hpos.
  destruct x as [sx|sx| |sx mx ex]; try (destruct Hx; discriminate);
    try (simpl in Hpos; lia).
  pose proof (proj1 (valid_finite_iff _ _ _) (proj1 Hx)) as (Hdx & Hex & Hnx).
  assert (sx = false).
  { destruct sx; [|reflexivity]. pose proof (V_finite_sign _ _ _ (proj1 Hx)).
    unfold sgn in *. lia. }
  subst sx. unfold F32.sqrt, SFsqrt, SFsqrt_core_binary. simpl Zdigits2.
  set (d := digits mx) in *.
  assert (Hd1 : 1 <= d) by (unfold d; lia).
  rewrite fexp32, !Z.div2_div.
  set (k := (d + ex + 1) / 2).
  assert (Hk : 2 * k <= d + ex + 1 < 2 * k + 2).
  { unfold k. pose proof (Z.div_mod (d + ex + 1) 2 ltac:(lia)).
    pose proof (Z.mod_pos_bound (d + ex + 1) 2 ltac:(lia)). lia. }
  assert (He2 : 2 * (ex / 2) <= ex < 2 * (ex / 2) + 2).
  { pose proof (Z.div_mod ex 2 ltac:(lia)).
    pose proof (Z.mod_pos_bound ex 2 ltac:(lia)). lia. }
  replace (Z.min (Z.max (k - 24) (-149)) (ex / 2)) with (k - 24) by lia.
  set (e' := k - 24).
  set (s := ex - 2 * e').
  assert (Hs : s = 48 - d \/ s = 47 - d) by (unfold s, e'; lia).
  assert (Hs0 : 0 < s) by lia.
  destruct s as [|ps|ps] eqn:Es; try lia. rewrite <- Es in *. clear Es ps.
  rewrite Z.shiftl_mul_pow2 by lia.
  set (m' := Zpos mx * 2 ^ s).
  destruct (digits_bounds mx) as [Hdl Hdu]. fold d in Hdl, Hdu.
  assert (Hm' : 2 ^ 46 <= m' < 2 ^ 48).
  { unfold m'. assert (0 < 2 ^ s) by (apply pow2_pos; lia).
    split.
    - apply Z.le_trans with (2 ^ (d - 1) * 2 ^ s); [|nia].
      rewrite <- pow2_split by lia. apply Z.pow_le_mono_r; lia.
    - apply Z.lt_le_trans with (2 ^ d * 2 ^ s); [nia|].
      rewrite <- pow2_split by lia. apply Z.pow_le_mono_r; lia. }
  pose proof (Z.sqrtrem_spec m' ltac:(lia)) as Hsq.
  destruct (Z.sqrtrem m') as [q rem]. destruct Hsq as [Hq Hrem].
  cbv beta iota zeta.
  assert (Hqb : 2 ^ 23 <= q < 2 ^ 24).
  { change (2 ^ 46) with (2 ^ 23 * 2 ^ 23) in Hm'.
    change (2 ^ 48) with (2 ^ 24 * 2 ^ 24) in Hm'.
    change (2 ^ 23) with 8388608 in *. change (2 ^ 24) with 16777216 in *.
    nia. }
  set (l := if rem =? 0 then loc_Exact
            else loc_Inexact (if rem <=? q then Lt else Gt)).
  assert (Hl : l <> loc_Inexact Eq)
    by (unfold l; destruct (rem =? 0), (rem <=? q); discriminate).
  set (R := round_nearest_even q l).
  assert (HR : (R = q /\ rem <= q) \/ (R = q + 1 /\ q < rem)).
  { unfold R, l. destruct (rem =? 0) eqn:E0.
    - apply Z.eqb_eq in E0. left. simpl. lia.
    - destruct (rem <=? q) eqn:E1; simpl.
      + apply Z.leb_le in E1. left. lia.
      + apply Z.leb_gt in E1. right. lia. }
  assert (Hbra : binary_round_aux 24 128 false q e' l = finish false R e').
  { rewrite binary_round_aux_finish. unfold shr_fexp.
    destruct q as [|pq|pq]; try (change (2 ^ 23) with 8388608 in Hqb; lia).
    simpl Zdigits2.
    assert (Hdq : digits pq = 24) by (apply digits_unique; exact Hqb).
    rewrite Hdq, fexp32, shr_nonpos by (unfold e'; lia).
    simpl fst. simpl snd. now rewrite loc_of_shr_record_of_loc. }
  unfold F32.prec, F32.emax. rewrite Hbra.
  destruct (finish_spec false R e') as (Hfv & HV & _).
  { unfold e'. lia. }
  { change (2 ^ 23) with 8388608 in *. change (2 ^ 24) with 16777216 in *. lia. }
  { change (2 ^ 23) with 8388608 in *. lia. }
  unfold sgn in HV. rewrite Z.mul_1_l in HV.
  set (P := 2 ^ (e' + K)) in *.
  assert (HP : 0 < P) by (apply pow2_pos; unfold e', K; lia).
  assert (HVx : V (S754_finite false mx ex) * 2 ^ K = m' * (P * P)).
  { unfold V, sgn, m', P. rewrite Z.mul_1_l, <- !Z.mul_assoc. f_equal.
    rewrite <- !pow2_split by (unfold e', K; lia). f_equal. unfold s. lia. }
  split; [exact Hfv|]. split; [rewrite HV; change (2 ^ 23) with 8388608 in *; nia|].
  intros f Hf Hf0.
  replace (4 * V (S754_finite false mx ex) * 2 ^ K) with (4 * (m' * (P * P)))
    by (rewrite <- HVx; ring).
  rewrite HV.
  change (2 ^ 23) with 8388608 in *. change (2 ^ 24) with 16777216 in *.
  destruct (V_zero_or_finite f Hf) as [HV0 | (sf & mf & ef & -> & Hdf & Hef & Hnf)].
  - rewrite HV0.
    assert (HRP : 0 <= R * P) by (apply Z.mul_nonneg_nonneg; destruct HR; lia).
    split; [lia|]. intros _. rewrite Z.add_0_r.
    replace ((R * P) ^ 2) with ((R + 0) ^ 2 * (P * P)) by ring.
    replace (4 * (m' * (P * P))) with (4 * m' * (P * P)) by ring.
    apply Z.mul_le_mono_nonneg_r; [apply Z.mul_nonneg_nonneg; lia|].
    rewrite Hq. apply sqrt_mid_down; try assumption; destruct HR; lia.
  - assert (sf = false).
    { destruct sf; [|reflexivity]. pose proof (V_finite_sign _ _ _ (proj1 Hf)).
      unfold sgn in *. lia. }
    subst sf. unfold V, sgn in *. rewrite Z.mul_1_l in *.
    destruct (Z_le_gt_dec e' ef) as [Hge | Hlt].
    + assert (Hef' : 2 ^ (ef + K) = 2 ^ (ef - e') * P).
      { unfold P. rewrite <- pow2_split by (unfold e', K in *; lia). f_equal. lia. }
      rewrite Hef'. set (j := Zpos mf * 2 ^ (ef - e')).
      replace (Zpos mf * (2 ^ (ef - e') * P)) with (j * P) by (unfold j; ring).
      replace ((R * P + j * P) ^ 2) with ((R + j) ^ 2 * (P * P)) by ring.
      replace (4 * (m' * (P * P))) with (4 * m' * (P * P)) by ring.
      rewrite Hq.
      assert (HPP : 0 <= P * P) by (apply Z.mul_nonneg_nonneg; lia).
      split; intros Hc; apply Z.mul_lt_mono_pos_r in Hc; try exact HP.
      * apply Z.mul_le_mono_nonneg_r; [exact HPP|].
        apply sqrt_mid_up; [assumption | lia | assumption | lia].
      * assert (0 <= j)
          by (unfold j; apply Z.mul_nonneg_nonneg; [lia | apply Z.pow_nonneg; lia]).
        apply Z.mul_le_mono_nonneg_r; [exact HPP|].
        apply sqrt_mid_down; [assumption | lia | assumption | assumption | lia].
    + assert (Hmf : Zpos mf <= 16777215).
      { destruct (digits_bounds mf) as [_ Hu].
        assert (2 ^ digits mf <= 2 ^ 24) by (apply Z.pow_le_mono_r; lia).
        change (2 ^ 24) with 16777216 in *. lia. }
      assert (Hpw : 2 * 2 ^ (ef + K) <= P).
      { unfold P. rewrite <- Z.pow_succ_r by (unfold K; lia).
        apply Z.pow_le_mono_r; lia. }
      assert (H0 : 0 < 2 ^ (ef + K)) by (apply pow2_pos; unfold K; lia).
      set (u := Zpos mf * 2 ^ (ef + K)) in *.
      assert (Hu0 : 0 <= u) by (unfold u; apply Z.mul_nonneg_nonneg; lia).
      assert (Hu : 2 * u <= (2 * q - 1) * P).
      { apply Z.le_trans with (Zpos mf * P).
        - unfold u.
          replace (2 * (Zpos mf * 2 ^ (ef + K)))
            with (Zpos mf * (2 * 2 ^ (ef + K))) by ring.
          apply Z.mul_le_mono_nonneg_l; lia.
        - apply Z.mul_le_mono_nonneg_r; lia. }
      assert (HqR : q * P <= R * P)
        by (apply Z.mul_le_mono_nonneg_r; [lia | destruct HR; lia]).
      split; intros Hc; [exfalso; lia|].
      assert (HPP : 0 <= P * P) by (apply Z.mul_nonneg_nonneg; lia).
      assert (HRP : 0 <= R * P) by (apply Z.mul_nonneg_nonneg; destruct HR; lia).
      assert (HA : 0 <= 2 * (R * P) + 2 * u <= (2 * R + 2 * q - 1) * P) by lia.
      assert (H1 : (2 * (R * P) + 2 * u) ^ 2 <= ((2 * R + 2 * q - 1) * P) ^ 2)
        by (apply Z.pow_le_mono_l; exact HA).
      assert (H2 : (2 * R + 2 * q - 1) ^ 2 <= 16 * m')
        by (rewrite Hq; apply sqrt_mid_low; [assumption | lia | assumption]).
      apply (Z.mul_le_mono_nonneg_r _ _ (P * P) HPP) in H2.
      replace (((2 * R + 2 * q - 1) * P) ^ 2)
        with ((2 * R + 2 * q - 1) ^ 2 * (P * P)) in H1 by ring.
      replace ((2 * (R * P) + 2 * u) ^ 2) with (4 * (R * P + u) ^ 2) in H1 by ring.
      replace (16 * m' * (P * P)) with (4 * (4 * (m' * (P * P)))) in H2 by ring.
      apply (proj2 (Z.mul_le_mono_pos_l _ _ 4 ltac:(lia))).
      eapply Z.le_trans; [exact H1 | exact H2].
Qed.

(** ** Order properties of nearest rounding *)

Lemma nearest_mono (z z' : Z) (r r' : float) :
  nearest z r -> nearest z' r' -> z < z' -> V r <= V r'.
Proof.
  intros [Hr Hn] [Hr' Hn'] Hlt.
  specialize (Hn r' Hr'). specialize (Hn' r Hr). lia.
Qed.

Lemma nearest_le (z : Z) (r f : float) :
  nearest z r -> fv f -> z <= V f -> V r <= V f.
Proof. intros [Hr Hn] Hf Hle. specialize (Hn f Hf). lia. Qed.

Lemma nearest_ge (z : Z) (r f : float) :
  nearest z r -> fv f -> V f <= z -> V f <= V r.
Proof. intros [Hr Hn] Hf Hle. specialize (Hn f Hf). lia. Qed.

Lemma sqrt_nearest_mono (x x' r r' : float) :
  sqrt_nearest x r -> sqrt_nearest x' r' -> V x < V x' -> V r <= V r'.
Proof.
  intros (Hr & Hr0 & Hn) (Hr' & Hr0' & Hn') Hlt.
  destruct (Z_le_gt_dec (V r) (V r')) as [|Hgt]; [assumption|exfalso].
  destruct (Hn r' Hr' Hr0') as [_ H1]. destruct (Hn' r Hr Hr0) as [H2 _].
  specialize (H1 ltac:(lia)). specialize (H2 ltac:(lia)).
  assert (HK : 0 < 2 ^ K) by (apply pow2_pos; unfold K; lia).
  replace (V r' + V r) with (V r + V r') in H2 by ring.
  assert (4 * V x' * 2 ^ K <= 4 * V x * 2 ^ K) by lia.
  assert (V x * 2 ^ K < V x' * 2 ^ K) by (apply Z.mul_lt_mono_pos_r; assumption).
  lia.
Qed.

Lemma sqrt_nearest_ge (x r f : float) :
  sqrt_nearest x r -> fv f -> 0 <= V f ->
  V f ^ 2 <= V x * 2 ^ K -> V f <= V r.
Proof.
  intros (Hr & Hr0 & Hn) Hf Hf0 Hle.
  destruct (Z_le_gt_dec (V f) (V r)) as [|Hgt]; [assumption|exfalso].
  destruct (Hn f Hf Hf0) as [H1 _]. specialize (H1 ltac:(lia)).
  assert ((V r + V f) ^ 2 < (2 * V f) ^ 2)
    by (apply Z.pow_lt_mono_l; lia).
  replace ((2 * V f) ^ 2) with (4 * V f ^ 2) in * by ring. lia.
Qed.

Lemma V_inj (x y : float) :
  fv x -> fv y -> V x = V y -> V x <> 0 -> x = y.
Proof.
  intros Hx Hy Heq Hne.
  pose proof (SFcompare_V x y Hx Hy) as Hc.
  rewrite Heq, Z.compare_refl in Hc.
  destruct (V_zero_or_finite x Hx) as [?|(sx & mx & ex & -> & _)]; [lia|].
  destruct (V_zero_or_finite y Hy) as [?|(sy & my & ey & -> & _)]; [lia|].
  simpl in Hc.
  destruct sx, sy; try discriminate;
    destruct (Z.compare_spec ex ey) as [->|?|?]; try discriminate;
    injection Hc as Hc;
    [apply (f_equal CompOpp) in Hc; rewrite CompOpp_involutive in Hc; simpl in Hc|];
    apply Pos.compare_eq in Hc; now subst.
Qed.

(** Two finite numbers of equal value are equal, or both are zeros. *)
Lemma V_eq_cases (x y : float) :
  fv x -> fv y -> V x = V y ->
  x = y \/ (exists s s', x = S754_zero s /\ y = S754_zero s').
Proof.
  intros Hx Hy Heq.
  destruct (Z.eq_dec (V x) 0) as [H0|H0]; [|left; now apply V_inj].
  right.
  destruct x as [sx|sx| |sx mx ex]; try (destruct Hx; discriminate);
    destruct y as [sy|sy| |sy my ey]; try (destruct Hy; discriminate).
  - now exists sx, sy.
  - pose proof (V_finite_sign _ _ _ (proj1 Hy)). rewrite <- Heq, H0 in *. lia.
  - pose proof (V_finite_sign _ _ _ (proj1 Hx)). rewrite H0 in *. lia.
  - pose proof (V_finite_sign _ _ _ (proj1 Hx)). rewrite H0 in *. lia.
Qed.

Lemma ltb_V (x y : float) : fv x -> fv y -> F32.ltb x y = (V x <? V y).
Proof.
  intros Hx Hy. unfold F32.ltb, SFltb. rewrite (SFcompare_V x y Hx Hy).
  unfold Z.ltb. now destruct (V x ?= V y).
Qed.

Lemma leb_V (x y : float) : fv x -> fv y -> F32.leb x y = (V x <=? V y).
Proof.
  intros Hx Hy. unfold F32.leb, SFleb. rewrite (SFcompare_V x y Hx Hy).
  unfold Z.leb. now destruct (V x ?= V y).
Qed.

Lemma eqb_V (x y : float) : fv x -> fv y -> F32.eqb x y = (V x =? V y).
Proof.
  intros Hx Hy. unfold F32.eqb, SFeqb. rewrite (SFcompare_V x y Hx Hy).
  destruct (Z.compare_spec (V x) (V y)) as [H|H|H]; symmetry;
    [apply Z.eqb_eq | apply Z.eqb_neq | apply Z.eqb_neq]; lia.
Qed.

Lemma min_V (x y : float) :
  fv x -> fv y -> fv (F32.min x y) /\ V (F32.min x y) = Z.min (V x) (V y).
Proof.
  intros Hx Hy. unfold F32.min. rewrite (ltb_V x y Hx Hy).
  destruct (V x <? V y) eqn:E; [apply Z.ltb_lt in E | apply Z.ltb_ge in E];
    split; auto; lia.
Qed.

Lemma max_V (x y : float) :
  fv x -> fv y -> fv (F32.max x y) /\ V (F32.max x y) = Z.max (V x) (V y).
Proof.
  intros Hx Hy. unfold F32.max, F32.gtb. fold (F32.ltb y x).
  rewrite (ltb_V y x Hy Hx).
  destruct (V y <? V x) eqn:E; [apply Z.ltb_lt in E | apply Z.ltb_ge in E];
    split; auto; lia.
Qed.

Lemma neg_V (x : float) : fv x -> fv (F32.neg x) /\ V (F32.neg x) = - V x.
Proof.
  intros [Hv Hf]. destruct x as [s|s| |s m e]; try discriminate.
  - repeat split.
  - repeat split; [exact Hv|]. unfold F32.neg, SFopp, V.
    destruct s; unfold sgn; simpl negb; lia.
Qed.

(** Powers of two as binary32 numbers. *)
Definition p2f (k : Z) : float := S754_finite false 8388608 (k - 23).

Lemma p2f_V (k : Z) :
  -126 <= k <= 127 -> fv (p2f k) /\ V (p2f k) = 2 ^ (k + K).
Proof.
  intros Hk. split.
  - split; [|reflexivity]. apply valid_finite_iff.
    change (digits 8388608) with 24. lia.
  - unfold V, p2f, sgn. change (Z.pos 8388608) with (2 ^ 23).
    rewrite Z.mul_1_l, <- pow2_split by (unfold K; lia). f_equal. lia.
Qed.

Lemma mul_exact (x y : float) :
  fv x -> fv y -> exists z, z * 2 ^ K = V x * V y.
Proof.
  intros Hx Hy.
  destruct (V_zero_or_finite x Hx) as [H0|(sx & mx & ex & -> & _ & Hex & _)];
    [exists 0; rewrite H0; ring|].
  destruct (V_zero_or_finite y Hy) as [H0|(sy & my & ey & -> & _ & Hey & _)];
    [exists 0; rewrite H0; ring|].
  exists (sgn sx * Zpos mx * (sgn sy * Zpos my) * 2 ^ (ex + ey + K)).
  unfold V.
  assert (E : 2 ^ (ex + ey + K) * 2 ^ K = 2 ^ (ex + K) * 2 ^ (ey + K)).
  { rewrite <- !pow2_split by (unfold K; lia). f_equal. lia. }
  rewrite <- Z.mul_assoc, E. ring.
Qed.

(** ** Sizes along [computeSpeed] *)

(** The value of 1.0, the unit of [V]. *)
Definition U : Z := 2 ^ K.

Lemma U_pos : 0 < U.
Proof. apply pow2_pos. unfold K. lia. Qed.

Lemma p2f_U (k : Z) :
  0 <= k <= 127 -> fv (p2f k) /\ V (p2f k) = 2 ^ k * U.
Proof.
  intros Hk. destruct (p2f_V k ltac:(lia)) as [H1 H2]. split; [exact H1|].
  rewrite H2. unfold U. apply pow2_split; unfold K; lia.
Qed.

Lemma np2f_U (k : Z) :
  0 <= k <= 127 -> fv (F32.neg (p2f k)) /\ V (F32.neg (p2f k)) = - (2 ^ k * U).
Proof.
  intros Hk. destruct (p2f_U k Hk) as [H1 H2].
  destruct (neg_V _ H1) as [H3 H4]. split; [exact H3|]. now rewrite H4, H2.
Qed.

Lemma V_one : V F32.one = U.
Proof. reflexivity. Qed.

Lemma V_two : V F32.two = 2 * U.
Proof. reflexivity. Qed.

Lemma V_zero : V F32.zero = 0.
Proof. reflexivity. Qed.

Lemma V_thousand : V ABS_MAX_SPEED = 1000 * U.
Proof. reflexivity. Qed.

Lemma fv_zero0 : fv F32.zero.
Proof. split; reflexivity. Qed.

Lemma fv_one : fv F32.one.
Proof. split; reflexivity. Qed.

Lemma fv_two : fv F32.two.
Proof. split; reflexivity. Qed.

Lemma p127 : 2 ^ (127 + K) = 2 ^ 127 * U.
Proof. unfold U. apply pow2_split; unfold K; lia. Qed.

Lemma mul_nearest' (x y : float) :
  fv x -> fv y ->
  Z.abs (V x * V y) < 2 ^ 127 * U * U ->
  exists z, z * U = V x * V y /\ nearest z (F32.mul x y).
Proof.
  intros Hx Hy Hub. destruct (mul_exact x y Hx Hy) as [z Hz].
  exists z. split; [exact Hz|]. apply (mul_nearest x y z Hx Hy Hz).
  rewrite p127. pose proof U_pos. fold U in Hz. rewrite <- Hz in Hub.
  rewrite Z.abs_mul, (Z.abs_eq U) in Hub by lia.
  apply Z.mul_lt_mono_pos_r in Hub; assumption.
Qed.

(** Scaling an inequality between products down by the unit. *)
Lemma unit_le (z a b c d : Z) :
  z * U = a * b -> 0 <= a <= c * U -> 0 <= b <= d ->
  0 <= z <= c * d.
Proof.
  intros Hz Ha Hb. pose proof U_pos as HU.
  assert (0 <= a * b) by (apply Z.mul_nonneg_nonneg; lia).
  assert (a * b <= c * U * d) by (apply Z.mul_le_mono_nonneg; lia).
  split.
  - apply (Z.mul_le_mono_pos_r _ _ U HU). lia.
  - apply (Z.mul_le_mono_pos_r _ _ U HU). lia.
Qed.

Lemma of_Z_props (n : Z) :
  0 <= n < 2 ^ 31 ->
  nearest (n * U) (F32.of_Z n) /\ 0 <= V (F32.of_Z n) <= 2 ^ 31 * U.
Proof.
  intros Hn. pose proof U_pos as HU.
  assert (Hne : nearest (n * U) (F32.of_Z n)).
  { apply of_Z_nearest.
    assert (2 ^ 31 < 2 ^ 127) by (apply Z.pow_lt_mono_r; lia). lia. }
  split; [exact Hne|]. split.
  - apply (nearest_ge _ _ (S754_zero false) Hne (fv_zero false)).
    change (V (S754_zero false)) with 0. apply Z.mul_nonneg_nonneg; lia.
  - destruct (p2f_U 31 ltac:(lia)) as [Hf HV]. rewrite <- HV.
    apply (nearest_le _ _ _ Hne Hf). rewrite HV.
    apply Z.mul_le_mono_nonneg_r; lia.
Qed.

Lemma of_Z_mono (n m : Z) :
  0 <= n -> n <= m -> m < 2 ^ 31 -> V (F32.of_Z n) <= V (F32.of_Z m).
Proof.
  intros Hn Hnm Hm. destruct (Z.eq_dec n m) as [->|Hne]; [lia|].
  destruct (of_Z_props n ltac:(lia)) as [H1 _].
  destruct (of_Z_props m ltac:(lia)) as [H2 _].
  apply (nearest_mono _ _ _ _ H1 H2).
  apply Z.mul_lt_mono_pos_r; [apply U_pos | lia].
Qed.

(** Multiplication by a fixed factor keeps or reverses the order. *)
Lemma mul_mono_r (A x x' : float) :
  fv A -> fv x -> fv x' ->
  Z.abs (V A * V x) < 2 ^ 127 * U * U ->
  Z.abs (V A * V x') < 2 ^ 127 * U * U ->
  V x <= V x' ->
  (0 <= V A -> V (F32.mul A x) <= V (F32.mul A x'))
  /\ (V A <= 0 -> V (F32.mul A x') <= V (F32.mul A x)).
Proof.
  intros HA Hx Hx' Hb Hb' Hle. pose proof U_pos as HU.
  destruct (Z.eq_dec (V x) (V x')) as [Heq|Hne].
  { destruct (V_eq_cases x x' Hx Hx' Heq) as [->|(s & s' & -> & ->)]; [lia|].
    destruct A as [sa|sa| |sa ma ea]; try (destruct HA; discriminate);
      simpl; lia. }
  destruct (mul_nearest' A x HA Hx Hb) as (z & Hz & Hn).
  destruct (mul_nearest' A x' HA Hx' Hb') as (z' & Hz' & Hn').
  split; intros HA0.
  - destruct (Z.eq_dec (V A) 0) as [H0|H0].
    + destruct A as [sa|sa| |sa ma ea]; try (destruct HA; discriminate).
      * destruct x as [?|?| |? ? ?], x' as [?|?| |? ? ?];
          try (destruct Hx; discriminate); try (destruct Hx'; discriminate);
          simpl; lia.
      * pose proof (V_finite_sign _ _ _ (proj1 HA)). rewrite H0 in *. lia.
    + apply (nearest_mono _ _ _ _ Hn Hn').
      apply (Z.mul_lt_mono_pos_r U); [exact HU|]. rewrite Hz, Hz'.
      apply Z.mul_lt_mono_pos_l; lia.
  - destruct (Z.eq_dec (V A) 0) as [H0|H0].
    + destruct A as [sa|sa| |sa ma ea]; try (destruct HA; discriminate).
      * destruct x as [?|?| |? ? ?], x' as [?|?| |? ? ?];
          try (destruct Hx; discriminate); try (destruct Hx'; discriminate);
          simpl; lia.
      * pose proof (V_finite_sign _ _ _ (proj1 HA)). rewrite H0 in *. lia.
    + apply (nearest_mono _ _ _ _ Hn' Hn).
      apply (Z.mul_lt_mono_pos_r U); [exact HU|]. rewrite Hz, Hz'.
      apply Z.mul_lt_mono_neg_l; lia.
Qed.

Lemma add_mono_r (A y y' : float) :
  fv A -> fv y -> fv y' ->
  Z.abs (V A + V y) < 2 ^ 127 * U ->
  Z.abs (V A + V y') < 2 ^ 127 * U ->
  V y <= V y' ->
  V (F32.add A y) <= V (F32.add A y').
Proof.
  intros HA Hy Hy' Hb Hb' Hle.
  destruct (Z.eq_dec (V y) (V y')) as [Heq|Hne].
  { destruct (V_eq_cases y y' Hy Hy' Heq) as [->|(s & s' & -> & ->)]; [lia|].
    destruct A as [sa|sa| |sa ma ea]; try (destruct HA; discriminate).
    - destruct sa, s, s'; simpl; lia.
    - simpl. lia. }
  rewrite <- p127 in Hb, Hb'.
  apply (nearest_mono _ _ _ _ (add_nearest A y HA Hy Hb) (add_nearest A y' HA Hy' Hb')).
  lia.
Qed.

Lemma sqrt_zero (x : float) :
  fv x -> V x = 0 -> fv (F32.sqrt x) /\ V (F32.sqrt x) = 0.
Proof.
  intros Hx H0.
  destruct x as [s|s| |s m e]; try (destruct Hx; discriminate).
  - split; [exact Hx | reflexivity].
  - pose proof (V_finite_sign _ _ _ (proj1 Hx)). rewrite H0 in *. lia.
Qed.

Lemma sqrt_props (x : float) :
  fv x -> 0 <= V x -> fv (F32.sqrt x) /\ 0 <= V (F32.sqrt x).
Proof.
  intros Hx H0. destruct (Z.eq_dec (V x) 0) as [Hz|Hz].
  - destruct (sqrt_zero x Hx Hz) as [H1 H2]. split; [exact H1 | lia].
  - destruct (sqrt_spec x Hx ltac:(lia)) as (H1 & H2 & _). now split.
Qed.

Lemma sqrt_mono (x x' : float) :
  fv x -> fv x' -> 0 <= V x -> V x <= V x' ->
  V (F32.sqrt x) <= V (F32.sqrt x').
Proof.
  intros Hx Hx' H0 Hle.
  destruct (Z.eq_dec (V x) 0) as [Hz|Hz].
  { destruct (sqrt_zero x Hx Hz) as [_ ->].
    apply (sqrt_props x' Hx'). lia. }
  destruct (Z.eq_dec (V x) (V x')) as [Heq|Hne].
  { destruct (V_eq_cases x x' Hx Hx' Heq) as [->|(s & s' & -> & ->)]; [lia|].
    simpl in Hz. lia. }
  apply (sqrt_nearest_mono x x'); [apply sqrt_spec | apply sqrt_spec |]; auto; lia.
Qed.

Lemma big127 : 2 ^ 44 <= 2 ^ 127.
Proof. apply Z.pow_le_mono_r; lia. Qed.

(** The doubled acceleration [2.0f * g_accel]. *)
Lemma accel2_props (a : float) :
  fv a -> Z.abs (V a) <= 1000 * U ->
  fv (F32.mul F32.two a)
  /\ Z.abs (V (F32.mul F32.two a)) <= 2048 * U
  /\ (0 < V a -> 0 < V (F32.mul F32.two a))
  /\ (V a < 0 -> V (F32.mul F32.two a) < 0).
Proof.
  intros Ha Hb. pose proof U_pos as HU. pose proof big127 as H127.
  change (2 ^ 44) with 17592186044416 in H127.
  assert (HUU : 0 < U * U) by (apply Z.mul_pos_pos; lia).
  destruct (mul_nearest' F32.two a fv_two Ha) as (z & Hz & Hn).
  { rewrite V_two, Z.abs_mul, Z.abs_eq by lia.
    apply Z.le_lt_trans with (2 * U * (1000 * U)).
    - apply Z.mul_le_mono_nonneg_l; lia.
    - replace (2 * U * (1000 * U)) with (2000 * (U * U)) by ring.
      replace (2 ^ 127 * U * U) with (2 ^ 127 * (U * U)) by ring.
      apply Z.mul_lt_mono_pos_r; lia. }
  assert (Hz2 : z = 2 * V a).
  { apply (Z.mul_cancel_r _ _ U); [lia|]. rewrite Hz, V_two. ring. }
  subst z.
  destruct (p2f_U 11 ltac:(lia)) as [Hp HpV].
  destruct (np2f_U 11 ltac:(lia)) as [Hq HqV].
  change (2 ^ 11) with 2048 in *.
  pose proof (nearest_le _ _ _ Hn Hp) as Hup.
  pose proof (nearest_ge _ _ _ Hn Hq) as Hlo.
  pose proof (nearest_ge _ _ _ Hn Ha) as Hpos.
  pose proof (nearest_le _ _ _ Hn Ha) as Hneg.
  split; [exact (proj1 Hn)|]. repeat split; lia.
Qed.

(** The term [2.0f * g_accel * (float)steps_done]. *)
Lemma term_bound (A n : float) :
  fv A -> Z.abs (V A) <= 2048 * U ->
  fv n -> 0 <= V n <= 2 ^ 31 * U ->
  Z.abs (V A * V n) < 2 ^ 127 * U * U.
Proof.
  intros HA HAb Hn Hnb. pose proof U_pos as HU. pose proof big127 as H127.
  change (2 ^ 44) with 17592186044416 in H127.
  change (2 ^ 31) with 2147483648 in *.
  assert (HUU : 0 < U * U) by (apply Z.mul_pos_pos; lia).
  rewrite Z.abs_mul, (Z.abs_eq (V n)) by lia.
  apply Z.le_lt_trans with (2048 * U * (2147483648 * U)).
  - apply Z.mul_le_mono_nonneg; lia.
  - replace (2048 * U * (2147483648 * U)) with (4398046511104 * (U * U)) by ring.
    replace (2 ^ 127 * U * U) with (2 ^ 127 * (U * U)) by ring.
    apply Z.mul_lt_mono_pos_r; lia.
Qed.

Lemma term_props (A n : float) :
  fv A -> Z.abs (V A) <= 2048 * U ->
  fv n -> 0 <= V n <= 2 ^ 31 * U ->
  fv (F32.mul A n)
  /\ Z.abs (V (F32.mul A n)) <= 2 ^ 42 * U
  /\ (0 <= V A -> 0 <= V (F32.mul A n))
  /\ (V A <= 0 -> V (F32.mul A n) <= 0).
Proof.
  intros HA HAb Hn Hnb. pose proof U_pos as HU.
  destruct (mul_nearest' A n HA Hn (term_bound A n HA HAb Hn Hnb)) as (z & Hz & Hne).
  destruct (p2f_U 42 ltac:(lia)) as [Hp HpV].
  destruct (np2f_U 42 ltac:(lia)) as [Hq HqV].
  change (2 ^ 42) with 4398046511104 in *. change (2 ^ 31) with 2147483648 in *.
  pose proof (nearest_le _ _ _ Hne Hp) as Hup.
  pose proof (nearest_ge _ _ _ Hne Hq) as Hlo.
  pose proof (nearest_ge _ _ _ Hne (fv_zero false)) as Hpos.
  pose proof (nearest_le _ _ _ Hne (fv_zero false)) as Hneg.
  change (V (S754_zero false)) with 0 in *.
  split; [exact (proj1 Hne)|].
  destruct (Z_le_gt_dec 0 (V A)) as [HA0|HA0].
  - destruct (unit_le z (V A) (V n) 2048 (2147483648 * U) Hz ltac:(lia) ltac:(lia)).
    repeat split; lia.
  - destruct (unit_le (- z) (- V A) (V n) 2048 (2147483648 * U)
                ltac:(rewrite Z.mul_opp_l, Hz; ring) ltac:(lia) ltac:(lia)).
    repeat split; lia.
Qed.

(** The square [g_start_speed * g_start_speed]. *)
Lemma square_props (S : float) :
  fv S -> U <= V S <= 1000 * U ->
  fv (F32.mul S S) /\ U <= V (F32.mul S S) <= 2 ^ 20 * U.
Proof.
  intros HS Hb. pose proof U_pos as HU. pose proof big127 as H127.
  change (2 ^ 44) with 17592186044416 in H127.
  assert (HUU : 0 < U * U) by (apply Z.mul_pos_pos; lia).
  destruct (mul_nearest' S S HS HS) as (z & Hz & Hn).
  { rewrite Z.abs_eq by (apply Z.mul_nonneg_nonneg; lia).
    apply Z.le_lt_trans with (1000 * U * (1000 * U)).
    - apply Z.mul_le_mono_nonneg; lia.
    - replace (1000 * U * (1000 * U)) with (1000000 * (U * U)) by ring.
      replace (2 ^ 127 * U * U) with (2 ^ 127 * (U * U)) by ring.
      apply Z.mul_lt_mono_pos_r; lia. }
  destruct (unit_le z (V S) (V S) 1000 (1000 * U) Hz ltac:(lia) ltac:(lia)) as [_ Hzu].
  assert (Hzl : U <= z).
  { apply (Z.mul_le_mono_pos_r _ _ U HU). rewrite Hz.
    apply Z.mul_le_mono_nonneg; lia. }
  destruct (p2f_U 20 ltac:(lia)) as [Hp HpV].
  change (2 ^ 20) with 1048576 in *.
  pose proof (nearest_le _ _ _ Hn Hp) as Hup.
  pose proof (nearest_ge _ _ _ Hn fv_one) as Hlo. rewrite V_one in Hlo.
  split; [exact (proj1 Hn)|]. lia.
Qed.

(** The radicand of [computeSpeed], before it is floored at zero. *)
Definition radicand (S a : float) (steps_done : Z) : float :=
  F32.add (F32.mul S S)
    (F32.mul (F32.mul F32.two a) (F32.of_Z steps_done)).

Definition in_range (S : float) : Prop := fv S /\ U <= V S <= 1000 * U.

Definition accel_in_range (a : float) : Prop := fv a /\ Z.abs (V a) <= 1000 * U.

Lemma radicand_bound (S2 t : float) :
  U <= V S2 <= 2 ^ 20 * U -> Z.abs (V t) <= 2 ^ 42 * U ->
  Z.abs (V S2 + V t) < 2 ^ 127 * U.
Proof.
  intros H1 H2. pose proof U_pos as HU. pose proof big127 as H127.
  change (2 ^ 44) with 17592186044416 in H127.
  change (2 ^ 42) with 4398046511104 in *. change (2 ^ 20) with 1048576 in *.
  apply Z.le_lt_trans with (8796093022208 * U); [lia|].
  apply Z.mul_lt_mono_pos_r; lia.
Qed.

Lemma radicand_props (S a : float) (n : Z) :
  in_range S -> accel_in_range a -> 0 <= n < 2 ^ 31 ->
  fv (radicand S a n)
  /\ (0 < V a -> V (F32.mul S S) <= V (radicand S a n))
  /\ (V a < 0 -> V (radicand S a n) <= V (F32.mul S S)).
Proof.
  intros [HS HSb] [Ha Hab] Hn. unfold radicand.
  destruct (accel2_props a Ha Hab) as (HA & HAb & HAp & HAn).
  destruct (of_Z_props n Hn) as [Hfn Hfb].
  destruct (term_props _ _ HA HAb (proj1 Hfn) Hfb) as (Ht & Htb & Htp & Htn).
  destruct (square_props S HS HSb) as [HS2 HS2b].
  pose proof (radicand_bound _ _ HS2b Htb) as Hb. rewrite <- p127 in Hb.
  pose proof (add_nearest _ _ HS2 Ht Hb) as Hne.
  split; [exact (proj1 Hne)|]. split; intros Hs.
  - apply (nearest_ge _ _ _ Hne HS2). specialize (HAp Hs). lia.
  - apply (nearest_le _ _ _ Hne HS2). specialize (HAn Hs). lia.
Qed.

Lemma radicand_mono (S a : float) (n m : Z) :
  in_range S -> accel_in_range a -> 0 <= n -> n <= m -> m < 2 ^ 31 ->
  (0 < V a -> V (radicand S a n) <= V (radicand S a m))
  /\ (V a < 0 -> V (radicand S a m) <= V (radicand S a n)).
Proof.
  intros [HS HSb] [Ha Hab] Hn Hnm Hm. unfold radicand.
  destruct (accel2_props a Ha Hab) as (HA & HAb & HAp & HAn).
  destruct (of_Z_props n ltac:(lia)) as [Hfn Hfnb].
  destruct (of_Z_props m ltac:(lia)) as [Hfm Hfmb].
  pose proof (of_Z_mono n m Hn Hnm Hm) as Hmono.
  destruct (term_props _ _ HA HAb (proj1 Hfn) Hfnb) as (Htn & Htnb & _).
  destruct (term_props _ _ HA HAb (proj1 Hfm) Hfmb) as (Htm & Htmb & _).
  destruct (square_props S HS HSb) as [HS2 HS2b].
  destruct (mul_mono_r _ _ _ HA (proj1 Hfn) (proj1 Hfm)
              (term_bound _ _ HA HAb (proj1 Hfn) Hfnb)
              (term_bound _ _ HA HAb (proj1 Hfm) Hfmb) Hmono) as [Hup Hdn].
  split; intros Hs.
  - apply add_mono_r; auto using radicand_bound.
    apply Hup. specialize (HAp Hs). lia.
  - apply add_mono_r; auto using radicand_bound.
    apply Hdn. specialize (HAn Hs). lia.
Qed.

(** The floor at zero, [if (v2 < 0.0f) v2 = 0.0f]. *)
Definition floored (x : float) : float :=
  if F32.ltb x F32.zero then F32.zero else x.

Lemma floored_V (x : float) :
  fv x -> fv (floored x) /\ V (floored x) = Z.max (V x) 0.
Proof.
  intros Hx. unfold floored. rewrite (ltb_V x F32.zero Hx (fv_zero false)), V_zero.
  destruct (V x <? 0) eqn:E; [apply Z.ltb_lt in E | apply Z.ltb_ge in E].
  - split; [apply fv_zero | rewrite V_zero; lia].
  - split; [exact Hx | lia].
Qed.

(** The square root taken by [computeSpeed]. *)
Definition root (S a : float) (steps_done : Z) : float :=
  F32.sqrt (floored (radicand S a steps_done)).

Lemma root_props (S a : float) (n : Z) :
  in_range S -> accel_in_range a -> 0 <= n < 2 ^ 31 ->
  fv (root S a n) /\ 0 <= V (root S a n).
Proof.
  intros HS Ha Hn. destruct (radicand_props S a n HS Ha Hn) as [Hr _].
  destruct (floored_V _ Hr) as [Hf HfV].
  apply sqrt_props; [exact Hf | lia].
Qed.

Lemma root_mono (S a : float) (n m : Z) :
  in_range S -> accel_in_range a -> 0 <= n -> n <= m -> m < 2 ^ 31 ->
  (0 < V a -> V (root S a n) <= V (root S a m))
  /\ (V a < 0 -> V (root S a m) <= V (root S a n)).
Proof.
  intros HS Ha Hn Hnm Hm.
  destruct (radicand_props S a n HS Ha ltac:(lia)) as [Hrn _].
  destruct (radicand_props S a m HS Ha ltac:(lia)) as [Hrm _].
  destruct (floored_V _ Hrn) as [Hfn HfnV].
  destruct (floored_V _ Hrm) as [Hfm HfmV].
  destruct (radicand_mono S a n m HS Ha Hn Hnm Hm) as [Hup Hdn].
  unfold root.
  split; intros Hs; apply sqrt_mono; auto; lia.
Qed.

(** [computeSpeed], with its radicand and square root named. *)
Lemma computeSpeed_eq (fw : Firmware) (n : Z) :
  computeSpeed fw n
  = if F32.eqb (g_accel fw) F32.zero
       || F32.eqb (g_start_speed fw) (g_end_speed fw)
    then g_start_speed fw
    else F32.max
           (if F32.gtb (g_accel fw) F32.zero
            then F32.min (root (g_start_speed fw) (g_accel fw) n) (g_end_speed fw)
            else F32.max (root (g_start_speed fw) (g_accel fw) n) (g_end_speed fw))
           F32.one.
Proof. reflexivity. Qed.

(** The value of [computeSpeed] in terms of the value of its square root. *)
Lemma computeSpeed_V (fw : Firmware) (n : Z) :
  in_range (g_start_speed fw) -> in_range (g_end_speed fw) ->
  accel_in_range (g_accel fw) -> 0 <= n < 2 ^ 31 ->
  fv (computeSpeed fw n)
  /\ V (computeSpeed fw n)
     = if (V (g_accel fw) =? 0) || (V (g_start_speed fw) =? V (g_end_speed fw))
       then V (g_start_speed fw)
       else Z.max
              (if 0 <? V (g_accel fw)
               then Z.min (V (root (g_start_speed fw) (g_accel fw) n))
                      (V (g_end_speed fw))
               else Z.max (V (root (g_start_speed fw) (g_accel fw) n))
                      (V (g_end_speed fw)))
              U.
Proof.
  intros HS HE Ha Hn. rewrite computeSpeed_eq.
  destruct (root_props _ _ n HS Ha Hn) as [Hr Hr0].
  destruct HS as [HS HSb], HE as [HE HEb], Ha as [Ha Hab].
  rewrite (eqb_V _ F32.zero Ha fv_zero0), (eqb_V _ _ HS HE), V_zero.
  destruct ((V (g_accel fw) =? 0) || (V (g_start_speed fw) =? V (g_end_speed fw)));
    [split; [exact HS | reflexivity]|].
  unfold F32.gtb. fold (F32.ltb F32.zero (g_accel fw)).
  rewrite (ltb_V F32.zero _ fv_zero0 Ha), V_zero.
  destruct (0 <? V (g_accel fw)).
  - destruct (min_V _ _ Hr HE) as [H1 H2].
    destruct (max_V _ _ H1 fv_one) as [H3 H4].
    split; [exact H3|]. now rewrite H4, H2, V_one.
  - destruct (max_V _ _ Hr HE) as [H1 H2].
    destruct (max_V _ _ H1 fv_one) as [H3 H4].
    split; [exact H3|]. now rewrite H4, H2, V_one.
Qed.

(** ** Steps accepted by the console *)

(** The range checks of [promptFloat] in [promptStep], on well-formed
    binary32 numbers. *)
Definition acceptedSpeed (v : float) : bool :=
  F32.valid v && F32.geb v F32.one && F32.leb v ABS_MAX_SPEED.

Definition acceptedAccel (a : float) : bool :=
  F32.valid a && F32.geb a (F32.neg ABS_MAX_ACCEL) && F32.leb a ABS_MAX_ACCEL.

Definition acceptedStep (st : Step) : bool :=
  acceptedSpeed (start_speed st) && acceptedSpeed (end_speed st)
  && acceptedAccel (accel st).

Lemma range_fv (v lo hi : float) :
  F32.valid v = true -> F32.geb v lo = true -> F32.leb v hi = true ->
  fv lo -> fv hi -> fv v.
Proof.
  intros Hv Hlo Hhi [_ Hl] [_ Hh]. split; [exact Hv|].
  destruct v as [s|[]| |s m e]; try reflexivity.
  - destruct lo as [?|?| |[] ? ?]; simpl in Hl, Hlo; discriminate.
  - destruct hi as [?|?| |[] ? ?]; simpl in Hh, Hhi; discriminate.
  - destruct lo as [?|?| |[] ? ?]; simpl in Hl, Hlo; discriminate.
Qed.

Lemma fv_thousand : fv ABS_MAX_SPEED.
Proof. split; reflexivity. Qed.

Lemma acceptedSpeed_range (v : float) :
  acceptedSpeed v = true -> in_range v /\ F32.max F32.one v = v.
Proof.
  unfold acceptedSpeed. rewrite !andb_true_iff. intros [[Hv Hlo] Hhi].
  assert (Hf : fv v) by (apply (range_fv v F32.one ABS_MAX_SPEED); auto using fv_one, fv_thousand).
  unfold F32.geb in Hlo. fold (F32.leb F32.one v) in Hlo.
  split; [|now apply max_one_id].
  rewrite (leb_V _ _ fv_one Hf), V_one in Hlo.
  rewrite (leb_V _ _ Hf fv_thousand), V_thousand in Hhi.
  apply Z.leb_le in Hlo, Hhi. split; [exact Hf | lia].
Qed.

Lemma acceptedAccel_range (a : float) :
  acceptedAccel a = true -> accel_in_range a.
Proof.
  unfold acceptedAccel. rewrite !andb_true_iff. intros [[Hv Hlo] Hhi].
  destruct (neg_V _ fv_thousand) as [Hn HnV].
  assert (Hf : fv a) by (apply (range_fv a (F32.neg ABS_MAX_ACCEL) ABS_MAX_ACCEL); auto using fv_thousand).
  change ABS_MAX_ACCEL with ABS_MAX_SPEED in *.
  unfold F32.geb in Hlo. fold (F32.leb (F32.neg ABS_MAX_SPEED) a) in Hlo.
  rewrite (leb_V _ _ Hn Hf) in Hlo. rewrite (leb_V _ _ Hf fv_thousand) in Hhi.
  rewrite HnV, V_thousand in *.
  apply Z.leb_le in Hlo, Hhi. split; [exact Hf | lia].
Qed.

Lemma accepted_globals (st : Step) (fw : Firmware) :
  acceptedStep st = true ->
  g_start_speed (startStep st fw) = start_speed st
  /\ g_end_speed (startStep st fw) = end_speed st
  /\ g_accel (startStep st fw) = accel st
  /\ in_range (start_speed st) /\ in_range (end_speed st)
  /\ accel_in_range (accel st).
Proof.
  unfold acceptedStep. rewrite !andb_true_iff. intros [[Hs He] Ha].
  destruct (acceptedSpeed_range _ Hs) as [Hsr Hsm].
  destruct (acceptedSpeed_range _ He) as [Her Hem].
  pose proof (acceptedAccel_range _ Ha) as Har.
  simpl. rewrite Hsm, Hem. repeat split; try apply Hsr; try apply Her; apply Har.
Qed.

(** C3. For a step the console accepts and step counts [n <= m]: with a
    positive acceleration the speed at [n] is at most the speed at [m] and
    no speed exceeds [end_speed]; with a negative acceleration the speed at
    [m] is at most the speed at [n] and no speed is under
    [max(end_speed, 1)]. *)
Theorem speed_profile_monotone (st : Step) (fw : Firmware) (n m : Z) :
  acceptedStep st = true ->
  0 <= n -> n <= m -> m < 2 ^ 31 ->
  (F32.gtb (accel st) F32.zero = true ->
   F32.leb (computeSpeed (startStep st fw) n)
     (computeSpeed (startStep st fw) m) = true
   /\ F32.leb (computeSpeed (startStep st fw) n) (end_speed st) = true
   /\ F32.leb (computeSpeed (startStep st fw) m) (end_speed st) = true)
  /\ (F32.ltb (accel st) F32.zero = true ->
      F32.leb (computeSpeed (startStep st fw) m)
        (computeSpeed (startStep st fw) n) = true
      /\ F32.leb (F32.max (end_speed st) F32.one)
           (computeSpeed (startStep st fw) n) = true
      /\ F32.leb (F32.max (end_speed st) F32.one)
           (computeSpeed (startStep st fw) m) = true).
Proof.
  intros Hacc Hn Hnm Hm.
  destruct (accepted_globals st fw Hacc) as (Gs & Ge & Ga & HS & HE & Ha).
  set (mv := startStep st fw) in *.
  assert (HS' : in_range (g_start_speed mv)) by (rewrite Gs; exact HS).
  assert (HE' : in_range (g_end_speed mv)) by (rewrite Ge; exact HE).
  assert (Ha' : accel_in_range (g_accel mv)) by (rewrite Ga; exact Ha).
  destruct (computeSpeed_V mv n HS' HE' Ha' ltac:(lia)) as [Hfn HVn].
  destruct (computeSpeed_V mv m HS' HE' Ha' ltac:(lia)) as [Hfm HVm].
  destruct (root_mono _ _ n m HS' Ha' Hn Hnm Hm) as [Hup Hdn].
  rewrite Gs, Ge, Ga in *.
  destruct HS as [HSf HSb], HE as [HEf HEb], Ha as [Haf Hab].
  destruct (max_V _ _ HEf fv_one) as [Hmx HmxV]. rewrite V_one in HmxV.
  pose proof U_pos as HU.
  split; intros Hsign.
  - unfold F32.gtb in Hsign. fold (F32.ltb F32.zero (accel st)) in Hsign.
    rewrite (ltb_V F32.zero _ fv_zero0 Haf), V_zero in Hsign.
    pose proof Hsign as Hpos. apply Z.ltb_lt in Hpos. specialize (Hup Hpos).
    rewrite Hsign in HVn, HVm.
    replace (V (accel st) =? 0) with false in * by (symmetry; apply Z.eqb_neq; lia).
    rewrite !leb_V by assumption. rewrite !Z.leb_le.
    destruct (V (start_speed st) =? V (end_speed st)) eqn:Eq;
      [apply Z.eqb_eq in Eq | apply Z.eqb_neq in Eq]; simpl in HVn, HVm; lia.
  - rewrite (ltb_V _ F32.zero Haf fv_zero0), V_zero in Hsign.
    pose proof Hsign as Hneg. apply Z.ltb_lt in Hneg. specialize (Hdn Hneg).
    replace (0 <? V (accel st)) with false in * by (symmetry; apply Z.ltb_ge; lia).
    replace (V (accel st) =? 0) with false in * by (symmetry; apply Z.eqb_neq; lia).
    rewrite !leb_V by assumption. rewrite !Z.leb_le, HmxV.
    destruct (V (start_speed st) =? V (end_speed st)) eqn:Eq;
      [apply Z.eqb_eq in Eq | apply Z.eqb_neq in Eq]; simpl in HVn, HVm; lia.
Qed.

(** ** A start speed above the end speed, accelerating *)

(** The next number above a positive [x] is one unit in the last place
    away. *)
Lemma spacing (mx my : positive) (ex ey : Z) :
  fv (S754_finite false mx ex) -> fv (S754_finite false my ey) ->
  V (S754_finite false mx ex) < V (S754_finite false my ey) ->
  V (S754_finite false mx ex) + 2 ^ (ex + K) <= V (S754_finite false my ey).
Proof.
  intros Hx Hy Hlt.
  pose proof (proj1 (valid_finite_iff _ _ _) (proj1 Hx)) as (Hdx & Hex & Hnx).
  pose proof (proj1 (valid_finite_iff _ _ _) (proj1 Hy)) as (Hdy & Hey & Hny).
  unfold V, sgn in *. rewrite !Z.mul_1_l in *.
  assert (HPx : 0 < 2 ^ (ex + K)) by (apply pow2_pos; unfold K; lia).
  destruct (Z.lt_trichotomy ex ey) as [H|[H|H]].
  - destruct (digits_bounds mx) as [_ Hux].
    destruct (digits_bounds my) as [Hly _]. rewrite (Hny ltac:(lia)) in Hly.
    change (24 - 1) with 23 in Hly.
    assert (Zpos mx < 2 ^ 24).
    { eapply Z.lt_le_trans; [exact Hux|]. apply Z.pow_le_mono_r; lia. }
    assert (H2 : 2 * 2 ^ (ex + K) <= 2 ^ (ey + K)).
    { rewrite <- Z.pow_succ_r by (unfold K; lia). apply Z.pow_le_mono_r; lia. }
    change (2 ^ 24) with 16777216 in *. change (2 ^ 23) with 8388608 in *.
    apply Z.le_trans with (16777216 * 2 ^ (ex + K)).
    + replace (Zpos mx * 2 ^ (ex + K) + 2 ^ (ex + K))
        with ((Zpos mx + 1) * 2 ^ (ex + K)) by ring.
      apply Z.mul_le_mono_nonneg_r; lia.
    + apply Z.le_trans with (8388608 * 2 ^ (ey + K)); [lia|].
      apply Z.mul_le_mono_nonneg_r; [apply Z.pow_nonneg|]; lia.
  - subst ey. apply Z.mul_lt_mono_pos_r in Hlt; [|exact HPx].
    replace (Zpos mx * 2 ^ (ex + K) + 2 ^ (ex + K))
      with ((Zpos mx + 1) * 2 ^ (ex + K)) by ring.
    apply Z.mul_le_mono_nonneg_r; lia.
  - pose proof (mag_lt my mx ey ex Hdy ltac:(lia) H (Hnx ltac:(lia))). lia.
Qed.

(** A mantissa of 23 to 25 bits at a middling exponent is a binary32
    number. *)
Lemma mantissa_float (G e : Z) :
  2 ^ 22 <= G <= 2 ^ 24 -> -100 <= e <= 100 ->
  exists g, fv g /\ V g = G * 2 ^ (e + K).
Proof.
  intros HG He.
  change (2 ^ 22) with 4194304 in HG. change (2 ^ 24) with 16777216 in HG.
  destruct (Z_lt_le_dec G 8388608) as [H1|H1];
    [|destruct (Z.eq_dec G 16777216) as [H2|H2]].
  - exists (S754_finite false (Z.to_pos (2 * G)) (e - 1)). split.
    + split; [|reflexivity]. apply valid_finite_iff.
      assert (digits (Z.to_pos (2 * G)) = 24).
      { apply digits_unique. rewrite Z2Pos.id by lia.
        change (2 ^ (24 - 1)) with 8388608. change (2 ^ 24) with 16777216. lia. }
      lia.
    + unfold V, sgn. rewrite Z2Pos.id, Z.mul_1_l by lia.
      replace (e + K) with (Z.succ (e - 1 + K)) by lia.
      rewrite Z.pow_succ_r by (unfold K; lia). ring.
  - subst G. destruct (p2f_V (e + 24) ltac:(lia)) as [Hf HV].
    exists (p2f (e + 24)). split; [exact Hf|]. rewrite HV.
    replace (e + 24 + K) with (24 + (e + K)) by lia.
    rewrite pow2_split by (unfold K; lia). reflexivity.
  - exists (S754_finite false (Z.to_pos G) e). split.
    + split; [|reflexivity]. apply valid_finite_iff.
      assert (digits (Z.to_pos G) = 24).
      { apply digits_unique. rewrite Z2Pos.id by lia.
        change (2 ^ (24 - 1)) with 8388608. change (2 ^ 24) with 16777216. lia. }
      lia.
    + unfold V, sgn. rewrite Z2Pos.id by lia. ring.
Qed.

(** Between the squares of two distinct speeds in range lies a binary32
    number. *)
Lemma square_separation (E S : float) :
  in_range E -> in_range S -> V E < V S ->
  exists g, fv g /\ V E ^ 2 <= V g * U /\ V g * U <= V S ^ 2.
Proof.
  intros [HE HEb] [HS HSb] Hlt. pose proof U_pos as HU.
  destruct (V_zero_or_finite E HE) as [?|(sE & mE & eE & -> & HdE & HeE & HnE)]; [lia|].
  destruct (V_zero_or_finite S HS) as [?|(sS & mS & eS & -> & HdS & HeS & HnS)]; [lia|].
  assert (sE = false).
  { destruct sE; [|reflexivity]. pose proof (V_finite_sign _ _ _ (proj1 HE)).
    unfold sgn in *. lia. }
  assert (sS = false).
  { destruct sS; [|reflexivity]. pose proof (V_finite_sign _ _ _ (proj1 HS)).
    unfold sgn in *. lia. }
  subst sE sS.
  pose proof (spacing mE mS eE eS HE HS Hlt) as Hsp.
  assert (HVE : V (S754_finite false mE eE) = Zpos mE * 2 ^ (eE + K))
    by (unfold V, sgn; ring).
  rewrite HVE in *. clear HVE.
  set (VS := V (S754_finite false mS eS)) in *.
  destruct (digits_bounds mE) as [HlE HuE].
  (* the exponent of [E] *)
  assert (HeE' : -23 <= eE <= -14).
  { assert (Hm : Zpos mE < 2 ^ 24).
    { eapply Z.lt_le_trans; [exact HuE|]. apply Z.pow_le_mono_r; lia. }
    split.
    - destruct (Z_le_gt_dec (-23) eE) as [|Hc]; [assumption|exfalso].
      assert (2 ^ 24 * 2 ^ (eE + K) <= U).
      { unfold U. rewrite <- pow2_split by (unfold K; lia).
        apply Z.pow_le_mono_r; unfold K; lia. }
      assert (0 < 2 ^ (eE + K)) by (apply pow2_pos; unfold K; lia).
      apply (Z.mul_lt_mono_pos_r (2 ^ (eE + K))) in Hm; lia.
    - destruct (Z_le_gt_dec eE (-14)) as [|Hc]; [assumption|exfalso].
      rewrite (HnE ltac:(lia)) in HlE. change (2 ^ (24 - 1)) with (2 ^ 23) in HlE.
      assert (2 ^ 10 * U <= 2 ^ 23 * 2 ^ (eE + K)).
      { unfold U. rewrite <- !pow2_split by (unfold K; lia).
        apply Z.pow_le_mono_r; unfold K; lia. }
      assert (0 <= 2 ^ (eE + K)) by (apply Z.pow_nonneg; lia).
      apply (Z.mul_le_mono_nonneg_r _ _ (2 ^ (eE + K))) in HlE; [|assumption].
      change (2 ^ 10) with 1024 in *. lia. }
  rewrite (HnE ltac:(lia)) in HlE, HuE.
  change (2 ^ (24 - 1)) with 8388608 in HlE. change (2 ^ 24) with 16777216 in HuE.
  set (m := Zpos mE) in *.
  set (G := (m * m + 16777215) / 16777216).
  assert (HG : m * m <= G * 16777216 < m * m + 16777216).
  { unfold G. pose proof (Z.div_mod (m * m + 16777215) 16777216 ltac:(lia)).
    pose proof (Z.mod_pos_bound (m * m + 16777215) 16777216 ltac:(lia)). lia. }
  assert (HGr : 2 ^ 22 <= G <= 2 ^ 24).
  { change (2 ^ 22) with 4194304. change (2 ^ 24) with 16777216. nia. }
  destruct (mantissa_float G (2 * eE + 24) HGr ltac:(lia)) as (g & Hg & HgV).
  exists g. split; [exact Hg|].
  set (P := 2 ^ (eE + K)) in *.
  assert (HP : 0 < P) by (apply pow2_pos; unfold K; lia).
  assert (HgU : V g * U = G * 16777216 * (P * P)).
  { rewrite HgV. unfold U, P. change 16777216 with (2 ^ 24).
    rewrite <- !Z.mul_assoc. f_equal.
    rewrite <- !pow2_split by (unfold K; lia). f_equal. lia. }
  rewrite HgU.
  assert (HPP : 0 <= P * P) by (apply Z.mul_nonneg_nonneg; lia).
  split.
  - replace ((m * P) ^ 2) with (m * m * (P * P)) by ring.
    apply Z.mul_le_mono_nonneg_r; lia.
  - apply Z.le_trans with (((m + 1) * P) ^ 2).
    + replace (((m + 1) * P) ^ 2) with ((m + 1) * (m + 1) * (P * P)) by ring.
      apply Z.mul_le_mono_nonneg_r; [exact HPP | lia].
    + apply Z.pow_le_mono_l. split; [apply Z.mul_nonneg_nonneg; lia|].
      replace ((m + 1) * P) with (m * P + P) by ring. exact Hsp.
Qed.

(** C10. For a step the console accepts, with a positive acceleration and
    an end speed below the start speed, [computeSpeed] returns [end_speed]
    at every step count a [long] can hold: the move never runs at its start
    speed. *)
Theorem overshoot_runs_at_end_speed (st : Step) (fw : Firmware) (n : Z) :
  acceptedStep st = true ->
  F32.gtb (accel st) F32.zero = true ->
  F32.ltb (end_speed st) (start_speed st) = true ->
  0 <= n < 2 ^ 31 ->
  computeSpeed (startStep st fw) n = end_speed st.
Proof.
  intros Hacc Hpos Hlt Hn.
  destruct (accepted_globals st fw Hacc) as (Gs & Ge & Ga & HS & HE & Ha).
  rewrite computeSpeed_eq, Gs, Ge, Ga.
  destruct (root_props _ _ n HS Ha Hn) as [Hr Hr0].
  destruct (radicand_props _ _ n HS Ha Hn) as (Hrad & Hge & _).
  destruct (floored_V _ Hrad) as [Hfl HflV].
  pose proof HS as [HSf HSb]. pose proof HE as [HEf HEb].
  pose proof Ha as [Haf Hab]. pose proof U_pos as HU.
  unfold F32.gtb in Hpos. fold (F32.ltb F32.zero (accel st)) in Hpos.
  pose proof Hpos as Hpos'.
  rewrite (ltb_V F32.zero _ fv_zero0 Haf), V_zero in Hpos'. apply Z.ltb_lt in Hpos'.
  rewrite (ltb_V _ _ HEf HSf) in Hlt. apply Z.ltb_lt in Hlt.
  specialize (Hge Hpos').
  rewrite (eqb_V _ F32.zero Haf fv_zero0), (eqb_V _ _ HSf HEf), V_zero.
  replace (V (accel st) =? 0) with false by (symmetry; apply Z.eqb_neq; lia).
  replace (V (start_speed st) =? V (end_speed st)) with false
    by (symmetry; apply Z.eqb_neq; lia).
  simpl orb. cbv iota. unfold F32.gtb at 1.
  fold (F32.ltb F32.zero (accel st)). rewrite Hpos.
  (* the square root is at least the end speed *)
  assert (Hroot : V (end_speed st) <= V (root (start_speed st) (accel st) n)).
  { destruct (square_separation _ _ HE HS Hlt) as (g & Hg & Hg1 & Hg2).
    destruct (square_props _ HSf HSb) as [HS2 HS2b].
    assert (HgS2 : V g <= V (F32.mul (start_speed st) (start_speed st))).
    { destruct (mul_nearest' _ _ HSf HSf) as (z & Hz & Hne).
      - rewrite Z.abs_eq by (apply Z.mul_nonneg_nonneg; lia).
        pose proof big127 as H127. change (2 ^ 44) with 17592186044416 in H127.
        assert (0 < U * U) by (apply Z.mul_pos_pos; lia).
        apply Z.le_lt_trans with (1000 * U * (1000 * U));
          [apply Z.mul_le_mono_nonneg; lia|].
        replace (1000 * U * (1000 * U)) with (1000000 * (U * U)) by ring.
        replace (2 ^ 127 * U * U) with (2 ^ 127 * (U * U)) by ring.
        apply Z.mul_lt_mono_pos_r; lia.
      - apply (nearest_ge _ _ _ Hne Hg).
        apply (Z.mul_le_mono_pos_r _ _ U HU). rewrite Hz.
        now rewrite Z.pow_2_r in Hg2. }
    unfold root.
    apply (sqrt_nearest_ge (floored (radicand (start_speed st) (accel st) n)));
      [apply sqrt_spec; [exact Hfl | lia] | exact HEf | lia |].
    fold U. apply Z.le_trans with (V g * U); [exact Hg1|].
    apply Z.mul_le_mono_nonneg_r; lia. }
  destruct (min_V _ _ Hr HEf) as [_ HminV].
  assert (Hmin : F32.min (root (start_speed st) (accel st) n) (end_speed st)
                 = end_speed st).
  { unfold F32.min. rewrite (ltb_V _ _ Hr HEf).
    now replace (V (root (start_speed st) (accel st) n) <? V (end_speed st))
      with false by (symmetry; apply Z.ltb_ge; lia). }
  rewrite Hmin. unfold F32.max, F32.gtb. fold (F32.ltb F32.one (end_speed st)).
  rewrite (ltb_V _ _ fv_one HEf), V_one.
  destruct (U <? V (end_speed st)) eqn:E1; [reflexivity|].
  apply Z.ltb_ge in E1. symmetry.
  apply V_inj; [exact HEf | exact fv_one | rewrite V_one; lia | lia].
Qed.

(** ** The speed profile *)

(** C4. A step with zero acceleration, or with equal start and end speeds,
    runs at its start speed for every step count: for a step the console
    accepts (speeds at least 1), [computeSpeed] returns [start_speed]
    whatever [steps_done] is, in particular on [0, distance). *)
Theorem constant_speed_profile (st : Step) (fw : Firmware) (steps_done : Z) :
  F32.leb F32.one (start_speed st) = true ->
  F32.leb F32.one (end_speed st) = true ->
  F32.eqb (accel st) F32.zero = true
  \/ F32.eqb (start_speed st) (end_speed st) = true ->
  computeSpeed (startStep st fw) steps_done = start_speed st.
Proof.
  intros Hs He Hc. unfold computeSpeed, startStep; simpl.
  rewrite (max_one_id _ Hs), (max_one_id _ He).
  destruct Hc as [-> | ->]; [reflexivity | now rewrite orb_true_r].
Qed.

Definition scenarioStep : Step :=
  {| forward := true; distance := 100; start_speed := F32.of_Z 10;
     end_speed := F32.of_Z 50; accel := F32.of_Z 5 |}.

Definition constantStep : Step :=
  {| forward := true; distance := 100; start_speed := F32.of_Z 10;
     end_speed := F32.of_Z 50; accel := F32.zero |}.

Lemma constant_speed_profile_witness :
  computeSpeed (startStep constantStep (fst setup)) 42 = F32.of_Z 10.
Proof.
  apply (constant_speed_profile constantStep (fst setup) 42);
    [reflexivity | reflexivity | left; reflexivity].
Defined.

(** C5 as stated fails: at [steps_done = 160] the scenario step has
    [v2 = 100 + 2*5*160 = 1700], whose square root is about 41.23, under the
    end speed 50; the clamp is not reached there. *)
Lemma scenario_160_not_clamped :
  computeSpeed (startStep scenarioStep (fst setup)) 160
  = S754_finite false 10808474 (-18)
  /\ F32.eqb (computeSpeed (startStep scenarioStep (fst setup)) 160)
       (F32.of_Z 50) = false.
Proof. split; reflexivity. Qed.

(** ** The program store *)

Lemma shiftDown_eq (n i : nat) (prog : list Step) :
  (i + n < length prog)%nat ->
  shiftDown n i prog
  = take i prog ++ take n (drop (S i) prog) ++ drop (i + n) prog.
Proof.
  revert i prog. induction n as [|n IH]; intros i prog Hlen; simpl.
  - rewrite Nat.add_0_r. now rewrite take_drop.
  - destruct (lookup_lt_is_Some_2 prog (S i)) as [x Hx]; [lia|].
    rewrite Hx, IH by (rewrite length_insert; lia).
    rewrite (take_S_r _ i x).
    2:{ rewrite list_lookup_insert_eq; [reflexivity | lia]. }
    rewrite take_insert_ge by lia.
    rewrite !drop_insert_lt by lia.
    rewrite (drop_S prog x (S i) Hx). simpl.
    rewrite <- app_assoc. simpl.
    now replace (i + S n)%nat with (S (i + n)) by lia.
Qed.

Lemma listing_shiftDown (prog : list Step) (count idx : nat) :
  (idx < count <= length prog)%nat ->
  take (count - 1) (shiftDown (count - 1 - idx) idx prog)
  = delete idx (take count prog).
Proof.
  intros H. rewrite shiftDown_eq by lia.
  rewrite delete_take_drop, take_take.
  replace (idx `min` count)%nat with idx by lia.
  rewrite app_assoc, take_app_length'
    by (rewrite length_app, !length_take, length_drop; lia).
  f_equal. rewrite take_drop_commute. do 2 f_equal. lia.
Qed.

Section StoreProperties.
Variable toFloat : string -> float.

Lemma charAt0_nonempty (s : string) (c : ascii) :
  toupper (charAt0 s) = c -> c <> Ascii.zero -> (strlen s =? 0) = false.
Proof.
  destruct s; simpl; intros H Hc.
  - exfalso. apply Hc. rewrite <- H. reflexivity.
  - reflexivity.
Qed.

(** C6. The editor's [A] command on a store with [programCount] entries:
    with 5 entries already it prints the "Program full" error and leaves
    the firmware state, hence the stored sequence, unchanged; with fewer
    than 5 it appends the step read by [promptStep], so the listing that
    follows is the old one followed by the added step, which is its last
    element. *)
Theorem add_step_spec (fw : Firmware) (l : string) (inp : list string) :
  toupper (charAt0 (trim l)) = "A"%char ->
  length (program fw) = Z.to_nat MAX_STEPS ->
  0 <= programCount fw <= MAX_STEPS ->
  (programCount fw = MAX_STEPS ->
   editorCommand toFloat fw (l :: inp)
   = Some ((true, fw), inp,
           editorMenu fw ++ println (Txt "! Program full (max 5 steps).")))
  /\ (programCount fw < MAX_STEPS ->
      forall st inp' out,
        promptStep toFloat inp = Some (st, inp', out) ->
        exists fw' out',
          editorCommand toFloat fw (l :: inp) = Some ((true, fw'), inp', out')
          /\ listing fw' = listing fw ++ [st]
          /\ last (listing fw') = Some st
          /\ programCount fw' = programCount fw + 1).
Proof.
  intros Hc Hlen Hcount.
  assert (Hne : (strlen (trim l) =? 0) = false)
    by (apply (charAt0_nonempty _ _ Hc); discriminate).
  split.
  - intros Hfull. unfold editorCommand, bind, print, readLineBlocking.
    rewrite Hne, Hc, Hfull. reflexivity.
  - intros Hroom st inp' out Hst.
    unfold editorCommand, bind, print, readLineBlocking.
    rewrite Hne, Hc. simpl Ascii.eqb. cbv iota.
    destruct (programCount fw >=? MAX_STEPS) eqn:E;
      [apply Z.geb_le in E; lia|].
    change ("A" =? "Q")%char with false. change ("A" =? "A")%char with true.
    cbv beta iota. rewrite Hst. unfold ret. cbv beta iota.
    eexists _, _. split; [reflexivity|].
    assert (Hl : listing
              (with_store (<[Z.to_nat (programCount fw) := st]> (program fw))
                 (wrap_u8 (programCount fw + 1)) fw)
            = listing fw ++ [st]).
    { unfold listing, wrap_u8; simpl.
      unfold MAX_STEPS in *.
      rewrite Z.mod_small by lia.
      replace (Z.to_nat (programCount fw + 1))
        with (S (Z.to_nat (programCount fw))) by lia.
      rewrite (take_S_r _ _ st)
        by (rewrite list_lookup_insert_eq; [reflexivity | lia]).
      now rewrite take_insert_ge by lia. }
    rewrite Hl. split; [reflexivity|]. split.
    + apply last_snoc.
    + simpl. unfold wrap_u8, MAX_STEPS in *. rewrite Z.mod_small; lia.
Qed.

(** The editor's [D n] command in terms of [idx], the 16-bit [int] that
    [int idx = s.substring(2).toInt() - 1] holds: for [idx] in
    [0, programCount) the listing loses exactly its element [idx] (entries
    before it stay, each later entry moves down by one) and [programCount]
    drops by one; for any other [idx], [idx = programCount] included, the
    command prints the "Invalid step number" error and leaves the firmware
    state unchanged.  [idx] is the requested index only when that index
    fits 16 bits; [D 65537] is evaluated among the concrete runs. *)
Theorem delete_step_spec (fw : Firmware) (l : string) (inp : list string) :
  let idx := wrap_int (wrap_long (toInt (substring_from 2 (trim l)) - 1)) in
  toupper (charAt0 (trim l)) = "D"%char ->
  3 <= strlen (trim l) ->
  length (program fw) = Z.to_nat MAX_STEPS ->
  0 <= programCount fw <= MAX_STEPS ->
  (0 <= idx < programCount fw ->
   exists fw',
     editorCommand toFloat fw (l :: inp)
     = Some ((true, fw'), inp, editorMenu fw ++ println (Txt "Step deleted."))
     /\ listing fw' = delete (Z.to_nat idx) (listing fw)
     /\ (forall j : nat,
           listing fw' !! j
           = if (j <? Z.to_nat idx)%nat then listing fw !! j
             else listing fw !! S j)
     /\ programCount fw' = programCount fw - 1)
  /\ (~ 0 <= idx < programCount fw ->
      editorCommand toFloat fw (l :: inp)
      = Some ((true, fw), inp,
              editorMenu fw ++ println (Txt "! Invalid step number."))).
Proof.
  intros idx Hc Hs3 Hlen Hcount.
  assert (Hne : (strlen (trim l) =? 0) = false)
    by (apply (charAt0_nonempty _ _ Hc); discriminate).
  assert (Hge : (strlen (trim l) <? 3) = false) by (apply Z.ltb_ge; lia).
  unfold MAX_STEPS in *.
  split.
  - intros Hidx.
    unfold editorCommand, bind, print, readLineBlocking.
    rewrite Hne, Hc, Hge. fold idx.
    change ("D" =? "Q")%char with false. change ("D" =? "A")%char with false.
    change ("D" =? "D")%char with true.
    destruct ((idx <? 0) || (idx >=? programCount fw)) eqn:E.
    { apply orb_true_iff in E as [E | E];
        [apply Z.ltb_lt in E | apply Z.geb_le in E]; lia. }
    unfold ret. cbv beta iota.
    eexists. split; [reflexivity|].
    assert (Hl : listing
              (with_store
                 (shiftDown (Z.to_nat (programCount fw - 1 - idx))
                    (Z.to_nat idx) (program fw))
                 (wrap_u8 (programCount fw - 1)) fw)
            = delete (Z.to_nat idx) (listing fw)).
    { unfold listing, wrap_u8; simpl.
      rewrite Z.mod_small by lia.
      replace (Z.to_nat (programCount fw - 1))
        with (Z.to_nat (programCount fw) - 1)%nat by lia.
      replace (Z.to_nat (programCount fw - 1 - idx))
        with (Z.to_nat (programCount fw) - 1 - Z.to_nat idx)%nat by lia.
      apply listing_shiftDown. lia. }
    rewrite Hl. split; [reflexivity|]. split.
    + intros j. destruct (j <? Z.to_nat idx)%nat eqn:Ej.
      * apply Nat.ltb_lt in Ej. now apply list_lookup_delete_lt.
      * apply Nat.ltb_ge in Ej. now apply list_lookup_delete_ge.
    + simpl. unfold wrap_u8. rewrite Z.mod_small; lia.
  - intros Hidx.
    unfold editorCommand, bind, print, readLineBlocking.
    rewrite Hne, Hc, Hge. fold idx.
    change ("D" =? "Q")%char with false. change ("D" =? "A")%char with false.
    change ("D" =? "D")%char with true.
    destruct ((idx <? 0) || (idx >=? programCount fw)) eqn:E; [reflexivity|].
    apply orb_false_iff in E as [E1 E2].
    apply Z.ltb_ge in E1. rewrite Z.geb_leb in E2. apply Z.leb_gt in E2. lia.
Qed.
End StoreProperties.

(** ** The dialogue consumes its input

    Every prompt and every round of the editor reads at least one line.  So
    the fuel of [editor], the number of unread lines, is never what stops it:
    any larger fuel gives the same run, and [None] means only that the
    sketch waits for a line that has not arrived. *)

Lemma promptUntil_promptLine {A} (msg : string) (parse : string -> option A)
    (err : list Tok) (inp : list string) :
  promptUntil msg parse err inp =
  match promptLine msg inp with
  | None => None
  | Some (s, rest, out) =>
      match parse s with
      | Some a => Some (a, rest, out)
      | None =>
          match promptUntil msg parse err rest with
          | None => None
          | Some (a, rest', out') => Some (a, rest', out ++ err ++ out')
          end
      end
  end.
Proof. destruct inp as [|l rest]; reflexivity. Qed.

Lemma promptUntil_shorter {A} (msg : string) (parse : string -> option A)
    (err : list Tok) (inp inp' : list string) (a : A) (out : list Tok) :
  promptUntil msg parse err inp = Some (a, inp', out) ->
  (length inp' < length inp)%nat.
Proof.
  revert out. induction inp as [|l rest IH]; intros out; [discriminate|].
  simpl. destruct (parse (trim l)).
  - intros [= _ <- _]. lia.
  - destruct (promptUntil msg parse err rest) as [[[a' r'] o']|];
      [|discriminate].
    intros [= <- <- _]. specialize (IH _ eq_refl). lia.
Qed.

Section Dialogue.
Variable toFloat : string -> float.

Lemma promptStep_shorter (inp inp' : list string) (st : Step)
    (out : list Tok) :
  promptStep toFloat inp = Some (st, inp', out) ->
  (length inp' < length inp)%nat.
Proof.
  unfold promptStep, bind, ret, promptDirection, promptLong, promptFloat.
  repeat match goal with
         | |- context [promptUntil ?m ?p ?e ?i] =>
             let E := fresh "E" in
             destruct (promptUntil m p e i) as [[[? ?] ?]|] eqn:E;
             [apply promptUntil_shorter in E|discriminate]
         end.
  intros [= _ <- _]. lia.
Qed.

Lemma editorCommand_shorter (fw fw' : Firmware) (b : bool)
    (inp inp' : list string) (out : list Tok) :
  editorCommand toFloat fw inp = Some ((b, fw'), inp', out) ->
  (length inp' < length inp)%nat.
Proof.
  unfold editorCommand, bind, print, readLineBlocking, ret.
  destruct inp as [|l rest]; [discriminate|].
  repeat case_match; intros; simplify_eq; simpl; try lia;
    match goal with
    | H : promptStep _ _ = Some _ |- _ => apply promptStep_shorter in H; lia
    end.
Qed.

Lemma editor_fuel (fuel fuel' : nat) (fw : Firmware) (inp : list string) :
  (length inp <= fuel)%nat -> (length inp <= fuel')%nat ->
  editor toFloat fuel fw inp = editor toFloat fuel' fw inp.
Proof.
  revert fuel' fw inp.
  induction fuel as [|fuel IH]; intros [|fuel'] fw inp H H'.
  - reflexivity.
  - destruct inp; [|simpl in H; lia]. reflexivity.
  - destruct inp; [|simpl in H'; lia]. reflexivity.
  - simpl. unfold bind.
    destruct (editorCommand toFloat fw inp) as [[[[b fw1] inp1] out1]|] eqn:E;
      [|reflexivity].
    apply editorCommand_shorter in E. simpl.
    destruct b; [|reflexivity].
    rewrite (IH fuel' fw1 inp1) by lia. reflexivity.
Qed.

(** The editor stops for want of fuel only when no line is left to read. *)
Lemma editor_blocks_on_input (fw : Firmware) (inp : list string) :
  editor toFloat (length inp) fw inp = None ->
  forall fuel, (length inp <= fuel)%nat -> editor toFloat fuel fw inp = None.
Proof.
  intros H fuel Hf. rewrite (editor_fuel fuel (length inp)) by lia. exact H.
Qed.

End Dialogue.

(** ** The state machine *)

(** Number of times the text [s] was printed. *)
Fixpoint countTxt (s : string) (out : list Tok) : nat :=
  match out with
  | [] => O
  | Txt s' :: rest => ((if String.eqb s s' then 1 else 0) + countTxt s rest)%nat
  | _ :: rest => countTxt s rest
  end.

(** The three lifecycle messages of a program run. *)
Definition stepAdvances : list Tok -> nat := countTxt "] Starting...".
Definition programCompletes : list Tok -> nat := countTxt "[DONE] Program complete.".
Definition aborts : list Tok -> nat := countTxt "[ABORTED] Motor stopped.".

Lemma countTxt_app (s : string) (a b : list Tok) :
  countTxt s (a ++ b) = (countTxt s a + countTxt s b)%nat.
Proof.
  induction a as [|t a IH]; [reflexivity|].
  destruct t; simpl; rewrite IH; lia.
Qed.

Definition demoToFloat (s : string) : float := F32.of_Z (toInt s).

Section LoopProperties.
Variable toFloat : string -> float.

Lemma service_store (due : bool) (fw : Firmware) :
  program (service due fw) = program fw
  /\ programCount (service due fw) = programCount fw
  /\ state (service due fw) = state fw
  /\ progStepIndex (service due fw) = progStepIndex fw
  /\ g_moving (service due fw) = g_moving fw
  /\ g_target_dist (service due fw) = g_target_dist fw.
Proof.
  unfold service. destruct (g_moving fw) eqn:E; simpl; repeat split; auto.
Qed.

Lemma service_idle (due : bool) (fw : Firmware) :
  g_moving fw = false -> service due fw = fw.
Proof. unfold service. now intros ->. Qed.

Lemma complete_store (fw fw' : Firmware) (inp inp' : list string) (out : list Tok) :
  complete fw inp = Some (fw', inp', out) ->
  program fw' = program fw /\ programCount fw' = programCount fw /\ inp' = inp.
Proof.
  unfold complete, bind, print, ret; simpl.
  destruct (state fw); simpl;
    try destruct (wrap_u8 (progStepIndex fw + 1) <? programCount fw);
    intros [= <- <- <-]; auto.
Qed.

Lemma abort_store (fw fw' : Firmware) (inp inp' : list string) (out : list Tok) :
  abort fw inp = Some (fw', inp', out) ->
  program fw' = program fw /\ programCount fw' = programCount fw.
Proof. unfold abort, bind, print, ret; simpl. intros [= <- <- <-]; auto. Qed.

(** C1, amended.  On a tick processed while a move is running the program
    store is never changed; and when the move is not done on that tick, a
    received line other than [X] (an edit request, say) is read and
    dropped: the tick prints nothing, so no Busy error is reported. *)
Theorem edit_while_moving_ignored (fw : Firmware) (due : bool) (inp : list string) :
  isMoving (state fw) = true ->
  (forall fw' inp' out,
      loop toFloat due fw inp = Some (fw', inp', out) ->
      program fw' = program fw /\ programCount fw' = programCount fw)
  /\ (moveDone (service due fw) = false ->
      forall l rest, inp = l :: rest ->
        String.eqb (toUpperCase (trim l)) "X" = false ->
        loop toFloat due fw inp = Some (service due fw, rest, [])).
Proof.
  intros Hmov.
  destruct (service_store due fw) as (Hp & Hc & Hs & _).
  split.
  - intros fw' inp' out. unfold loop. rewrite Hs, Hmov.
    destruct (moveDone (service due fw)).
    + intros H. apply complete_store in H as (-> & -> & _). auto.
    + unfold bind, readLineIfAvailable, ret.
      destruct inp as [|l rest]; [intros [= <- <- <-]; auto|].
      destruct (String.eqb (toUpperCase (trim l)) "X") eqn:E.
      * destruct (abort (service due fw) rest) as [[[f i] o]|] eqn:Ea;
          [|discriminate].
        intros [= <- <- <-]. apply abort_store in Ea as (-> & ->). auto.
      * intros [= <- <- <-]. auto.
  - intros Hnd l rest -> Hx. unfold loop. rewrite Hs, Hmov, Hnd.
    unfold bind, readLineIfAvailable, ret. now rewrite Hx.
Qed.

(** The editor touches nothing but the program store. *)
Lemma editorCommand_store (fw fw' : Firmware) (b : bool)
    (inp inp' : list string) (out : list Tok) :
  editorCommand toFloat fw inp = Some ((b, fw'), inp', out) ->
  fw' = with_store (program fw') (programCount fw') fw.
Proof.
  assert (Hid : fw = with_store (program fw) (programCount fw) fw)
    by (destruct fw; reflexivity).
  unfold editorCommand, bind, print, readLineBlocking, ret.
  destruct inp as [|l rest]; [discriminate|].
  repeat case_match; intros; simplify_eq; simpl; try exact Hid; reflexivity.
Qed.

Lemma editor_store (fuel : nat) (fw fw' : Firmware)
    (inp inp' : list string) (out : list Tok) :
  editor toFloat fuel fw inp = Some (fw', inp', out) ->
  fw' = with_store (program fw') (programCount fw') fw.
Proof.
  revert fw inp out. induction fuel as [|fuel IH]; intros fw inp out;
    [discriminate|].
  simpl. unfold bind at 1.
  destruct (editorCommand toFloat fw inp) as [[[[b fw1] inp1] out1]|] eqn:E;
    [|discriminate].
  apply editorCommand_store in E. simpl.
  destruct b.
  - destruct (editor toFloat fuel fw1 inp1) as [[[fw2 inp2] out2]|] eqn:E2;
      [|discriminate].
    intros [= <- <- <-]. apply IH in E2. rewrite E2, E. reflexivity.
  - unfold ret. intros [= <- <- <-]. exact E.
Qed.

(** States the firmware can be in: after [setup()], and after any call of
    [loop()] that returns, whatever lines have been received and whatever
    the step timing is. *)
Inductive reachable : Firmware -> Prop :=
| reach_setup : reachable (fst setup)
| reach_loop fw due inp fw' inp' out :
    reachable fw ->
    loop toFloat due fw inp = Some (fw', inp', out) ->
    reachable fw'.


Lemma command_idle_not_moving (cmd : string) (fw fw' : Firmware)
    (inp inp' : list string) (out : list Tok) :
  state fw = STATE_IDLE -> g_moving fw = false ->
  command toFloat cmd fw inp = Some (fw', inp', out) ->
  state fw' = STATE_IDLE ->
  g_moving fw' = false /\ stepper fw' = stepper fw.
Proof.
  intros Hs Hm. unfold command, bind, print, ret.
  repeat case_match; intros; simplify_eq; simpl in *; auto; try discriminate.
  match goal with H : editor _ _ _ _ = Some _ |- _ =>
    apply editor_store in H; rewrite H; simpl; auto end.
Qed.



Lemma setMaxSpeed_nonneg (v : float) (s : AccelStepper) :
  F32.ltb (maxSpeed (Stepper.setMaxSpeed v s)) F32.zero = false.
Proof.
  unfold Stepper.setMaxSpeed.
  destruct (F32.eqb (maxSpeed s) _) eqn:E; simpl.
  - exact (eqb_ltb_zero _ _ E (ltb_abs_zero v)).
  - apply ltb_abs_zero.
Qed.

Lemma setSpeed_maxSpeed (v : float) (s : AccelStepper) :
  maxSpeed (Stepper.setSpeed v s) = maxSpeed s.
Proof. unfold Stepper.setSpeed. now destruct (F32.eqb v (speed s)). Qed.

Lemma runSpeed_maxSpeed (due : bool) (s : AccelStepper) :
  maxSpeed (Stepper.runSpeed due s) = maxSpeed s.
Proof.
  unfold Stepper.runSpeed.
  now destruct (F32.eqb (speed s) F32.zero), due.
Qed.

Lemma setSpeed_zero (s : AccelStepper) :
  F32.ltb (maxSpeed s) F32.zero = false ->
  F32.eqb (speed (Stepper.setSpeed F32.zero s)) F32.zero = true.
Proof.
  intros H. unfold Stepper.setSpeed.
  destruct (F32.eqb F32.zero (speed s)) eqn:E; simpl.
  - now apply eqb_zero_sym.
  - now apply constrain_zero.
Qed.

Lemma service_maxSpeed_nonneg (due : bool) (fw : Firmware) :
  g_moving fw = true ->
  F32.ltb (maxSpeed (stepper (service due fw))) F32.zero = false.
Proof.
  intros H. unfold service. rewrite H. simpl.
  rewrite runSpeed_maxSpeed, setSpeed_maxSpeed. apply setMaxSpeed_nonneg.
Qed.

(** Later ticks during which the session stays idle: calls of [loop()]
    with any timing and any received lines, each ending in [STATE_IDLE]. *)
Inductive idleRun : Firmware -> Firmware -> Prop :=
| idleRun_refl fw : idleRun fw fw
| idleRun_step fw due inp fw1 inp1 out fw2 :
    loop toFloat due fw inp = Some (fw1, inp1, out) ->
    state fw1 = STATE_IDLE ->
    idleRun fw1 fw2 ->
    idleRun fw fw2.

Lemma loop_idle_stepper (due : bool) (fw fw' : Firmware)
    (inp inp' : list string) (out : list Tok) :
  state fw = STATE_IDLE -> g_moving fw = false ->
  loop toFloat due fw inp = Some (fw', inp', out) ->
  state fw' = STATE_IDLE ->
  g_moving fw' = false /\ stepper fw' = stepper fw.
Proof.
  intros Hs Hm. unfold loop. rewrite (service_idle due fw Hm), Hs. simpl.
  unfold bind, readLineIfAvailable, ret.
  destruct inp as [|l rest]; [intros [= <- <- <-]; auto|].
  destruct (command toFloat (toUpperCase (trim l)) fw rest)
    as [[[f i] o]|] eqn:Ec; [|discriminate].
  intros [= <- <- <-] Hi.
  exact (command_idle_not_moving _ _ _ _ _ _ Hs Hm Ec Hi).
Qed.

Lemma idleRun_stepper (fw fw' : Firmware) :
  idleRun fw fw' ->
  state fw = STATE_IDLE -> g_moving fw = false ->
  stepper fw' = stepper fw.
Proof.
  induction 1 as [|fw due inp fw1 inp1 out fw2 Hl Hi _ IH]; intros Hs Hm;
    [reflexivity|].
  destruct (loop_idle_stepper _ _ _ _ _ _ Hs Hm Hl Hi) as [Hm1 Hst].
  rewrite (IH Hi Hm1). exact Hst.
Qed.

Lemma idle_quiet_tick (due : bool) (fw : Firmware) :
  state fw = STATE_IDLE -> g_moving fw = false ->
  loop toFloat due fw [] = Some (fw, [], []).
Proof.
  intros Hs Hm. unfold loop. now rewrite (service_idle due fw Hm), Hs.
Qed.

(** C2. On a tick of an active move where the abort line [X] is read:
    within that call of [loop()] the commanded speed becomes zero and the
    driver outputs are switched off, the state returns to [STATE_IDLE] and
    [g_moving] is cleared; and on the later ticks, for as long as the
    session stays idle (no new move is started), whatever the timing and
    whatever lines arrive, the driver is left as it is: no step is
    requested and the position does not change.  A tick with no input
    keeps the session idle. *)
Theorem abort_stops_motor (fw : Firmware) (due : bool) (l : string)
    (rest : list string) :
  isMoving (state fw) = true ->
  g_moving fw = true ->
  moveDone (service due fw) = false ->
  String.eqb (toUpperCase (trim l)) "X" = true ->
  exists fw',
    loop toFloat due fw (l :: rest)
    = Some (fw', rest,
            [Endl] ++ println (Txt "[ABORTED] Motor stopped.")
            ++ printMainMenu fw')
    /\ F32.eqb (speed (stepper fw')) F32.zero = true
    /\ outputs (stepper fw') = false
    /\ state fw' = STATE_IDLE
    /\ g_moving fw' = false
    /\ (forall fw'', idleRun fw' fw'' ->
          pulses (stepper fw'') = pulses (stepper fw')
          /\ currentPos (stepper fw'') = currentPos (stepper fw'))
    /\ (forall due', loop toFloat due' fw' [] = Some (fw', [], [])).
Proof.
  intros Hmov Hg Hnd Hx.
  destruct (service_store due fw) as (_ & _ & Hs & _).
  unfold loop. rewrite Hs, Hmov, Hnd.
  unfold bind at 1. unfold readLineIfAvailable. rewrite Hx.
  unfold abort, bind, print, ret. cbv beta iota.
  eexists. split; [rewrite app_nil_r; reflexivity|].
  split; [|split; [reflexivity | split; [reflexivity | split; [reflexivity|]]]].
  - simpl. apply setSpeed_zero. now apply service_maxSpeed_nonneg.
  - split.
    + intros fw'' Hrun.
      now rewrite (idleRun_stepper _ _ Hrun eq_refl eq_refl).
    + intros due'. now apply idle_quiet_tick.
Qed.

Lemma startStep_fields (st : Step) (fw : Firmware) :
  outputs (stepper (startStep st fw)) = outputs (stepper fw)
  /\ state (startStep st fw) = state fw
  /\ progStepIndex (startStep st fw) = progStepIndex fw
  /\ programCount (startStep st fw) = programCount fw
  /\ program (startStep st fw) = program fw
  /\ g_moving (startStep st fw) = true
  /\ g_target_dist (startStep st fw) = distance st
  /\ currentPos (stepper (startStep st fw)) = 0.
Proof.
  unfold startStep, Stepper.setSpeed, Stepper.setMaxSpeed; simpl.
  repeat case_match; simpl; repeat split; reflexivity.
Qed.

(** A program run to its end: calls of [loop()], with any timing and any
    received lines, up to the first one that ends in [STATE_IDLE]; the
    output is that of all the calls. *)
Inductive progRun : Firmware -> list Tok -> Firmware -> Prop :=
| progRun_last fw due inp fw' inp' out :
    loop toFloat due fw inp = Some (fw', inp', out) ->
    state fw' = STATE_IDLE ->
    progRun fw out fw'
| progRun_step fw due inp fw1 inp1 out fw2 out2 :
    loop toFloat due fw inp = Some (fw1, inp1, out) ->
    state fw1 <> STATE_IDLE ->
    progRun fw1 out2 fw2 ->
    progRun fw (out ++ out2) fw2.

Definition stepAdvancedMsg (fw : Firmware) : list Tok :=
  [Endl; Txt "[STEP "; Num (progStepIndex fw + 2); Chr "/"%char;
   Num (programCount fw)] ++ println (Txt "] Starting...").

Definition programCompleteMsg (fw' : Firmware) : list Tok :=
  [Endl] ++ println (Txt "[DONE] Program complete.") ++ printMainMenu fw'.

(** What one tick of a running program can do. *)
Lemma prog_tick (fw fw1 : Firmware) (due : bool) (inp inp1 : list string)
    (out : list Tok) :
  state fw = STATE_MOVING_PROG ->
  (0 <= progStepIndex fw < programCount fw /\ programCount fw <= MAX_STEPS) ->
  loop toFloat due fw inp = Some (fw1, inp1, out) ->
  programCount fw1 = programCount fw
  /\ ((state fw1 = STATE_MOVING_PROG
       /\ progStepIndex fw1 = progStepIndex fw /\ out = [])
      \/ (state fw1 = STATE_MOVING_PROG
          /\ progStepIndex fw1 = progStepIndex fw + 1
          /\ progStepIndex fw + 1 < programCount fw
          /\ out = stepAdvancedMsg fw)
      \/ (state fw1 = STATE_IDLE
          /\ progStepIndex fw + 1 = programCount fw
          /\ out = programCompleteMsg fw1)
      \/ (state fw1 = STATE_IDLE /\ aborts out = 1%nat)).
Proof.
  intros Hs Hi. unfold MAX_STEPS in Hi.
  destruct (service_store due fw) as (_ & Hc & Hs' & Hi' & _).
  unfold loop. rewrite Hs', Hs. change (isMoving STATE_MOVING_PROG) with true. cbv beta iota.
  destruct (moveDone (service due fw)).
  - unfold complete, bind, print, ret. simpl. rewrite Hs', Hs, Hi', Hc.
    unfold wrap_u8. rewrite Z.mod_small by lia.
    destruct (progStepIndex fw + 1 <? programCount fw) eqn:E.
    + apply Z.ltb_lt in E. intros [= <- <- <-].
      split; [simpl; exact Hc|]. right; left.
      repeat split; simpl; auto; [congruence|].
      unfold stepAdvancedMsg. simpl.
      now replace (progStepIndex fw + 1 + 1) with (progStepIndex fw + 2) by lia.
    + apply Z.ltb_ge in E. intros [= <- <- <-].
      split; [simpl; exact Hc|]. right; right; left.
      repeat split; simpl; auto; [lia|].
      unfold programCompleteMsg, printMainMenu. simpl. now rewrite Hc.
  - unfold abort, bind, readLineIfAvailable, print, ret.
    destruct inp as [|l rest]; cbv beta iota.
    + intros [= <- <- <-]. split; [exact Hc|]. left. rewrite Hs', Hs, Hi'. auto.
    + destruct (String.eqb (toUpperCase (trim l)) "X"); cbv beta iota.
      * intros [= <- <- <-]. split; [simpl; exact Hc|]. right; right; right.
        split; reflexivity.
      * intros [= <- <- <-]. split; [exact Hc|]. left.
        rewrite Hs', Hs, Hi'. auto.
Qed.

Lemma progRun_counts (fw fw' : Firmware) (out : list Tok) :
  progRun fw out fw' ->
  state fw = STATE_MOVING_PROG ->
  (0 <= progStepIndex fw < programCount fw /\ programCount fw <= MAX_STEPS) ->
  aborts out = O ->
  stepAdvances out = Z.to_nat (programCount fw - 1 - progStepIndex fw)
  /\ programCompletes out = 1%nat
  /\ exists pre, out = pre ++ programCompleteMsg fw'.
Proof.
  induction 1 as [fw due inp fw' inp' out Hl Hidle
                 |fw due inp fw1 inp1 out fw2 out2 Hl Hnidle _ IH];
    intros Hs Hi Hab;
    destruct (prog_tick _ _ _ _ _ _ Hs Hi Hl)
      as (Hc & [(Hs1 & Hi1 & Ho)|[(Hs1 & Hi1 & Hlt & Ho)
               |[(Hs1 & Hend & Ho)|(Hs1 & Ha)]]]);
    try congruence.
  - subst out. repeat split; try reflexivity.
    + unfold stepAdvances. simpl. lia.
    + exists []. reflexivity.
  - subst out. simpl in *.
    rewrite <- Hc, <- Hi1. apply IH; [exact Hs1 | lia | exact Hab].
  - subst out. unfold aborts in Hab. rewrite countTxt_app in Hab.
    destruct IH as (IHa & IHc & pre & IHp);
      [exact Hs1 | lia | unfold aborts; lia |].
    unfold stepAdvances, programCompletes in *. rewrite !countTxt_app.
    rewrite IHa, IHc, Hc, Hi1. repeat split.
    + change (countTxt "] Starting..." (stepAdvancedMsg fw)) with 1%nat. lia.
    + exists (stepAdvancedMsg fw ++ pre). rewrite IHp. now rewrite app_assoc.
Qed.
End LoopProperties.

Definition manualMoveLines : list string :=
  ["M"; "F"; "100"; "10"; "50"; "5"]%string.

(** The firmware state once the manual move of [scenarioStep] is started. *)
Definition movingManual : Firmware :=
  with_state STATE_MOVING_MANUAL
    (startStep scenarioStep
       (with_stepper (Stepper.enableOutputs (stepper (fst setup))) (fst setup))).

Lemma movingManual_reached :
  exists out, loop demoToFloat false (fst setup) manualMoveLines
              = Some (movingManual, [], out).
Proof. eexists. vm_compute. reflexivity. Qed.

(** C1 as stated fails: while the manual move runs, the line [C] (clear
    program) is consumed and nothing at all is printed. *)
Lemma edit_while_moving_no_busy :
  state movingManual = STATE_MOVING_MANUAL
  /\ loop demoToFloat false movingManual ["C"%string]
     = Some (service false movingManual, [], []).
Proof. split; vm_compute; reflexivity. Qed.

Lemma edit_while_moving_ignored_witness :
  loop demoToFloat false movingManual ["C"%string]
  = Some (service false movingManual, [], []).
Proof.
  apply (proj2 (edit_while_moving_ignored demoToFloat movingManual false
                  ["C"%string] eq_refl) eq_refl "C"%string [] eq_refl eq_refl).
Defined.

(** ** Concrete runs *)

Definition stepA : Step :=
  {| forward := true; distance := 1; start_speed := F32.of_Z 10;
     end_speed := F32.of_Z 50; accel := F32.of_Z 5 |}.

Definition stepB : Step :=
  {| forward := false; distance := 1; start_speed := F32.of_Z 20;
     end_speed := F32.of_Z 20; accel := F32.zero |}.

Definition twoSteps : Firmware :=
  with_store [stepA; stepB; zeroStep; zeroStep; zeroStep] 2 (fst setup).

Definition fullStore : Firmware :=
  with_store [stepA; stepB; stepA; stepB; stepA] 5 (fst setup).

(** The state after the command [R] on [twoSteps]. *)
Definition running0 : Firmware :=
  with_state STATE_MOVING_PROG
    (startStep stepA
       (with_stepper (Stepper.enableOutputs (stepper twoSteps))
          (with_progStepIndex 0 twoSteps))).

Lemma running0_reached :
  exists out, loop demoToFloat false twoSteps ["r"%string]
              = Some (running0, [], out).
Proof. eexists. vm_compute. reflexivity. Qed.

Lemma add_step_spec_witness :
  editorCommand demoToFloat fullStore ["a"%string]
  = Some ((true, fullStore), [],
          editorMenu fullStore ++ println (Txt "! Program full (max 5 steps)."))
  /\ exists fw' out',
       editorCommand demoToFloat twoSteps
         ["A"; "F"; "100"; "10"; "50"; "5"]%string
       = Some ((true, fw'), [], out')
       /\ listing fw' = listing twoSteps ++ [scenarioStep]
       /\ last (listing fw') = Some scenarioStep
       /\ programCount fw' = programCount twoSteps + 1.
Proof.
  split.
  - apply (proj1 (add_step_spec demoToFloat fullStore "a"%string []
                    eq_refl eq_refl ltac:(vm_compute; split; discriminate))
             eq_refl).
  - refine (proj2 (add_step_spec demoToFloat twoSteps "A"%string
                     ["F"; "100"; "10"; "50"; "5"]%string
                     eq_refl eq_refl ltac:(vm_compute; split; discriminate))
              eq_refl scenarioStep [] _ _).
    vm_compute. reflexivity.
Defined.

Lemma delete_step_spec_witness :
  (exists fw',
      editorCommand demoToFloat twoSteps ["d 1"%string]
      = Some ((true, fw'), [],
              editorMenu twoSteps ++ println (Txt "Step deleted."))
      /\ listing fw' = [stepB]
      /\ programCount fw' = 1)
  /\ editorCommand demoToFloat twoSteps ["D 3"%string]
     = Some ((true, twoSteps), [],
             editorMenu twoSteps ++ println (Txt "! Invalid step number.")).
Proof.
  split.
  - destruct (proj1 (delete_step_spec demoToFloat twoSteps "d 1"%string []
                       eq_refl ltac:(vm_compute; discriminate) eq_refl
                       ltac:(vm_compute; split; discriminate))
                ltac:(vm_compute; split; [discriminate | reflexivity]))
      as (fw' & H1 & H2 & _ & H4).
    exists fw'. repeat split; assumption.
  - apply (proj2 (delete_step_spec demoToFloat twoSteps "D 3"%string []
                    eq_refl ltac:(vm_compute; discriminate) eq_refl
                    ltac:(vm_compute; split; discriminate))).
    vm_compute. intros [_ H]. discriminate H.
Defined.

(** C7. The range check of [D n] is made on a 16-bit [int].  The line
    [D 65537] asks for the zero-based index 65536, which is outside
    [0, programCount) for every store; [int idx = toInt() - 1] keeps the
    low 16 bits, so [idx] is 0, the check [idx < 0 || idx >= programCount]
    passes on a store that is not empty, and the first step is deleted
    where "Invalid step number" was due. *)
Theorem delete_index_truncated (toFloat : string -> float) :
  toInt (substring_from 2 (trim "D 65537")) - 1 = 65536
  /\ programCount twoSteps = 2
  /\ listing twoSteps = [stepA; stepB]
  /\ exists fw',
       editorCommand toFloat twoSteps ["D 65537"%string]
       = Some ((true, fw'), [],
               editorMenu twoSteps ++ println (Txt "Step deleted."))
       /\ listing fw' = [stepB]
       /\ programCount fw' = 1.
Proof.
  split; [reflexivity|]. split; [reflexivity|]. split; [reflexivity|].
  eexists. split; [vm_compute; reflexivity|]. split; reflexivity.
Qed.

Lemma abort_stops_motor_witness :
  exists fw',
    loop demoToFloat true movingManual ["x"%string]
    = Some (fw', [],
            [Endl] ++ println (Txt "[ABORTED] Motor stopped.")
            ++ printMainMenu fw')
    /\ F32.eqb (speed (stepper fw')) F32.zero = true
    /\ outputs (stepper fw') = false
    /\ state fw' = STATE_IDLE
    /\ g_moving fw' = false.
Proof.
  destruct (abort_stops_motor demoToFloat movingManual true "x"%string []
              eq_refl eq_refl eq_refl eq_refl)
    as (fw' & H1 & H2 & H3 & H4 & H5 & _).
  exists fw'. repeat split; assumption.
Defined.


Definition decelStep : Step :=
  {| forward := true; distance := 100; start_speed := F32.of_Z 50;
     end_speed := F32.of_Z 10; accel := F32.of_Z (-5) |}.

Definition overshootStep : Step :=
  {| forward := true; distance := 100; start_speed := F32.of_Z 50;
     end_speed := F32.of_Z 10; accel := F32.of_Z 5 |}.

Lemma speed_profile_monotone_witness :
  (F32.leb (computeSpeed (startStep scenarioStep (fst setup)) 3)
     (computeSpeed (startStep scenarioStep (fst setup)) 160) = true
   /\ F32.leb (computeSpeed (startStep scenarioStep (fst setup)) 160)
        (F32.of_Z 50) = true)
  /\ (F32.leb (computeSpeed (startStep decelStep (fst setup)) 160)
        (computeSpeed (startStep decelStep (fst setup)) 3) = true
      /\ F32.leb (F32.of_Z 10)
           (computeSpeed (startStep decelStep (fst setup)) 160) = true).
Proof.
  split.
  - destruct (proj1 (speed_profile_monotone scenarioStep (fst setup) 3 160
                       eq_refl ltac:(lia) ltac:(lia) eq_refl) eq_refl)
      as (H1 & _ & H3).
    split; assumption.
  - destruct (proj2 (speed_profile_monotone decelStep (fst setup) 3 160
                       eq_refl ltac:(lia) ltac:(lia) eq_refl) eq_refl)
      as (H1 & _ & H3).
    split; assumption.
Defined.

Lemma overshoot_runs_at_end_speed_witness :
  computeSpeed (startStep overshootStep (fst setup)) 7 = F32.of_Z 10.
Proof.
  apply (overshoot_runs_at_end_speed overshootStep (fst setup) 7
           eq_refl eq_refl eq_refl).
  split; [lia | reflexivity].
Defined.

(** * Further properties of the sketch *)

(** * The console prompts *)

(** What a prompt prints for the lines it rejects and the one it accepts:
    the message before every line read, the error after every rejected
    one. *)
Definition promptTranscript (msg : string) (err : list Tok)
    (rejected : list string) : list Tok :=
  concat (map (fun _ => Txt msg :: err) rejected) ++ [Txt msg].

(** A prompt returns on the first line that parses: the lines before it
    were all rejected, and nothing after it is read. *)
Lemma promptUntil_spec {A} (msg : string) (parse : string -> option A)
    (err : list Tok) (inp inp' : list string) (a : A) (out : list Tok) :
  promptUntil msg parse err inp = Some (a, inp', out)
  <-> exists rej l,
        inp = rej ++ l :: inp'
        /\ Forall (fun r => parse (trim r) = None) rej
        /\ parse (trim l) = Some a
        /\ out = promptTranscript msg err rej.
Proof.
  split.
  - revert out. induction inp as [|l rest IH]; intros out; [discriminate|].
    simpl. destruct (parse (trim l)) as [a'|] eqn:E.
    + intros [= <- <- <-]. exists [], l. repeat split; auto.
    + destruct (promptUntil msg parse err rest) as [[[a' r'] o']|];
        [|discriminate].
      intros [= <- <- <-].
      destruct (IH _ eq_refl) as (rej & l' & -> & Hrej & Hl & ->).
      exists (l :: rej), l'. repeat split; auto.
      unfold promptTranscript. simpl. now rewrite <- app_assoc.
  - intros (rej & l & -> & Hrej & Hl & ->).
    induction Hrej as [|r rej Hr _ IH]; simpl.
    + now rewrite Hl.
    + rewrite Hr, IH. unfold promptTranscript. simpl.
      now rewrite <- app_assoc.
Qed.

(** A prompt waits for ever exactly when every line received is
    rejected. *)
Lemma promptUntil_blocks {A} (msg : string) (parse : string -> option A)
    (err : list Tok) (inp : list string) :
  promptUntil msg parse err inp = None
  <-> Forall (fun r => parse (trim r) = None) inp.
Proof.
  induction inp as [|l rest IH]; simpl.
  - split; [constructor | reflexivity].
  - destruct (parse (trim l)) eqn:E.
    + split; [discriminate|]. intros H. inversion H; congruence.
    + destruct (promptUntil msg parse err rest) as [[[a' r'] o']|].
      * split; [discriminate|]. intros H. inversion H as [|? ? _ H']; subst.
        apply IH in H'. discriminate.
      * split; [|reflexivity]. intros _. constructor; [exact E|].
        now apply IH.
Qed.

Definition longError (lo hi : Z) : list Tok :=
  [Txt "  ! Out of range ("; Num lo; Txt " - "; Num hi]
  ++ println (Txt "), try again.").

Definition floatError (lo hi : float) : list Tok :=
  [Txt "  ! Out of range ("; Flt lo; Txt " - "; Flt hi]
  ++ println (Txt "), try again.").

(** X1. [promptLong] returns the integer value of the first received line
    whose value lies in [lo, hi]; every line before it had a value out of
    that range and got the out-of-range message; the returned value is in
    range.  Without such a line the prompt keeps waiting. *)
Theorem promptLong_spec (msg : string) (lo hi : Z) (inp : list string) :
  (forall v inp' out,
      promptLong msg lo hi inp = Some (v, inp', out)
      <-> exists rej l,
            inp = rej ++ l :: inp'
            /\ Forall (fun r => ~ lo <= toInt (trim r) <= hi) rej
            /\ v = toInt (trim l) /\ lo <= v <= hi
            /\ out = promptTranscript msg (longError lo hi) rej)
  /\ (promptLong msg lo hi inp = None
      <-> Forall (fun r => ~ lo <= toInt (trim r) <= hi) inp).
Proof.
  assert (Hp : forall r,
             (let v := toInt (trim r) in
              if (v >=? lo) && (v <=? hi) then Some v else None) = None
             <-> ~ lo <= toInt (trim r) <= hi).
  { intros r. cbv zeta.
    destruct ((toInt (trim r) >=? lo) && (toInt (trim r) <=? hi)) eqn:E.
    - apply andb_true_iff in E as [E1 E2].
      apply Z.geb_le in E1. apply Z.leb_le in E2.
      split; [discriminate | lia].
    - split; [|reflexivity]. intros _ [H1 H2].
      apply Z.geb_le in H1. apply Z.leb_le in H2.
      rewrite H1, H2 in E. discriminate. }
  split.
  - intros v inp' out. unfold promptLong. rewrite promptUntil_spec.
    split.
    + intros (rej & l & -> & Hrej & Hl & ->). exists rej, l.
      cbv zeta in Hl.
      destruct ((toInt (trim l) >=? lo) && (toInt (trim l) <=? hi)) eqn:E;
        [|discriminate].
      injection Hl as <-. apply andb_true_iff in E as [E1 E2].
      apply Z.geb_le in E1. apply Z.leb_le in E2.
      split; [reflexivity|]. split.
      { eapply Forall_impl; [exact Hrej|]. intros r Hr. now apply Hp. }
      split; [reflexivity|]. split; [lia | reflexivity].
    + intros (rej & l & -> & Hrej & -> & [H1 H2] & ->). exists rej, l.
      split; [reflexivity|]. split.
      { eapply Forall_impl; [exact Hrej|]. intros r Hr. now apply Hp. }
      split; [|reflexivity].
      cbv zeta. apply Z.geb_le in H1. apply Z.leb_le in H2.
      now rewrite H1, H2.
  - unfold promptLong. rewrite promptUntil_blocks.
    split; intros H; (eapply Forall_impl; [exact H|]); intros r Hr;
      now apply Hp.
Qed.

Section Prompts.
Variable toFloat : string -> float.

(** X2. [promptFloat] returns the value of the first received line that
    passes [v >= lo && v <= hi]; the lines before it failed that test and
    got the out-of-range message.  The value returned passes the test, so
    it is never a NaN. *)
Theorem promptFloat_spec (msg : string) (lo hi : float) (inp : list string) :
  (forall v inp' out,
      promptFloat toFloat msg lo hi inp = Some (v, inp', out)
      <-> exists rej l,
            inp = rej ++ l :: inp'
            /\ Forall (fun r => F32.geb (toFloat (trim r)) lo
                                && F32.leb (toFloat (trim r)) hi = false) rej
            /\ v = toFloat (trim l)
            /\ F32.geb v lo = true /\ F32.leb v hi = true
            /\ v <> S754_nan
            /\ out = promptTranscript msg (floatError lo hi) rej)
  /\ (promptFloat toFloat msg lo hi inp = None
      <-> Forall (fun r => F32.geb (toFloat (trim r)) lo
                           && F32.leb (toFloat (trim r)) hi = false) inp).
Proof.
  assert (Hp : forall r,
             (let v := toFloat (trim r) in
              if F32.geb v lo && F32.leb v hi then Some v else None) = None
             <-> F32.geb (toFloat (trim r)) lo
                 && F32.leb (toFloat (trim r)) hi = false).
  { intros r. cbv zeta. destruct (_ && _); split; congruence. }
  split.
  - intros v inp' out. unfold promptFloat. rewrite promptUntil_spec.
    split.
    + intros (rej & l & -> & Hrej & Hl & ->). exists rej, l.
      cbv zeta in Hl.
      destruct (F32.geb (toFloat (trim l)) lo
                && F32.leb (toFloat (trim l)) hi) eqn:E; [|discriminate].
      injection Hl as <-. apply andb_true_iff in E as [E1 E2].
      repeat split; auto.
      * eapply Forall_impl; [exact Hrej|]. intros r Hr. now apply Hp.
      * intros Hn. rewrite Hn in E2. destruct hi; discriminate.
    + intros (rej & l & -> & Hrej & -> & H1 & H2 & _ & ->). exists rej, l.
      repeat split; auto.
      * eapply Forall_impl; [exact Hrej|]. intros r Hr. now apply Hp.
      * cbv zeta. now rewrite H1, H2.
  - unfold promptFloat. rewrite promptUntil_blocks.
    split; intros H; (eapply Forall_impl; [exact H|]); intros r Hr;
      now apply Hp.
Qed.
End Prompts.

(** X3. [promptDirection] reads lines until one is, once trimmed and put
    in upper case, exactly [F] or [B]; it returns [true] for [F] and
    [false] for [B], and answers every other line with "Enter F or B". *)
Theorem promptDirection_spec (inp : list string) :
  let accepted l := toUpperCase (trim l) = "F"%string
                    \/ toUpperCase (trim l) = "B"%string in
  (forall b inp' out,
      promptDirection inp = Some (b, inp', out)
      <-> exists rej l,
            inp = rej ++ l :: inp'
            /\ Forall (fun r => ~ accepted r) rej
            /\ toUpperCase (trim l) = (if b then "F" else "B")%string
            /\ out = promptTranscript "  Direction (F=forward, B=backward) > "
                       (println (Txt "  ! Enter F or B.")) rej)
  /\ (promptDirection inp = None <-> Forall (fun r => ~ accepted r) inp).
Proof.
  intros accepted.
  assert (Hp : forall r,
             (let s := toUpperCase (trim r) in
              if String.eqb s "F" then Some true
              else if String.eqb s "B" then Some false else None) = None
             <-> ~ accepted r).
  { intros r. cbv zeta. unfold accepted.
    destruct (String.eqb_spec (toUpperCase (trim r)) "F") as [->|H1].
    - split; [discriminate|]. intros H. exfalso. apply H. now left.
    - destruct (String.eqb_spec (toUpperCase (trim r)) "B") as [->|H2].
      + split; [discriminate|]. intros H. exfalso. apply H. now right.
      + split; [|reflexivity]. intros _ [H|H]; contradiction. }
  assert (Hq : forall l b,
             (let s := toUpperCase (trim l) in
              if String.eqb s "F" then Some true
              else if String.eqb s "B" then Some false else None) = Some b
             <-> toUpperCase (trim l) = (if b then "F" else "B")%string).
  { intros l b. cbv zeta.
    destruct (String.eqb_spec (toUpperCase (trim l)) "F") as [->|H1].
    - destruct b; split; congruence.
    - destruct (String.eqb_spec (toUpperCase (trim l)) "B") as [->|H2].
      + destruct b; split; congruence.
      + destruct b; split; congruence. }
  split.
  - intros b inp' out. unfold promptDirection. rewrite promptUntil_spec.
    split; intros (rej & l & -> & Hrej & Hl & ->); exists rej, l;
      repeat split; auto;
      try (eapply Forall_impl; [exact Hrej|]; intros r Hr; now apply Hp);
      now apply Hq.
  - unfold promptDirection. rewrite promptUntil_blocks.
    split; intros H; (eapply Forall_impl; [exact H|]); intros r Hr;
      now apply Hp.
Qed.

(** * Speeds of at least one step per second *)

(** The numbers above zero, the positive infinity included. *)
Definition positive_float (v : float) : bool :=
  match v with
  | S754_finite false _ _ | S754_infinity false => true
  | _ => false
  end.

Lemma geb_one_positive (v : float) :
  F32.leb F32.one v = true -> positive_float v = true.
Proof.
  destruct v as [[]|[]| |[] m e]; try reflexivity; intros H;
    vm_compute in H; discriminate H.
Qed.

Lemma SFcompare_refl (v : float) :
  v <> S754_nan -> SFcompare v v = Some Eq.
Proof.
  destruct v as [[]|[]| |[] m e]; try reflexivity; try congruence; intros _;
    simpl; rewrite Z.compare_refl, Pos.compare_cont_refl; reflexivity.
Qed.

(** [==] on numbers other than zeros is equality of the encodings. *)
Lemma eqb_nonzero_eq (x y : float) :
  F32.eqb x y = true ->
  match y with S754_zero _ => False | _ => True end ->
  x = y.
Proof.
  unfold F32.eqb, SFeqb.
  destruct x as [[]|[]| |[] mx ex], y as [[]|[]| |[] my ey]; simpl;
    try discriminate; try reflexivity; try contradiction; intros H _;
    destruct (Z.compare_spec ex ey) as [->|?|?]; try discriminate;
    destruct (Pos.compare_cont Eq mx my) eqn:E; try discriminate;
    apply Pos.compare_eq in E; now subst.
Qed.

Lemma positive_nonzero (v : float) :
  positive_float v = true ->
  match v with S754_zero _ => False | _ => True end
  /\ match F32.neg v with S754_zero _ => False | _ => True end.
Proof. destruct v as [[]|[]| |[] m e]; try discriminate; split; exact I. Qed.

Lemma ltb_leb (x y : float) : F32.ltb x y = true -> F32.leb x y = true.
Proof.
  unfold F32.ltb, F32.leb, SFltb, SFleb.
  destruct (SFcompare x y) as [[]|]; congruence.
Qed.

Lemma max_geb_one (v : float) : F32.leb F32.one (F32.max v F32.one) = true.
Proof.
  unfold F32.max, F32.gtb. fold (F32.ltb F32.one v).
  destruct (F32.ltb F32.one v) eqn:E; [now apply ltb_leb | reflexivity].
Qed.

(** The speed [computeSpeed] returns is never under 1 step/s, and never a
    NaN, as soon as the start speed is at least 1. *)
Lemma computeSpeed_geb_one (fw : Firmware) (n : Z) :
  F32.leb F32.one (g_start_speed fw) = true ->
  F32.leb F32.one (computeSpeed fw n) = true.
Proof.
  intros H. unfold computeSpeed.
  destruct (_ || _); [exact H | apply max_geb_one].
Qed.

(** What the stepper calls of the motion service do with a speed [v] of at
    least 1: the limit becomes [v], the speed [v] or [-v], and a step that
    is due moves the position by one that way. *)
Lemma drive_positive (due fwd : bool) (v : float) (s : AccelStepper) :
  positive_float v = true ->
  Stepper.runSpeed due
    (Stepper.setSpeed (if fwd then v else F32.neg v)
       (Stepper.setMaxSpeed v s))
  = {| currentPos :=
         if due
         then wrap_long (if fwd then currentPos s + 1 else currentPos s - 1)
         else currentPos s;
       speed := if fwd then v else F32.neg v;
       maxSpeed := v;
       outputs := outputs s;
       pulses := if due then pulses s + 1 else pulses s |}.
Proof.
  intros Hv.
  destruct (positive_nonzero v Hv) as [Hnz Hnz'].
  assert (Habs : (if F32.ltb v F32.zero then F32.neg v else v) = v).
  { destruct v as [[]|[]| |[] m e]; try discriminate; reflexivity. }
  assert (Hmax : Stepper.setMaxSpeed v s
                 = {| currentPos := currentPos s; speed := speed s;
                      maxSpeed := v; outputs := outputs s;
                      pulses := pulses s |}).
  { unfold Stepper.setMaxSpeed. rewrite Habs.
    destruct (F32.eqb (maxSpeed s) v) eqn:E; [|reflexivity].
    apply eqb_nonzero_eq in E; [|exact Hnz]. rewrite <- E.
    destruct s; reflexivity. }
  rewrite Hmax. clear Hmax Habs.
  set (w := if fwd then v else F32.neg v).
  assert (Hw : match w with S754_zero _ => False | _ => True end)
    by (unfold w; destruct fwd; assumption).
  assert (Hc : Stepper.constrain w (F32.neg v) v = w).
  { unfold w, Stepper.constrain, F32.gtb, F32.ltb, SFltb.
    destruct fwd.
    - replace (SFcompare v (F32.neg v)) with (Some Gt)
        by (destruct v as [[]|[]| |[] m e]; try discriminate; reflexivity).
      rewrite SFcompare_refl; [reflexivity|].
      destruct v; try discriminate; congruence.
    - rewrite SFcompare_refl
        by (destruct v as [[]|[]| |[] m e]; try discriminate; simpl; congruence).
      replace (SFcompare v (F32.neg v)) with (Some Gt)
        by (destruct v as [[]|[]| |[] m e]; try discriminate; reflexivity).
      reflexivity. }
  assert (Hset : Stepper.setSpeed w
                   {| currentPos := currentPos s; speed := speed s;
                      maxSpeed := v; outputs := outputs s;
                      pulses := pulses s |}
                 = {| currentPos := currentPos s; speed := w;
                      maxSpeed := v; outputs := outputs s;
                      pulses := pulses s |}).
  { unfold Stepper.setSpeed. simpl. rewrite Hc.
    destruct (F32.eqb w (speed s)) eqn:E; [|reflexivity].
    assert (speed s = w); [|congruence].
    unfold F32.eqb, SFeqb in E.
    rewrite SFcompare_antisym in E.
    apply eqb_nonzero_eq; [|exact Hw].
    unfold F32.eqb, SFeqb.
    destruct (SFcompare (speed s) w) as [[]|]; simpl in E; congruence. }
  rewrite Hset. clear Hset Hc.
  unfold Stepper.runSpeed. simpl.
  replace (F32.eqb w F32.zero) with false
    by (unfold w; destruct fwd, v as [[]|[]| |[] m e]; try discriminate;
        reflexivity).
  replace (F32.gtb w F32.zero) with fwd
    by (unfold w; destruct fwd, v as [[]|[]| |[] m e]; try discriminate;
        reflexivity).
  destruct due; reflexivity.
Qed.

(** The motion service of a move whose start speed is at least 1. *)
Lemma service_moving (due : bool) (fw : Firmware) :
  g_moving fw = true ->
  F32.leb F32.one (g_start_speed fw) = true ->
  let v := computeSpeed fw (abs_long (currentPos (stepper fw))) in
  stepper (service due fw)
  = {| currentPos :=
         if due
         then wrap_long (if g_fwd fw then currentPos (stepper fw) + 1
                         else currentPos (stepper fw) - 1)
         else currentPos (stepper fw);
       speed := if g_fwd fw then v else F32.neg v;
       maxSpeed := v;
       outputs := outputs (stepper fw);
       pulses := if due then pulses (stepper fw) + 1
                 else pulses (stepper fw) |}.
Proof.
  intros Hm Hs v. unfold service. rewrite Hm. simpl.
  unfold Stepper.currentPosition. fold v.
  apply drive_positive, geb_one_positive.
  now apply computeSpeed_geb_one.
Qed.

(** * Steps that passed the prompts *)

(** The range checks [promptStep] applies to the fields it reads. *)
Definition stepInRange (st : Step) : bool :=
  (1 <=? distance st) && (distance st <=? 999999)
  && F32.geb (start_speed st) F32.one
  && F32.leb (start_speed st) ABS_MAX_SPEED
  && F32.geb (end_speed st) F32.one
  && F32.leb (end_speed st) ABS_MAX_SPEED
  && F32.geb (accel st) (F32.neg ABS_MAX_ACCEL)
  && F32.leb (accel st) ABS_MAX_ACCEL.

Lemma stepInRange_fields (st : Step) :
  stepInRange st = true ->
  1 <= distance st <= 999999
  /\ F32.leb F32.one (start_speed st) = true
  /\ F32.leb F32.one (end_speed st) = true.
Proof.
  unfold stepInRange. rewrite !andb_true_iff, Z.leb_le, Z.leb_le.
  unfold F32.geb. intuition.
Qed.

Lemma promptLong_range (msg : string) (lo hi v : Z)
    (inp inp' : list string) (out : list Tok) :
  promptLong msg lo hi inp = Some (v, inp', out) ->
  (v >=? lo) && (v <=? hi) = true.
Proof.
  unfold promptLong. intros H.
  apply promptUntil_spec in H as (rej & l & _ & _ & Hl & _).
  cbv zeta in Hl.
  destruct ((toInt (trim l) >=? lo) && (toInt (trim l) <=? hi)) eqn:E;
    [|discriminate].
  now injection Hl as <-.
Qed.

Section Accepted.
Variable toFloat : string -> float.

Lemma promptFloat_range (msg : string) (lo hi v : float)
    (inp inp' : list string) (out : list Tok) :
  promptFloat toFloat msg lo hi inp = Some (v, inp', out) ->
  F32.geb v lo && F32.leb v hi = true.
Proof.
  unfold promptFloat. intros H.
  apply promptUntil_spec in H as (rej & l & _ & _ & Hl & _).
  cbv zeta in Hl.
  destruct (F32.geb (toFloat (trim l)) lo && F32.leb (toFloat (trim l)) hi)
    eqn:E; [|discriminate].
  now injection Hl as <-.
Qed.

Lemma promptStep_stepInRange (inp inp' : list string) (st : Step)
    (out : list Tok) :
  promptStep toFloat inp = Some (st, inp', out) -> stepInRange st = true.
Proof.
  unfold promptStep, bind, ret.
  destruct (promptDirection inp) as [[[fwd i1] o1]|]; [|discriminate].
  destruct (promptLong _ 1 999999 i1) as [[[d i2] o2]|] eqn:Ed;
    [|discriminate].
  destruct (promptFloat toFloat _ F32.one ABS_MAX_SPEED i2)
    as [[[s i3] o3]|] eqn:Es; [|discriminate].
  destruct (promptFloat toFloat _ F32.one ABS_MAX_SPEED i3)
    as [[[e i4] o4]|] eqn:Ee; [|discriminate].
  destruct (promptFloat toFloat _ (F32.neg ABS_MAX_ACCEL) ABS_MAX_ACCEL i4)
    as [[[a i5] o5]|] eqn:Ea; [|discriminate].
  intros [= <- <- <-].
  apply promptLong_range in Ed. apply promptFloat_range in Es, Ee, Ea.
  apply andb_true_iff in Ed as [Ed1 Ed2]. rewrite Z.geb_leb in Ed1.
  apply andb_true_iff in Es as [Es1 Es2].
  apply andb_true_iff in Ee as [Ee1 Ee2].
  apply andb_true_iff in Ea as [Ea1 Ea2].
  unfold stepInRange. cbn [distance start_speed end_speed accel].
  now rewrite Ed1, Ed2, Es1, Es2, Ee1, Ee2, Ea1, Ea2.
Qed.

(** X4. A step returned by [promptStep] has passed every range check:
    a distance from 1 to 999999, start and end speeds from 1 to 1000 and an
    acceleration from -1000 to 1000, none of them a NaN; and at least five
    lines were read for it. *)
Theorem promptStep_in_range (inp inp' : list string) (st : Step)
    (out : list Tok) :
  promptStep toFloat inp = Some (st, inp', out) ->
  stepInRange st = true
  /\ start_speed st <> S754_nan /\ end_speed st <> S754_nan
  /\ accel st <> S754_nan
  /\ (length inp' + 5 <= length inp)%nat.
Proof.
  intros H. pose proof (promptStep_stepInRange _ _ _ _ H) as Hr.
  split; [exact Hr|].
  unfold stepInRange in Hr. rewrite !andb_true_iff in Hr.
  destruct Hr as [[[[[[_ Hs] _] He] _] Ha] _].
  repeat split; try (intros Hn; rewrite Hn in *; discriminate).
  revert H. unfold promptStep, bind, ret.
  repeat match goal with
         | |- context [promptUntil ?m ?p ?e ?i] =>
             let E := fresh "E" in
             destruct (promptUntil m p e i) as [[[? ?] ?]|] eqn:E;
             [apply promptUntil_shorter in E|discriminate]
         | |- context [promptDirection ?i] =>
             let E := fresh "E" in
             destruct (promptDirection i) as [[[? ?] ?]|] eqn:E;
             [apply promptUntil_shorter in E|discriminate]
         | |- context [promptLong ?m ?a ?b ?i] =>
             let E := fresh "E" in
             destruct (promptLong m a b i) as [[[? ?] ?]|] eqn:E;
             [apply promptUntil_shorter in E|discriminate]
         | |- context [promptFloat ?f ?m ?a ?b ?i] =>
             let E := fresh "E" in
             destruct (promptFloat f m a b i) as [[[? ?] ?]|] eqn:E;
             [apply promptUntil_shorter in E|discriminate]
         end.
  intros [= _ <- _]. lia.
Qed.
End Accepted.

Lemma promptStep_in_range_witness :
  stepInRange scenarioStep = true
  /\ start_speed scenarioStep <> S754_nan
  /\ end_speed scenarioStep <> S754_nan
  /\ accel scenarioStep <> S754_nan
  /\ (length (@nil string) + 5
      <= length ["F"; "100"; "10"; "50"; "5"]%string)%nat.
Proof.
  refine (promptStep_in_range demoToFloat
            ["F"; "100"; "10"; "50"; "5"]%string [] scenarioStep _ _).
  vm_compute. reflexivity.
Defined.

(** * Invariants of the firmware state *)

(** The program store: the array has its five cells, the count stays within
    them, and every listed step passed the prompts. *)
Definition StoreInv (fw : Firmware) : Prop :=
  length (program fw) = Z.to_nat MAX_STEPS
  /\ 0 <= programCount fw <= MAX_STEPS
  /\ Forall (fun st => stepInRange st = true) (listing fw).

(** The motion globals and the driver. *)
Record MotionInv (fw : Firmware) : Prop := {
  inv_moving : g_moving fw = isMoving (state fw);
  inv_outputs : outputs (stepper fw) = isMoving (state fw);
  inv_index : state fw = STATE_MOVING_PROG ->
              0 <= progStepIndex fw < programCount fw;
  inv_target : 0 <= g_target_dist fw <= 999999;
  inv_dist : Z.abs (currentPos (stepper fw)) <= g_target_dist fw;
  inv_move : isMoving (state fw) = true ->
             F32.leb F32.one (g_start_speed fw) = true
             /\ 0 <= (if g_fwd fw then currentPos (stepper fw)
                      else - currentPos (stepper fw))
                < g_target_dist fw
}.

Definition Inv (fw : Firmware) : Prop := StoreInv fw /\ MotionInv fw.

Lemma abs_long_small (x : Z) :
  -2147483648 < x < 2147483648 -> abs_long x = Z.abs x.
Proof.
  intros H. unfold abs_long, wrap_long, wrap_signed.
  change (2 ^ (32 - 1)) with 2147483648. change (2 ^ 32) with 4294967296.
  destruct (0 <? x) eqn:E; [apply Z.ltb_lt in E | apply Z.ltb_ge in E].
  - lia.
  - rewrite Z.mod_small by lia. lia.
Qed.

Lemma wrap_long_small (x : Z) :
  -2147483648 <= x < 2147483648 -> wrap_long x = x.
Proof.
  intros H. unfold wrap_long, wrap_signed.
  change (2 ^ (32 - 1)) with 2147483648. change (2 ^ 32) with 4294967296.
  rewrite Z.mod_small by lia. lia.
Qed.

Lemma setSpeed_currentPos (v : float) (s : AccelStepper) :
  currentPos (Stepper.setSpeed v s) = currentPos s.
Proof. unfold Stepper.setSpeed. now destruct (F32.eqb v (speed s)). Qed.

Lemma service_eq (due : bool) (fw : Firmware) :
  service due fw = with_stepper (stepper (service due fw)) fw.
Proof. unfold service. destruct (g_moving fw), fw; reflexivity. Qed.

Lemma with_state_id (fw : Firmware) (s : State) :
  state fw = s -> with_state s fw = fw.
Proof. intros <-. destruct fw; reflexivity. Qed.

Lemma length_shiftDown (n i : nat) (prog : list Step) :
  length (shiftDown n i prog) = length prog.
Proof.
  revert i prog. induction n as [|n IH]; intros i prog; [reflexivity|].
  simpl. rewrite IH. destruct (prog !! S i); [apply length_insert|reflexivity].
Qed.

(** The listing after the editor's [A] and [D n]. *)
Lemma listing_add (fw : Firmware) (st : Step) :
  length (program fw) = Z.to_nat MAX_STEPS ->
  0 <= programCount fw < MAX_STEPS ->
  listing (with_store (<[Z.to_nat (programCount fw) := st]> (program fw))
             (wrap_u8 (programCount fw + 1)) fw)
  = listing fw ++ [st].
Proof.
  intros Hlen Hc. unfold listing, wrap_u8, MAX_STEPS in *. simpl.
  rewrite Z.mod_small by lia.
  replace (Z.to_nat (programCount fw + 1))
    with (S (Z.to_nat (programCount fw))) by lia.
  rewrite (take_S_r _ _ st)
    by (rewrite list_lookup_insert_eq; [reflexivity | lia]).
  now rewrite take_insert_ge by lia.
Qed.

Lemma listing_delete (fw : Firmware) (idx : Z) :
  length (program fw) = Z.to_nat MAX_STEPS ->
  programCount fw <= MAX_STEPS ->
  0 <= idx < programCount fw ->
  listing (with_store
             (shiftDown (Z.to_nat (programCount fw - 1 - idx))
                (Z.to_nat idx) (program fw))
             (wrap_u8 (programCount fw - 1)) fw)
  = delete (Z.to_nat idx) (listing fw).
Proof.
  intros Hlen Hc Hi. unfold listing, wrap_u8, MAX_STEPS in *. simpl.
  rewrite Z.mod_small by lia.
  replace (Z.to_nat (programCount fw - 1))
    with (Z.to_nat (programCount fw) - 1)%nat by lia.
  replace (Z.to_nat (programCount fw - 1 - idx))
    with (Z.to_nat (programCount fw) - 1 - Z.to_nat idx)%nat by lia.
  apply listing_shiftDown. lia.
Qed.

Lemma add_StoreInv (fw : Firmware) (st : Step) :
  StoreInv fw -> programCount fw < MAX_STEPS -> stepInRange st = true ->
  StoreInv (with_store (<[Z.to_nat (programCount fw) := st]> (program fw))
              (wrap_u8 (programCount fw + 1)) fw).
Proof.
  intros (Hlen & Hc & Hst) Hlt Hr. split; [|split].
  - simpl. now rewrite length_insert.
  - simpl. unfold wrap_u8, MAX_STEPS in *. rewrite Z.mod_small; lia.
  - rewrite listing_add by (auto; lia).
    apply Forall_app. split; [exact Hst|]. now constructor.
Qed.

Lemma delete_StoreInv (fw : Firmware) (idx : Z) :
  StoreInv fw -> 0 <= idx < programCount fw ->
  StoreInv (with_store
              (shiftDown (Z.to_nat (programCount fw - 1 - idx))
                 (Z.to_nat idx) (program fw))
              (wrap_u8 (programCount fw - 1)) fw).
Proof.
  intros (Hlen & Hc & Hst) Hi. split; [|split].
  - simpl. now rewrite length_shiftDown.
  - simpl. unfold wrap_u8, MAX_STEPS in *. rewrite Z.mod_small; lia.
  - rewrite listing_delete by (auto; lia). now apply Forall_delete.
Qed.

Lemma clear_StoreInv (fw : Firmware) :
  StoreInv fw -> StoreInv (with_store (program fw) 0 fw).
Proof.
  intros (Hlen & Hc & Hst). split; [exact Hlen|]. split.
  - simpl. unfold MAX_STEPS. lia.
  - unfold listing. simpl. constructor.
Qed.

(** A stored step read by its index. *)
Lemma program_at_listed (fw : Firmware) (i : Z) :
  StoreInv fw -> 0 <= i < programCount fw ->
  listing fw !! Z.to_nat i = Some (program_at fw i)
  /\ stepInRange (program_at fw i) = true.
Proof.
  intros (Hlen & Hc & Hst) Hi. unfold MAX_STEPS in *.
  destruct (lookup_lt_is_Some_2 (program fw) (Z.to_nat i)) as [st Hs];
    [lia|].
  assert (Hl : listing fw !! Z.to_nat i = Some st).
  { unfold listing. rewrite lookup_take_lt by lia. exact Hs. }
  unfold program_at. rewrite Hs. simpl. split; [exact Hl|].
  exact (proj1 (Forall_lookup _ _) Hst _ _ Hl).
Qed.

(** Starting a move of a step that passed the prompts. *)
Lemma start_MotionInv (fw0 : Firmware) (st : Step) (s : State) :
  stepInRange st = true ->
  isMoving s = true ->
  (s = STATE_MOVING_PROG -> 0 <= progStepIndex fw0 < programCount fw0) ->
  MotionInv
    (with_state s
       (startStep st
          (with_stepper (Stepper.enableOutputs (stepper fw0)) fw0))).
Proof.
  intros Hr Hs Hi.
  destruct (stepInRange_fields st Hr) as (Hd & Hss & _).
  set (fw1 := with_stepper (Stepper.enableOutputs (stepper fw0)) fw0).
  destruct (startStep_fields st fw1) as (Fo & _ & Fi & Fc & _ & _ & _ & Fp).
  subst fw1. simpl in Fo, Fp.
  constructor; simpl; rewrite ?Hs, ?Fo, ?Fp; auto.
  - lia.
  - simpl. lia.
  - intros _. split; [now rewrite max_one_id|].
    destruct (forward st); simpl; lia.
Qed.

Lemma start_StoreInv (fw0 : Firmware) (st : Step) (s : State) :
  StoreInv fw0 ->
  StoreInv
    (with_state s
       (startStep st
          (with_stepper (Stepper.enableOutputs (stepper fw0)) fw0))).
Proof. intros H. exact H. Qed.

Section Invariant.
Variable toFloat : string -> float.

Lemma editorCommand_StoreInv (fw fw' : Firmware) (b : bool)
    (inp inp' : list string) (out : list Tok) :
  StoreInv fw ->
  editorCommand toFloat fw inp = Some ((b, fw'), inp', out) ->
  StoreInv fw'.
Proof.
  intros Hinv. unfold editorCommand, bind, print, readLineBlocking, ret.
  destruct inp as [|l rest]; [discriminate|].
  repeat case_match; intros; simplify_eq; try exact Hinv.
  - apply add_StoreInv; [exact Hinv| |].
    + match goal with H : (_ >=? _) = false |- _ =>
        rewrite Z.geb_leb in H; apply Z.leb_gt in H; exact H end.
    + match goal with H : promptStep _ _ = Some _ |- _ =>
        exact (promptStep_stepInRange _ _ _ _ _ H) end.
  - apply delete_StoreInv; [exact Hinv|].
    match goal with H : (_ <? 0) || (_ >=? _) = false |- _ =>
      apply orb_false_iff in H as [H1 H2];
      apply Z.ltb_ge in H1; rewrite Z.geb_leb in H2; apply Z.leb_gt in H2
    end.
    lia.
Qed.

Lemma editor_StoreInv (fuel : nat) (fw fw' : Firmware)
    (inp inp' : list string) (out : list Tok) :
  StoreInv fw ->
  editor toFloat fuel fw inp = Some (fw', inp', out) ->
  StoreInv fw'.
Proof.
  revert fw inp out. induction fuel as [|fuel IH]; intros fw inp out Hinv;
    [discriminate|].
  simpl. unfold bind at 1.
  destruct (editorCommand toFloat fw inp) as [[[[b fw1] inp1] out1]|] eqn:E;
    [|discriminate].
  apply (editorCommand_StoreInv _ _ _ _ _ _ Hinv) in E. simpl.
  destruct b.
  - destruct (editor toFloat fuel fw1 inp1) as [[[fw2 inp2] out2]|] eqn:E2;
      [|discriminate].
    intros [= <- <- <-]. exact (IH _ _ _ E E2).
  - unfold ret. intros [= <- <- <-]. exact E.
Qed.

(** The motion invariant is about the fields the editor leaves alone. *)
Lemma store_MotionInv (fw : Firmware) (p : list Step) (n : Z) :
  MotionInv fw -> state fw = STATE_IDLE -> MotionInv (with_store p n fw).
Proof.
  intros [] Hs. constructor; simpl; auto. rewrite Hs. discriminate.
Qed.

Lemma command_Inv (cmd : string) (fw fw' : Firmware)
    (inp inp' : list string) (out : list Tok) :
  Inv fw -> state fw = STATE_IDLE ->
  command toFloat cmd fw inp = Some (fw', inp', out) ->
  Inv fw'.
Proof.
  intros [HS HM] Hs. unfold command, bind, print, ret.
  repeat case_match; intros; simplify_eq; try (split; assumption).
  - (* M *)
    split; [exact HS|]. apply start_MotionInv; [|reflexivity|discriminate].
    match goal with H : promptStep _ _ = Some _ |- _ =>
      exact (promptStep_stepInRange _ _ _ _ _ H) end.
  - (* P *)
    match goal with H : editor _ _ _ _ = Some _ |- _ =>
      pose proof (editor_StoreInv _ _ _ _ _ _ HS H) as HS';
      apply editor_store in H as Heq end.
    split; [exact HS'|]. rewrite Heq. now apply store_MotionInv.
  - (* R *)
    split; [exact HS|].
    assert (Hc : 0 < programCount fw).
    { destruct HS as (_ & Hc & _).
      match goal with H : (_ =? 0) = false |- _ => apply Z.eqb_neq in H end.
      lia. }
    apply (start_MotionInv (with_progStepIndex 0 fw));
      [|reflexivity|intros _; simpl; lia].
    apply (program_at_listed (with_progStepIndex 0 fw) 0); [exact HS|].
    simpl. lia.
  - (* C *)
    split; [now apply clear_StoreInv | now apply store_MotionInv].
Qed.

(** One call of [loop()] keeps the invariants. *)
Lemma loop_Inv (due : bool) (fw fw' : Firmware)
    (inp inp' : list string) (out : list Tok) :
  Inv fw ->
  loop toFloat due fw inp = Some (fw', inp', out) ->
  Inv fw'.
Proof.
  intros [HS HM]. unfold loop.
  destruct (isMoving (state fw)) eqn:Emov.
  - (* a move is running *)
    pose proof (inv_moving _ HM) as Hg. rewrite Emov in Hg.
    destruct (inv_move _ HM Emov) as [Hsp Hpos].
    pose proof (inv_target _ HM) as Ht.
    pose proof (service_moving due fw Hg Hsp) as Hst. cbv zeta in Hst.
    rewrite (service_eq due fw). rewrite Hst. clear Hst.
    set (v := computeSpeed fw (abs_long (currentPos (stepper fw)))).
    set (p1 := if due
               then wrap_long (if g_fwd fw then currentPos (stepper fw) + 1
                               else currentPos (stepper fw) - 1)
               else currentPos (stepper fw)).
    assert (Hp1 : 0 <= (if g_fwd fw then p1 else - p1) <= g_target_dist fw).
    { unfold p1. destruct due; [|destruct (g_fwd fw); lia].
      rewrite wrap_long_small by (destruct (g_fwd fw); lia).
      destruct (g_fwd fw); lia. }
    cbn [state with_stepper]. rewrite Emov.
    unfold moveDone. cbn [stepper with_stepper currentPos g_target_dist].
    unfold Stepper.currentPosition. cbn [currentPos].
    rewrite abs_long_small by (destruct (g_fwd fw); lia).
    destruct (Z.abs p1 >=? g_target_dist fw) eqn:Edone.
    + (* done *)
      unfold complete, bind, print, ret. cbn.
      destruct (state fw) eqn:Est; [discriminate| |].
      * intros [= <- <- <-]. split; [exact HS|].
        constructor; cbn; auto; try discriminate.
        destruct (g_fwd fw); lia.
      * destruct (wrap_u8 (progStepIndex fw + 1) <? programCount fw) eqn:Enext.
        -- intros [= <- <- <-].
           pose proof (inv_index _ HM Est) as Hi.
           destruct HS as (Hlen & Hc & Hsteps). unfold MAX_STEPS in Hc.
           apply Z.ltb_lt in Enext. unfold wrap_u8 in Enext.
           rewrite Z.mod_small in Enext by lia.
           split; [split; [exact Hlen | split; [exact Hc | exact Hsteps]]|].
           match goal with |- MotionInv (startStep ?st (with_stepper _ ?f0)) =>
             rewrite <- (with_state_id (startStep st _) STATE_MOVING_PROG)
               by (cbn; exact Est);
             apply (start_MotionInv f0 st STATE_MOVING_PROG)
           end.
           ++ apply program_at_listed.
              ** split; [exact Hlen | split; [exact Hc | exact Hsteps]].
              ** cbn. unfold wrap_u8. rewrite Z.mod_small by lia. lia.
           ++ reflexivity.
           ++ intros _. cbn. unfold wrap_u8. rewrite Z.mod_small by lia. lia.
        -- intros [= <- <- <-]. split; [exact HS|].
           constructor; cbn; auto; try discriminate.
           destruct (g_fwd fw); lia.
    + (* not done *)
      rewrite Z.geb_leb in Edone. apply Z.leb_gt in Edone.
      assert (HM1 : MotionInv
                      (with_stepper
                         {| currentPos := p1;
                            speed := if g_fwd fw then v else F32.neg v;
                            maxSpeed := v;
                            outputs := outputs (stepper fw);
                            pulses := if due then pulses (stepper fw) + 1
                                      else pulses (stepper fw) |} fw)).
      { destruct HM. constructor; cbn; auto; try lia.
        intros _. split; [exact Hsp|]. destruct (g_fwd fw); lia. }
      unfold bind, readLineIfAvailable, ret.
      destruct inp as [|l rest]; [intros [= <- <- <-]; now split|].
      destruct (String.eqb (toUpperCase (trim l)) "X").
      * unfold abort, bind, print, ret. cbn. intros [= <- <- <-].
        split; [exact HS|].
        constructor; cbn; rewrite ?setSpeed_currentPos; cbn; auto;
          try discriminate; try lia.
      * intros [= <- <- <-]. now split.
  - (* idle *)
    assert (Hidle : state fw = STATE_IDLE)
      by (destruct (state fw); auto; discriminate).
    pose proof (inv_moving _ HM) as Hg. rewrite Emov in Hg.
    rewrite (service_idle due fw Hg), Emov.
    unfold bind, readLineIfAvailable, ret.
    destruct inp as [|l rest]; [intros [= <- <- <-]; now split|].
    destruct (command toFloat (toUpperCase (trim l)) fw rest)
      as [[[f i] o]|] eqn:Ec; [|discriminate].
    intros [= <- <- <-].
    exact (command_Inv _ _ _ _ _ _ (conj HS HM) Hidle Ec).
Qed.

Lemma setup_Inv : Inv (fst setup).
Proof.
  split.
  - split; [reflexivity|]. split; [vm_compute; split; discriminate|].
    constructor.
  - constructor; cbn; auto; try discriminate; try lia.
Qed.

Lemma reachable_Inv (fw : Firmware) : reachable toFloat fw -> Inv fw.
Proof.
  induction 1 as [|fw due inp fw' inp' out _ IH Hl].
  - exact setup_Inv.
  - exact (loop_Inv _ _ _ _ _ _ IH Hl).
Qed.
End Invariant.

Section Reachable.
Variable toFloat : string -> float.

(** X5. In every state reachable from [setup()] the [program] array has
    its five cells and [programCount] is between 0 and 5, so the listing has
    [programCount] entries; and while a stored program runs,
    [progStepIndex] is below [programCount]: [program[progStepIndex]] is a
    listed step, never a cell past the end. *)
Theorem store_within_bounds (fw : Firmware) :
  reachable toFloat fw ->
  length (program fw) = Z.to_nat MAX_STEPS
  /\ 0 <= programCount fw <= MAX_STEPS
  /\ length (listing fw) = Z.to_nat (programCount fw)
  /\ (state fw = STATE_MOVING_PROG ->
      0 <= progStepIndex fw < programCount fw
      /\ listing fw !! Z.to_nat (progStepIndex fw)
         = Some (program_at fw (progStepIndex fw))).
Proof.
  intros Hr. destruct (reachable_Inv toFloat fw Hr) as [HS HM].
  pose proof HS as (Hlen & Hc & _).
  split; [exact Hlen|]. split; [exact Hc|]. split.
  - unfold listing. rewrite length_take. unfold MAX_STEPS in *. lia.
  - intros Hs. pose proof (inv_index _ HM Hs) as Hi.
    split; [exact Hi|]. exact (proj1 (program_at_listed fw _ HS Hi)).
Qed.

(** X6. Every step in the stored program of a reachable state passed the
    range checks of the prompts, whatever additions and deletions led to
    it; so did the step a running program is executing. *)
Theorem stored_steps_in_range (fw : Firmware) :
  reachable toFloat fw ->
  Forall (fun st => stepInRange st = true) (listing fw)
  /\ (state fw = STATE_MOVING_PROG ->
      stepInRange (program_at fw (progStepIndex fw)) = true).
Proof.
  intros Hr. destruct (reachable_Inv toFloat fw Hr) as [HS HM].
  split; [exact (proj2 (proj2 HS))|].
  intros Hs. exact (proj2 (program_at_listed fw _ HS (inv_index _ HM Hs))).
Qed.

(** X7. In every reachable state [g_moving] is set exactly when [state] is
    one of the two moving states, and the driver outputs are enabled
    exactly then: the motor is serviced on every tick of a move and its
    coils are off whenever the session is idle. *)
Theorem moving_flag_matches_state (fw : Firmware) :
  reachable toFloat fw ->
  g_moving fw = isMoving (state fw)
  /\ outputs (stepper fw) = isMoving (state fw).
Proof.
  intros Hr. destruct (reachable_Inv toFloat fw Hr) as [_ HM].
  split; [exact (inv_moving _ HM) | exact (inv_outputs _ HM)].
Qed.

(** X8. The motor never travels past the target: in every reachable state
    the absolute position is at most [g_target_dist], which is at most
    999999; while a move runs it is strictly below the target, and the
    position has the sign of the direction of the move. *)
Theorem position_within_target (fw : Firmware) :
  reachable toFloat fw ->
  abs_long (currentPos (stepper fw)) <= g_target_dist fw
  /\ g_target_dist fw <= 999999
  /\ (isMoving (state fw) = true ->
      abs_long (currentPos (stepper fw)) < g_target_dist fw
      /\ currentPos (stepper fw)
         = if g_fwd fw then abs_long (currentPos (stepper fw))
           else - abs_long (currentPos (stepper fw))).
Proof.
  intros Hr. destruct (reachable_Inv toFloat fw Hr) as [_ HM].
  pose proof (inv_target _ HM) as Ht. pose proof (inv_dist _ HM) as Hd.
  rewrite abs_long_small by lia.
  split; [exact Hd|]. split; [lia|].
  intros Hmov. destruct (inv_move _ HM Hmov) as [_ Hp].
  destruct (g_fwd fw); lia.
Qed.

(** X9. On a tick of a running move the motion service commands the speed
    [computeSpeed] returns, which is at least 1 step/s, with the sign of
    the direction, unclipped by the driver's limit; if a step is due it
    makes exactly one step, away from the start, and otherwise none. *)
Theorem moving_tick_steps (fw : Firmware) (due : bool) :
  reachable toFloat fw ->
  isMoving (state fw) = true ->
  let v := computeSpeed fw (abs_long (currentPos (stepper fw))) in
  let s' := stepper (service due fw) in
  F32.leb F32.one v = true
  /\ speed s' = (if g_fwd fw then v else F32.neg v)
  /\ maxSpeed s' = v
  /\ pulses s' = pulses (stepper fw) + (if due then 1 else 0)
  /\ currentPos s'
     = currentPos (stepper fw)
       + (if due then (if g_fwd fw then 1 else -1) else 0)
  /\ abs_long (currentPos s')
     = abs_long (currentPos (stepper fw)) + (if due then 1 else 0).
Proof.
  intros Hr Hmov v s'. destruct (reachable_Inv toFloat fw Hr) as [_ HM].
  pose proof (inv_moving _ HM) as Hg. rewrite Hmov in Hg.
  destruct (inv_move _ HM Hmov) as [Hsp Hpos].
  pose proof (inv_target _ HM) as Ht.
  pose proof (service_moving due fw Hg Hsp) as Hst. cbv zeta in Hst.
  unfold s'. rewrite Hst. fold v. cbn [speed maxSpeed pulses currentPos].
  split; [now apply computeSpeed_geb_one|].
  split; [reflexivity|]. split; [reflexivity|].
  split; [destruct due; lia|].
  assert (Hp : (if due
                then wrap_long (if g_fwd fw then currentPos (stepper fw) + 1
                                else currentPos (stepper fw) - 1)
                else currentPos (stepper fw))
               = currentPos (stepper fw)
                 + (if due then if g_fwd fw then 1 else -1 else 0)).
  { destruct due; [|lia].
    rewrite wrap_long_small by (destruct (g_fwd fw); lia).
    destruct (g_fwd fw); lia. }
  rewrite Hp. split; [reflexivity|].
  rewrite !abs_long_small by (destruct due, (g_fwd fw); lia).
  destruct due, (g_fwd fw); lia.
Qed.

(** X10. A move is done on the tick that makes its last step and on no
    other: [done] holds after the motion service exactly when a step was
    due and the position was one short of the target, and the position is
    then the target distance itself, in the direction of the move. *)
Theorem move_done_at_distance (fw : Firmware) (due : bool) :
  reachable toFloat fw ->
  isMoving (state fw) = true ->
  (moveDone (service due fw) = true
   <-> due = true
       /\ abs_long (currentPos (stepper fw)) + 1 = g_target_dist fw)
  /\ (moveDone (service due fw) = true ->
      currentPos (stepper (service due fw))
      = if g_fwd fw then g_target_dist fw else - g_target_dist fw).
Proof.
  intros Hr Hmov. destruct (reachable_Inv toFloat fw Hr) as [_ HM].
  pose proof (inv_moving _ HM) as Hg. rewrite Hmov in Hg.
  destruct (inv_move _ HM Hmov) as [Hsp Hpos].
  pose proof (inv_target _ HM) as Ht.
  pose proof (service_moving due fw Hg Hsp) as Hst. cbv zeta in Hst.
  destruct (service_store due fw) as (_ & _ & _ & _ & _ & Htd).
  unfold moveDone, Stepper.currentPosition. rewrite Htd, Hst.
  cbn [currentPos]. rewrite Z.geb_le.
  pose proof (inv_dist _ HM) as Hdist.
  rewrite (abs_long_small (currentPos (stepper fw))) by lia.
  revert Hpos. destruct (g_fwd fw), due; intros Hpos;
    rewrite ?wrap_long_small by lia; rewrite abs_long_small by lia;
    (split; [split|]); try lia; intros [Hd ?]; try discriminate Hd; lia.
Qed.

(** X11. While a move runs [loop()] never waits for input: every call
    returns, having read no line when the move is done on that tick and at
    most one line otherwise. *)
Theorem moving_loop_returns (fw : Firmware) (due : bool) (inp : list string) :
  isMoving (state fw) = true ->
  exists fw' out,
    loop toFloat due fw inp
    = Some (fw', (if moveDone (service due fw) then inp else tail inp), out).
Proof.
  intros Hmov. destruct (service_store due fw) as (_ & _ & Hs & _).
  unfold loop. rewrite Hs, Hmov.
  destruct (moveDone (service due fw)).
  - unfold complete, bind, print, ret. cbn.
    repeat case_match; eexists _, _; reflexivity.
  - unfold bind, readLineIfAvailable, abort, bind, print, ret.
    destruct inp as [|l rest]; [eexists _, _; reflexivity|].
    destruct (String.eqb _ _); eexists _, _; reflexivity.
Qed.
End Reachable.

(** The manual move of one step forward, as started from the console. *)
Definition oneStepLines : list string :=
  ["M"; "F"; "1"; "10"; "50"; "5"]%string.

Definition movingOne : Firmware :=
  with_state STATE_MOVING_MANUAL
    (startStep stepA
       (with_stepper (Stepper.enableOutputs (stepper (fst setup))) (fst setup))).

Lemma movingOne_started :
  exists out, loop demoToFloat false (fst setup) oneStepLines
              = Some (movingOne, [], out).
Proof. eexists. vm_compute. reflexivity. Qed.

Lemma movingOne_reachable : reachable demoToFloat movingOne.
Proof.
  destruct movingOne_started as [out H].
  exact (reach_loop demoToFloat _ _ _ _ _ _ (reach_setup demoToFloat) H).
Qed.

(** The console session that enters the two steps of [twoSteps]. *)
Definition twoStepsLines : list string :=
  ["P"; "A"; "F"; "1"; "10"; "50"; "5";
   "A"; "B"; "1"; "20"; "20"; "0"; "Q"]%string.

Lemma twoSteps_entered :
  exists out, loop demoToFloat false (fst setup) twoStepsLines
              = Some (twoSteps, [], out).
Proof. eexists. vm_compute. reflexivity. Qed.

Lemma twoSteps_reachable : reachable demoToFloat twoSteps.
Proof.
  destruct twoSteps_entered as [out H].
  exact (reach_loop demoToFloat _ _ _ _ _ _ (reach_setup demoToFloat) H).
Qed.

Lemma running0_reachable : reachable demoToFloat running0.
Proof.
  destruct running0_reached as [out H].
  exact (reach_loop demoToFloat _ _ _ _ _ _ twoSteps_reachable H).
Qed.

(** The state once the first step of the program of [running0] is done
    and the second one started. *)
Definition running1 : Firmware :=
  match loop demoToFloat true running0 [] with
  | Some (fw, _, _) => fw
  | None => running0
  end.

Lemma running1_reachable : reachable demoToFloat running1.
Proof.
  assert (H : exists out, loop demoToFloat true running0 []
                          = Some (running1, [], out))
    by (eexists; vm_compute; reflexivity).
  destruct H as [out H].
  exact (reach_loop demoToFloat _ _ _ _ _ _ running0_reachable H).
Qed.

Lemma store_within_bounds_witness :
  state running1 = STATE_MOVING_PROG
  /\ listing running1 = [stepA; stepB]
  /\ length (program running1) = 5%nat
  /\ 0 <= programCount running1 <= 5
  /\ length (listing running1) = 2%nat
  /\ 0 <= progStepIndex running1 < programCount running1
  /\ progStepIndex running1 = 1
  /\ listing running1 !! 1%nat = Some (program_at running1 1).
Proof.
  destruct (store_within_bounds demoToFloat running1 running1_reachable)
    as (H1 & H2 & H3 & H4).
  destruct (H4 eq_refl) as [H5 H6].
  repeat split; try reflexivity; try assumption; try apply H2; apply H5.
Defined.

Lemma stored_steps_in_range_witness :
  state running1 = STATE_MOVING_PROG
  /\ Forall (fun st => stepInRange st = true) [stepA; stepB]
  /\ stepInRange stepB = true.
Proof.
  destruct (stored_steps_in_range demoToFloat running1 running1_reachable)
    as [H1 H2].
  split; [reflexivity|]. split; [exact H1 | exact (H2 eq_refl)].
Defined.

Lemma moving_flag_matches_state_witness :
  g_moving movingOne = true /\ outputs (stepper movingOne) = true.
Proof.
  apply (moving_flag_matches_state demoToFloat movingOne movingOne_reachable).
Defined.

Lemma position_within_target_witness :
  abs_long (currentPos (stepper movingOne)) <= g_target_dist movingOne
  /\ g_target_dist movingOne <= 999999
  /\ (isMoving (state movingOne) = true ->
      abs_long (currentPos (stepper movingOne)) < g_target_dist movingOne
      /\ currentPos (stepper movingOne)
         = if g_fwd movingOne then abs_long (currentPos (stepper movingOne))
           else - abs_long (currentPos (stepper movingOne))).
Proof.
  apply (position_within_target demoToFloat movingOne movingOne_reachable).
Defined.

Lemma moving_tick_steps_witness :
  pulses (stepper (service true movingOne)) = pulses (stepper movingOne) + 1
  /\ currentPos (stepper (service true movingOne)) = 1.
Proof.
  destruct (moving_tick_steps demoToFloat movingOne true movingOne_reachable
              eq_refl) as (_ & _ & _ & H1 & H2 & _).
  split; [exact H1 | exact H2].
Defined.

Lemma move_done_at_distance_witness :
  moveDone (service true movingOne) = true
  /\ currentPos (stepper (service true movingOne)) = 1.
Proof.
  destruct (move_done_at_distance demoToFloat movingOne true
              movingOne_reachable eq_refl) as [H1 H2].
  assert (Hd : moveDone (service true movingOne) = true)
    by (apply H1; split; reflexivity).
  split; [exact Hd | exact (H2 Hd)].
Defined.

Lemma moving_loop_returns_witness :
  exists fw' out,
    loop demoToFloat false movingOne ["C"%string] = Some (fw', [], out).
Proof.
  apply (moving_loop_returns demoToFloat movingOne false ["C"%string] eq_refl).
Defined.

(** * Starting a move *)

Lemma SFcompare_neg (a b : float) :
  SFcompare (F32.neg a) (F32.neg b) = SFcompare b a.
Proof.
  destruct a as [[]|[]| |[] ma ea], b as [[]|[]| |[] mb eb]; try reflexivity;
    simpl; rewrite (Z.compare_antisym ea eb); destruct (ea ?= eb);
    simpl; try reflexivity;
    first [ rewrite (Pos.compare_cont_antisym mb ma Eq)
          | rewrite (Pos.compare_cont_antisym ma mb Eq) ]; reflexivity.
Qed.

Lemma positive_max (a b : float) :
  positive_float a = true -> positive_float b = true ->
  positive_float (F32.max a b) = true /\ F32.ltb (F32.max a b) a = false.
Proof.
  intros Ha Hb. unfold F32.max, F32.gtb. fold (F32.ltb b a).
  destruct (F32.ltb b a) eqn:E.
  - split; [exact Ha|]. unfold F32.ltb, SFltb.
    rewrite SFcompare_refl; [reflexivity|]. intros ->. discriminate Ha.
  - split; [exact Hb | exact E].
Qed.

(** The driver after [startStep] on speeds of at least 1: position zero,
    the start speed with the sign of the direction, and the larger of the
    two speeds as the limit. *)
Lemma startStep_stepper (st : Step) (fw : Firmware) :
  F32.leb F32.one (start_speed st) = true ->
  F32.leb F32.one (end_speed st) = true ->
  stepper (startStep st fw)
  = {| currentPos := 0;
       speed := if forward st then start_speed st
                else F32.neg (start_speed st);
       maxSpeed := F32.max (start_speed st) (end_speed st);
       outputs := outputs (stepper fw);
       pulses := pulses (stepper fw) |}.
Proof.
  intros Hs He. unfold startStep. cbn [stepper].
  rewrite (max_one_id _ Hs), (max_one_id _ He).
  apply geb_one_positive in Hs, He.
  destruct (positive_max _ _ Hs He) as [Hm Hlt].
  set (mx := F32.max (start_speed st) (end_speed st)) in *.
  destruct (positive_nonzero mx Hm) as [Hnz _].
  assert (Habs : (if F32.ltb mx F32.zero then F32.neg mx else mx) = mx).
  { destruct mx as [[]|[]| |[] m e]; try discriminate; reflexivity. }
  assert (Hmax : Stepper.setMaxSpeed mx
                   (Stepper.setCurrentPosition 0 (stepper fw))
                 = {| currentPos := 0; speed := F32.zero; maxSpeed := mx;
                      outputs := outputs (stepper fw);
                      pulses := pulses (stepper fw) |}).
  { unfold Stepper.setMaxSpeed. rewrite Habs. cbn.
    destruct (F32.eqb (maxSpeed (stepper fw)) mx) eqn:E; [|reflexivity].
    apply eqb_nonzero_eq in E; [|exact Hnz]. rewrite <- E. reflexivity. }
  rewrite Hmax. unfold Stepper.setSpeed. cbn.
  set (w := if forward st then start_speed st else F32.neg (start_speed st)).
  replace (F32.eqb w F32.zero) with false
    by (unfold w; destruct (forward st), (start_speed st) as [[]|[]| |[] m e];
        try discriminate; reflexivity).
  f_equal. unfold Stepper.constrain, w. destruct (forward st).
  - replace (F32.ltb (start_speed st) (F32.neg mx)) with false
      by (destruct (start_speed st) as [[]|[]| |[] m e],
            mx as [[]|[]| |[] m' e']; try discriminate; reflexivity).
    change (F32.gtb (start_speed st) mx) with (F32.ltb mx (start_speed st)).
    now rewrite Hlt.
  - replace (F32.ltb (F32.neg (start_speed st)) (F32.neg mx))
      with (F32.ltb mx (start_speed st))
      by (unfold F32.ltb, SFltb; now rewrite SFcompare_neg).
    rewrite Hlt.
    replace (F32.gtb (F32.neg (start_speed st)) mx) with false
      by (destruct (start_speed st) as [[]|[]| |[] m e],
            mx as [[]|[]| |[] m' e']; try discriminate; reflexivity).
    reflexivity.
Qed.

(** * The commands of the idle state *)

Section Commands.
Variable toFloat : string -> float.

Lemma idle_loop (due : bool) (fw : Firmware) (l : string)
    (inp : list string) :
  state fw = STATE_IDLE -> g_moving fw = false ->
  loop toFloat due fw (l :: inp)
  = command toFloat (toUpperCase (trim l)) fw inp.
Proof.
  intros Hs Hm. unfold loop. rewrite (service_idle due fw Hm), Hs. cbn.
  unfold bind, readLineIfAvailable.
  now destruct (command toFloat (toUpperCase (trim l)) fw inp)
    as [[[f i] o]|].
Qed.

Lemma first_char_nonempty (s : string) (c : ascii) :
  charAt0 s = c -> c <> Ascii.zero -> (strlen s =? 0) = false.
Proof.
  destruct s; simpl; intros H Hc; [|reflexivity].
  exfalso. apply Hc. now rewrite <- H.
Qed.

(** X12. The command [M] in the idle state reads a step with
    [promptStep] and starts it at once: the state becomes
    [STATE_MOVING_MANUAL] with the outputs enabled, the position reset to
    zero and the entered distance as target; the driver is commanded the
    entered start speed, forward or backward as entered, under a limit that
    is the larger of the two entered speeds; the stored program is not
    touched. *)
Theorem manual_move_starts (fw : Firmware) (due : bool) (l : string)
    (inp inp' : list string) (st : Step) (out : list Tok) :
  state fw = STATE_IDLE -> g_moving fw = false ->
  charAt0 (toUpperCase (trim l)) = "M"%char ->
  promptStep toFloat inp = Some (st, inp', out) ->
  exists fw',
    loop toFloat due fw (l :: inp)
    = Some (fw', inp',
            [Endl] ++ println (Txt "--- Manual Move ---") ++ out
            ++ println (Txt "Starting move... (type X + Enter to abort)"))
    /\ state fw' = STATE_MOVING_MANUAL
    /\ g_moving fw' = true
    /\ g_target_dist fw' = distance st
    /\ g_fwd fw' = forward st
    /\ stepper fw'
       = {| currentPos := 0;
            speed := if forward st then start_speed st
                     else F32.neg (start_speed st);
            maxSpeed := F32.max (start_speed st) (end_speed st);
            outputs := true;
            pulses := pulses (stepper fw) |}
    /\ program fw' = program fw /\ programCount fw' = programCount fw.
Proof.
  intros Hs Hm Hc Hst.
  destruct (stepInRange_fields st (promptStep_stepInRange _ _ _ _ _ Hst))
    as (_ & Hss & Hse).
  rewrite (idle_loop due fw l inp Hs Hm).
  unfold command.
  rewrite (first_char_nonempty _ _ Hc) by discriminate.
  rewrite Hc. cbn [Ascii.eqb Bool.eqb]. cbv iota.
  unfold bind, print, ret. rewrite Hst.
  eexists. split.
  { rewrite !app_nil_r. now rewrite <- !app_assoc. }
  split; [reflexivity|]. split; [reflexivity|]. split; [reflexivity|].
  split; [reflexivity|]. split; [|split; reflexivity].
  cbn [stepper with_state]. now rewrite (startStep_stepper st _ Hss Hse).
Qed.

(** X13. When a manual move is done, that call of [loop()] clears
    [g_moving], disables the outputs, prints the move-complete message and
    the main menu, and returns to [STATE_IDLE]; it reads no input, leaves
    the position where the last step put it and does not touch the stored
    program. *)
Theorem manual_move_completes (fw : Firmware) (due : bool)
    (inp : list string) :
  state fw = STATE_MOVING_MANUAL ->
  moveDone (service due fw) = true ->
  exists fw',
    loop toFloat due fw inp
    = Some (fw', inp,
            [Endl] ++ println (Txt "[DONE] Move complete.")
            ++ printMainMenu fw')
    /\ state fw' = STATE_IDLE
    /\ g_moving fw' = false
    /\ outputs (stepper fw') = false
    /\ currentPos (stepper fw') = currentPos (stepper (service due fw))
    /\ pulses (stepper fw') = pulses (stepper (service due fw))
    /\ program fw' = program fw /\ programCount fw' = programCount fw.
Proof.
  intros Hs Hd.
  destruct (service_store due fw) as (Hp & Hc & Hs' & _).
  unfold loop. rewrite Hs', Hs, Hd. cbn [isMoving].
  unfold complete, bind, print, ret. cbn [state with_stepper with_moving].
  rewrite Hs', Hs.
  eexists. split; [rewrite app_nil_r; reflexivity|].
  cbn. repeat split; auto.
Qed.

(** X14. The command [R] in the idle state: with an empty program it
    prints the "Program empty" error and the menu and changes nothing; with
    a stored program it starts step 1, whatever ran before: the state
    becomes [STATE_MOVING_PROG] with [progStepIndex] 0, the outputs enabled,
    the position reset and the globals of the move taken from
    [program[0]]. *)
Theorem run_command (fw : Firmware) (due : bool) (l : string)
    (inp : list string) :
  state fw = STATE_IDLE -> g_moving fw = false ->
  charAt0 (toUpperCase (trim l)) = "R"%char ->
  (programCount fw = 0 ->
   loop toFloat due fw (l :: inp)
   = Some (fw, inp, println (Txt "! Program empty.") ++ printMainMenu fw))
  /\ (programCount fw <> 0 ->
      exists fw',
        loop toFloat due fw (l :: inp)
        = Some (fw', inp,
                [Endl; Txt "--- Running Program ("; Num (programCount fw)]
                ++ println (Txt " step(s)) --- type X + Enter to abort ---")
                ++ [Txt "[STEP 1/"; Num (programCount fw)]
                ++ println (Txt "] Starting..."))
        /\ state fw' = STATE_MOVING_PROG
        /\ progStepIndex fw' = 0
        /\ g_moving fw' = true
        /\ outputs (stepper fw') = true
        /\ currentPos (stepper fw') = 0
        /\ g_target_dist fw' = distance (program_at fw 0)
        /\ g_fwd fw' = forward (program_at fw 0)
        /\ (forall n, computeSpeed fw' n
                      = computeSpeed (startStep (program_at fw 0) fw) n)
        /\ program fw' = program fw /\ programCount fw' = programCount fw).
Proof.
  intros Hs Hm Hc.
  rewrite (idle_loop due fw l inp Hs Hm).
  unfold command.
  rewrite (first_char_nonempty _ _ Hc) by discriminate.
  rewrite Hc. cbn [Ascii.eqb Bool.eqb]. cbv iota.
  unfold bind, print, ret.
  split.
  - intros H0. rewrite H0. cbn [Z.eqb]. cbv iota.
    now rewrite !app_nil_r.
  - intros Hn. apply Z.eqb_neq in Hn. rewrite Hn.
    eexists. split; [rewrite app_nil_r; reflexivity|].
    set (fw0 := with_stepper
                  (Stepper.enableOutputs (stepper (with_progStepIndex 0 fw)))
                  (with_progStepIndex 0 fw)).
    destruct (startStep_fields (program_at (with_progStepIndex 0 fw) 0) fw0)
      as (Fo & _ & _ & _ & _ & _ & _ & Fp).
    split; [reflexivity|]. split; [reflexivity|]. split; [reflexivity|].
    split; [exact Fo|]. split; [exact Fp|].
    repeat split; reflexivity.
Qed.

(** X15. The command [C] in the idle state sets [programCount] to zero and
    nothing else: the listing is empty from then on, although the cells of
    the array keep their contents, and a following [S] prints "Program is
    empty". *)
Theorem clear_command (fw : Firmware) (due : bool) (l : string)
    (inp : list string) :
  state fw = STATE_IDLE -> g_moving fw = false ->
  charAt0 (toUpperCase (trim l)) = "C"%char ->
  let fw' := with_store (program fw) 0 fw in
  loop toFloat due fw (l :: inp)
  = Some (fw', inp, println (Txt "Program cleared.") ++ printMainMenu fw')
  /\ listing fw' = []
  /\ program fw' = program fw
  /\ forall due' l' inp',
       charAt0 (toUpperCase (trim l')) = "S"%char ->
       loop toFloat due' fw' (l' :: inp')
       = Some (fw', inp',
               [Endl] ++ println (Txt "--- Current Program ---")
               ++ println (Txt "Program is empty.") ++ printMainMenu fw').
Proof.
  intros Hs Hm Hc fw'.
  split; [|split; [reflexivity | split; [reflexivity|]]].
  - rewrite (idle_loop due fw l inp Hs Hm).
    unfold command.
    rewrite (first_char_nonempty _ _ Hc) by discriminate.
    rewrite Hc. cbn [Ascii.eqb Bool.eqb]. cbv iota.
    unfold bind, print, ret. now rewrite !app_nil_r.
  - intros due' l' inp' Hc'.
    rewrite (idle_loop due' fw' l' inp' Hs Hm).
    unfold command.
    rewrite (first_char_nonempty _ _ Hc') by discriminate.
    rewrite Hc'. cbn [Ascii.eqb Bool.eqb]. cbv iota.
    unfold bind, print, ret. cbn. reflexivity.
Qed.

(** X16. Only the commands [M], [P], [R] and [C] can change the firmware
    state: any other line received in the idle state (an empty one, [S],
    [?], an unknown command) is answered with output that ends in the main
    menu and leaves every global and the driver as they were. *)
Theorem other_commands_change_nothing (fw : Firmware) (due : bool)
    (l : string) (inp : list string) :
  state fw = STATE_IDLE -> g_moving fw = false ->
  let ch := charAt0 (toUpperCase (trim l)) in
  ch <> "M"%char -> ch <> "P"%char -> ch <> "R"%char -> ch <> "C"%char ->
  exists out,
    loop toFloat due fw (l :: inp) = Some (fw, inp, out ++ printMainMenu fw).
Proof.
  intros Hs Hm ch HM HP HR HC.
  rewrite (idle_loop due fw l inp Hs Hm).
  unfold command. fold ch.
  apply Ascii.eqb_neq in HM, HP, HR, HC. rewrite HM, HP, HR, HC.
  unfold bind, print, ret.
  destruct (strlen (toUpperCase (trim l)) =? 0);
    [exists []; now rewrite app_nil_r|].
  destruct (Ascii.eqb ch "S"); [|destruct (Ascii.eqb ch "?")];
    eexists; rewrite !app_nil_r, ?app_assoc; reflexivity.
Qed.

(** X17. The command [P] opens the editor, and whatever is done in it, the
    call of [loop()] that returns from it has changed nothing but the
    stored program: the session is still idle, the motion globals and the
    driver are as before, the store still satisfies its bounds, and the
    last thing printed is the main menu. *)
Theorem edit_command_changes_store_only (fw fw' : Firmware) (due : bool)
    (l : string) (inp inp' : list string) (out : list Tok) :
  state fw = STATE_IDLE -> g_moving fw = false ->
  charAt0 (toUpperCase (trim l)) = "P"%char ->
  loop toFloat due fw (l :: inp) = Some (fw', inp', out) ->
  fw' = with_store (program fw') (programCount fw') fw
  /\ (StoreInv fw -> StoreInv fw')
  /\ (length inp' < length inp)%nat
  /\ exists pre, out = pre ++ printMainMenu fw'.
Proof.
  intros Hs Hm Hc.
  rewrite (idle_loop due fw l inp Hs Hm).
  unfold command.
  rewrite (first_char_nonempty _ _ Hc) by discriminate.
  rewrite Hc. cbn [Ascii.eqb Bool.eqb]. cbv iota.
  unfold bind, print, ret.
  destruct (editor toFloat (length inp) fw inp) as [[[f i] o]|] eqn:E;
    [|discriminate].
  intros [= <- <- <-].
  split; [exact (editor_store _ _ _ _ _ _ _ E)|].
  split; [intros HS; exact (editor_StoreInv _ _ _ _ _ _ _ HS E)|].
  split.
  - destruct inp as [|l0 rest]; [discriminate|].
    cbn [length editor] in E. unfold bind in E.
    destruct (editorCommand toFloat fw (l0 :: rest))
      as [[[[b f1] i1] o1]|] eqn:E1; [|discriminate].
    apply editorCommand_shorter in E1. cbn [fst snd] in E.
    destruct b.
    + destruct (editor toFloat (length rest) f1 i1) as [[[f2 i2] o2]|] eqn:E2;
        [|discriminate].
      injection E as <- <- <-.
      assert (length i2 <= length i1)%nat; [|simpl in *; lia].
      clear -E2. revert f1 i1 o2 E2.
      induction (length rest) as [|n IH]; intros f1 i1 o2; [discriminate|].
      cbn [editor]. unfold bind.
      destruct (editorCommand toFloat f1 i1) as [[[[b f3] i3] o3]|] eqn:E3;
        [|discriminate].
      apply editorCommand_shorter in E3. cbn [fst snd].
      destruct b.
      * destruct (editor toFloat n f3 i3) as [[[f4 i4] o4]|] eqn:E4;
          [|discriminate].
        intros [= <- <- <-]. specialize (IH _ _ _ E4). lia.
      * unfold ret. intros [= <- <- <-]. lia.
    + unfold ret in E. injection E as <- <- <-. exact E1.
  - exists ([Endl] ++ println (Txt "--- Program Editor ---") ++ o).
    reflexivity.
Qed.
End Commands.

Lemma manual_move_starts_witness :
  exists fw',
    loop demoToFloat false (fst setup) oneStepLines
    = Some (fw', [],
            [Endl] ++ println (Txt "--- Manual Move ---")
            ++ promptTranscript "  Direction (F=forward, B=backward) > " [] []
            ++ promptTranscript "  Distance  (steps, 1-999999) > " [] []
            ++ promptTranscript "  Start spd (steps/s, 1-1000) > " [] []
            ++ promptTranscript "  End spd   (steps/s, 1-1000) > " [] []
            ++ promptTranscript "  Accel     (steps/s2, -1000 to 1000) > "
                 [] []
            ++ println (Txt "Starting move... (type X + Enter to abort)"))
    /\ state fw' = STATE_MOVING_MANUAL
    /\ stepper fw'
       = {| currentPos := 0; speed := F32.of_Z 10; maxSpeed := F32.of_Z 50;
            outputs := true; pulses := 0 |}.
Proof.
  destruct (manual_move_starts demoToFloat (fst setup) false "M"%string
              ["F"; "1"; "10"; "50"; "5"]%string [] stepA _
              eq_refl eq_refl eq_refl eq_refl)
    as (fw' & H1 & H2 & _ & _ & _ & H3 & _).
  exists fw'. split; [exact H1|]. split; [exact H2 | exact H3].
Defined.

Lemma manual_move_completes_witness :
  exists fw',
    loop demoToFloat true movingOne []
    = Some (fw', [],
            [Endl] ++ println (Txt "[DONE] Move complete.")
            ++ printMainMenu fw')
    /\ state fw' = STATE_IDLE /\ currentPos (stepper fw') = 1.
Proof.
  destruct (manual_move_completes demoToFloat movingOne true []
              eq_refl eq_refl)
    as (fw' & H1 & H2 & _ & _ & H3 & _).
  exists fw'. split; [exact H1|]. split; [exact H2 | exact H3].
Defined.

Lemma run_command_witness :
  loop demoToFloat false (fst setup) ["run"%string]
  = Some (fst setup, [],
          println (Txt "! Program empty.") ++ printMainMenu (fst setup))
  /\ exists fw',
       loop demoToFloat false twoSteps ["r"%string]
       = Some (fw', [],
               [Endl; Txt "--- Running Program ("; Num 2]
               ++ println (Txt " step(s)) --- type X + Enter to abort ---")
               ++ [Txt "[STEP 1/"; Num 2] ++ println (Txt "] Starting..."))
       /\ state fw' = STATE_MOVING_PROG /\ progStepIndex fw' = 0.
Proof.
  split.
  - apply (proj1 (run_command demoToFloat (fst setup) false "run"%string []
                    eq_refl eq_refl eq_refl) eq_refl).
  - destruct (proj2 (run_command demoToFloat twoSteps false "r"%string []
                       eq_refl eq_refl eq_refl) ltac:(discriminate))
      as (fw' & H1 & H2 & H3 & _).
    exists fw'. split; [exact H1|]. split; [exact H2 | exact H3].
Defined.

Lemma clear_command_witness :
  loop demoToFloat false twoSteps [" c "%string]
  = Some (with_store (program twoSteps) 0 twoSteps, [],
          println (Txt "Program cleared.")
          ++ printMainMenu (with_store (program twoSteps) 0 twoSteps))
  /\ listing (with_store (program twoSteps) 0 twoSteps) = [].
Proof.
  destruct (clear_command demoToFloat twoSteps false " c "%string []
              eq_refl eq_refl eq_refl) as (H1 & H2 & _).
  split; [exact H1 | exact H2].
Defined.

Lemma other_commands_change_nothing_witness :
  exists out,
    loop demoToFloat false twoSteps ["status"%string]
    = Some (twoSteps, [], out ++ printMainMenu twoSteps).
Proof.
  apply (other_commands_change_nothing demoToFloat twoSteps false
           "status"%string [] eq_refl eq_refl);
    discriminate.
Defined.

Lemma edit_command_changes_store_only_witness :
  exists fw' out,
    loop demoToFloat false twoSteps ["P"; "D 1"; "Q"]%string
    = Some (fw', [], out)
    /\ fw' = with_store (program fw') (programCount fw') twoSteps
    /\ listing fw' = [stepB].
Proof.
  assert (H : exists fw' out,
             loop demoToFloat false twoSteps ["P"; "D 1"; "Q"]%string
             = Some (fw', [], out) /\ listing fw' = [stepB]).
  { eexists _, _. split; vm_compute; reflexivity. }
  destruct H as (fw' & out & Hl & Hlist).
  exists fw', out. split; [exact Hl|]. split; [|exact Hlist].
  exact (proj1 (edit_command_changes_store_only demoToFloat twoSteps fw' false
                  "P"%string ["D 1"; "Q"]%string [] out
                  eq_refl eq_refl eq_refl Hl)).
Defined.

(** * The program editor *)

Lemma promptUntil_suffix {A} (msg : string) (parse : string -> option A)
    (err : list Tok) (inp inp' : list string) (a : A) (out : list Tok) :
  promptUntil msg parse err inp = Some (a, inp', out) ->
  exists pre, inp = pre ++ inp'.
Proof.
  intros H. apply promptUntil_spec in H as (rej & l & -> & _).
  exists (rej ++ [l]). now rewrite <- app_assoc.
Qed.

Lemma delete_last_snoc {A} (l : list A) (x : A) :
  delete (length l) (l ++ [x]) = l.
Proof. induction l as [|a l IH]; simpl; [reflexivity | now f_equal]. Qed.

Section Editor.
Variable toFloat : string -> float.

Lemma promptStep_suffix (inp inp' : list string) (st : Step)
    (out : list Tok) :
  promptStep toFloat inp = Some (st, inp', out) ->
  exists pre, inp = pre ++ inp'.
Proof.
  unfold promptStep, bind, ret, promptDirection, promptLong, promptFloat.
  repeat match goal with
         | |- context [promptUntil ?m ?p ?e ?i] =>
             let E := fresh "E" in
             destruct (promptUntil m p e i) as [[[? ?] ?]|] eqn:E;
             [apply promptUntil_suffix in E as [? ->]|discriminate]
         end.
  intros [= _ <- _]. eexists. rewrite !app_assoc. reflexivity.
Qed.

Lemma editorCommand_suffix (fw fw' : Firmware) (b : bool)
    (inp inp' : list string) (out : list Tok) :
  editorCommand toFloat fw inp = Some ((b, fw'), inp', out) ->
  exists pre, inp = pre ++ inp'.
Proof.
  unfold editorCommand, bind, print, readLineBlocking, ret.
  destruct inp as [|l rest]; [discriminate|].
  repeat case_match; intros; simplify_eq; try (now exists [l]).
  match goal with H : promptStep _ _ = Some _ |- _ =>
    apply promptStep_suffix in H as [pre ->] end.
  now exists (l :: pre).
Qed.

(** A round of the editor ends the editing only on a line that begins
    with [Q] or [q]. *)
Lemma editorCommand_quit (fw fw' : Firmware) (l : string)
    (inp inp' : list string) (out : list Tok) :
  editorCommand toFloat fw (l :: inp) = Some ((false, fw'), inp', out) ->
  toupper (charAt0 (trim l)) = "Q"%char.
Proof.
  unfold editorCommand, bind, print, readLineBlocking, ret.
  repeat case_match; intros; simplify_eq.
  match goal with H : Ascii.eqb _ "Q" = true |- _ =>
    now apply Ascii.eqb_eq in H end.
Qed.

Definition quits (l : string) : bool :=
  Ascii.eqb (toupper (charAt0 (trim l))) "Q".

Lemma editor_needs_quit (fuel : nat) (fw : Firmware) (inp : list string) :
  forallb (fun l => negb (quits l)) inp = true ->
  editor toFloat fuel fw inp = None.
Proof.
  revert fw inp. induction fuel as [|fuel IH]; intros fw inp Hq;
    [reflexivity|].
  cbn [editor]. unfold bind.
  destruct (editorCommand toFloat fw inp) as [[[[b fw1] inp1] out1]|] eqn:E;
    [|reflexivity].
  cbn [fst snd]. destruct b.
  - destruct (editorCommand_suffix _ _ _ _ _ _ E) as [pre ->].
    rewrite forallb_app in Hq. apply andb_true_iff in Hq as [_ Hq].
    now rewrite (IH fw1 inp1 Hq).
  - destruct inp as [|l rest]; [discriminate|].
    apply editorCommand_quit in E.
    cbn [forallb] in Hq. apply andb_true_iff in Hq as [Hq _].
    unfold quits in Hq. rewrite E in Hq. discriminate.
Qed.

(** X18. The editor is left only on [Q]: after the command [P], as long
    as no received line begins with [Q] or [q], the call of [loop()] has
    not returned, whatever the lines are. *)
Theorem editor_left_only_on_quit (fw : Firmware) (due : bool) (l : string)
    (inp : list string) :
  state fw = STATE_IDLE -> g_moving fw = false ->
  charAt0 (toUpperCase (trim l)) = "P"%char ->
  forallb (fun l => negb (quits l)) inp = true ->
  loop toFloat due fw (l :: inp) = None.
Proof.
  intros Hs Hm Hc Hq.
  rewrite (idle_loop toFloat due fw l inp Hs Hm).
  unfold command.
  rewrite (first_char_nonempty _ _ Hc) by discriminate.
  rewrite Hc. cbn [Ascii.eqb Bool.eqb]. cbv iota.
  unfold bind, print, ret.
  now rewrite (editor_needs_quit _ _ _ Hq).
Qed.

(** The editor's [A] and [D n], when they succeed. *)
Lemma editorCommand_add (fw : Firmware) (l : string)
    (inp inp' : list string) (st : Step) (out : list Tok) :
  toupper (charAt0 (trim l)) = "A"%char ->
  programCount fw < MAX_STEPS ->
  promptStep toFloat inp = Some (st, inp', out) ->
  editorCommand toFloat fw (l :: inp)
  = Some ((true,
           with_store (<[Z.to_nat (programCount fw) := st]> (program fw))
             (wrap_u8 (programCount fw + 1)) fw),
          inp',
          editorMenu fw
          ++ ([Endl; Txt "--- New Step "; Num (programCount fw + 1)]
              ++ println (Txt " ---"))
          ++ out ++ println (Txt "Step added.")).
Proof.
  intros Hc Hlt Hst.
  assert (Hne : (strlen (trim l) =? 0) = false)
    by (apply (charAt0_nonempty _ _ Hc); discriminate).
  unfold editorCommand, bind, print, readLineBlocking.
  rewrite Hne, Hc. cbn [Ascii.eqb Bool.eqb]. cbv iota.
  destruct (programCount fw >=? MAX_STEPS) eqn:E;
    [apply Z.geb_le in E; lia|].
  rewrite Hst. unfold ret. cbv beta iota.
  now rewrite !app_nil_r, !app_nil_l.
Qed.

Lemma editorCommand_delete (fw : Firmware) (l : string)
    (inp : list string) :
  let idx := wrap_int (wrap_long (toInt (substring_from 2 (trim l)) - 1)) in
  toupper (charAt0 (trim l)) = "D"%char ->
  3 <= strlen (trim l) ->
  0 <= idx < programCount fw ->
  editorCommand toFloat fw (l :: inp)
  = Some ((true,
           with_store
             (shiftDown (Z.to_nat (programCount fw - 1 - idx))
                (Z.to_nat idx) (program fw))
             (wrap_u8 (programCount fw - 1)) fw),
          inp, editorMenu fw ++ println (Txt "Step deleted.")).
Proof.
  intros idx Hc Hs3 Hidx.
  assert (Hne : (strlen (trim l) =? 0) = false)
    by (apply (charAt0_nonempty _ _ Hc); discriminate).
  assert (Hge : (strlen (trim l) <? 3) = false) by (apply Z.ltb_ge; lia).
  unfold editorCommand, bind, print, readLineBlocking.
  rewrite Hne, Hc, Hge. fold idx. cbn [Ascii.eqb Bool.eqb]. cbv iota.
  destruct ((idx <? 0) || (idx >=? programCount fw)) eqn:E.
  { apply orb_true_iff in E as [E | E];
      [apply Z.ltb_lt in E | apply Z.geb_le in E]; lia. }
  reflexivity.
Qed.

(** X19. Adding a step and then deleting the last step restores the
    listing: after [A] with an accepted step and [D n] with [n] the new
    number of steps, the stored program lists exactly the steps it listed
    before, in the same order, and [programCount] is back to its value. *)
Theorem add_then_delete_last (fw : Firmware) (la ld : string)
    (inp inp' : list string) (st : Step) (out : list Tok) :
  length (program fw) = Z.to_nat MAX_STEPS ->
  0 <= programCount fw < MAX_STEPS ->
  toupper (charAt0 (trim la)) = "A"%char ->
  promptStep toFloat inp = Some (st, ld :: inp', out) ->
  toupper (charAt0 (trim ld)) = "D"%char ->
  3 <= strlen (trim ld) ->
  wrap_int (wrap_long (toInt (substring_from 2 (trim ld)) - 1))
  = programCount fw ->
  exists fw1 fw2 o1 o2,
    editorCommand toFloat fw (la :: inp) = Some ((true, fw1), ld :: inp', o1)
    /\ editorCommand toFloat fw1 (ld :: inp') = Some ((true, fw2), inp', o2)
    /\ listing fw1 = listing fw ++ [st]
    /\ listing fw2 = listing fw
    /\ programCount fw2 = programCount fw.
Proof.
  intros Hlen Hc Ha Hst Hd Hs3 Hidx. unfold MAX_STEPS in *.
  set (fw1 := with_store (<[Z.to_nat (programCount fw) := st]> (program fw))
                (wrap_u8 (programCount fw + 1)) fw).
  assert (Hc1 : programCount fw1 = programCount fw + 1).
  { unfold fw1, wrap_u8. simpl. rewrite Z.mod_small; lia. }
  assert (Hl1 : listing fw1 = listing fw ++ [st])
    by (apply listing_add; [exact Hlen | unfold MAX_STEPS; lia]).
  assert (Hlen1 : length (program fw1) = Z.to_nat 5)
    by (unfold fw1; simpl; now rewrite length_insert).
  eexists fw1, _, _, _.
  split; [apply editorCommand_add; [exact Ha | unfold MAX_STEPS; lia | exact Hst]|].
  split; [apply editorCommand_delete; [exact Hd | exact Hs3 | rewrite Hidx; lia]|].
  split; [exact Hl1|].
  rewrite Hidx. split.
  - rewrite listing_delete
      by (try exact Hlen1; unfold MAX_STEPS; rewrite ?Hc1; lia).
    rewrite Hl1.
    assert (Hn : Z.to_nat (programCount fw) = length (listing fw)).
    { unfold listing. rewrite length_take. lia. }
    rewrite Hn. apply delete_last_snoc.
  - change (wrap_u8 (programCount fw1 - 1) = programCount fw).
    unfold wrap_u8. rewrite Hc1, Z.mod_small; lia.
Qed.
End Editor.

Lemma editor_left_only_on_quit_witness :
  loop demoToFloat false twoSteps ["P"; "D 1"; "zzz"; ""; "A"; "B"]%string
  = None.
Proof.
  apply (editor_left_only_on_quit demoToFloat twoSteps false "P"%string
           ["D 1"; "zzz"; ""; "A"; "B"]%string
           eq_refl eq_refl eq_refl eq_refl).
Defined.

Lemma add_then_delete_last_witness :
  exists fw1 fw2 o1 o2,
    editorCommand demoToFloat twoSteps
      ["A"; "F"; "100"; "10"; "50"; "5"; "D 3"]%string
    = Some ((true, fw1), ["D 3"]%string, o1)
    /\ editorCommand demoToFloat fw1 ["D 3"]%string
       = Some ((true, fw2), [], o2)
    /\ listing fw1 = [stepA; stepB; scenarioStep]
    /\ listing fw2 = [stepA; stepB]
    /\ programCount fw2 = 2.
Proof.
  apply (add_then_delete_last demoToFloat twoSteps "A"%string "D 3"%string
           ["F"; "100"; "10"; "50"; "5"; "D 3"]%string [] scenarioStep _
           eq_refl ltac:(vm_compute; split; [discriminate | reflexivity])
           eq_refl eq_refl eq_refl ltac:(vm_compute; discriminate) eq_refl).
Defined.

(** * The speed at the start of a move *)

Lemma SFcompare_some (x y : float) :
  x <> S754_nan -> y <> S754_nan -> exists c, SFcompare x y = Some c.
Proof.
  destruct x as [[]|[]| |[] mx ex], y as [[]|[]| |[] my ey];
    try congruence; intros _ _; eexists; reflexivity.
Qed.

Lemma max_one_geb (x : float) :
  x <> S754_nan -> F32.leb F32.one (F32.max F32.one x) = true.
Proof.
  intros Hx. unfold F32.max, F32.gtb.
  destruct (SFltb x F32.one) eqn:E; [reflexivity|].
  unfold F32.leb, SFleb. rewrite SFcompare_antisym.
  unfold SFltb in E.
  destruct (SFcompare_some x F32.one Hx ltac:(discriminate)) as [c Hc].
  rewrite Hc in *. destruct c; simpl; congruence.
Qed.

(** X20. Whatever step is started, provided its start speed is a number
    (zero or a negative one included), the speed [computeSpeed] returns is
    at least 1 step/s and never a NaN, at every step count and for every
    acceleration and end speed: the motor is never commanded to stall. *)
Theorem speed_at_least_one (st : Step) (fw : Firmware) (n : Z) :
  start_speed st <> S754_nan ->
  F32.leb F32.one (computeSpeed (startStep st fw) n) = true
  /\ computeSpeed (startStep st fw) n <> S754_nan.
Proof.
  intros Hs.
  assert (H : F32.leb F32.one (computeSpeed (startStep st fw) n) = true).
  { apply computeSpeed_geb_one. cbn [g_start_speed startStep].
    now apply max_one_geb. }
  split; [exact H|]. intros Hn. rewrite Hn in H. discriminate H.
Qed.

Lemma speed_at_least_one_witness :
  F32.leb F32.one (computeSpeed (startStep zeroStep (fst setup)) (-7)) = true
  /\ computeSpeed (startStep zeroStep (fst setup)) (-7) <> S754_nan.
Proof.
  apply (speed_at_least_one zeroStep (fst setup) (-7)). discriminate.
Defined.

(** ** The square root of a square *)

(** A speed in range is a normal number with an exponent from -23 to
    -14. *)
Lemma in_range_shape (S : float) :
  in_range S ->
  exists m e,
    S = S754_finite false m e
    /\ 8388608 <= Zpos m < 16777216 /\ -23 <= e <= -14.
Proof.
  intros [HS HSb]. pose proof U_pos as HU.
  destruct (V_zero_or_finite S HS) as [?|(s & m & e & -> & Hd & He & Hn)];
    [lia|].
  assert (s = false).
  { destruct s; [|reflexivity]. pose proof (V_finite_sign _ _ _ (proj1 HS)).
    unfold sgn in *. lia. }
  subst s. exists m, e. split; [reflexivity|].
  assert (HV : V (S754_finite false m e) = Zpos m * 2 ^ (e + K))
    by (unfold V, sgn; ring).
  rewrite HV in HSb. clear HV.
  destruct (digits_bounds m) as [Hl Hu].
  assert (Hm : Zpos m < 2 ^ 24).
  { eapply Z.lt_le_trans; [exact Hu|]. apply Z.pow_le_mono_r; lia. }
  assert (He' : -23 <= e <= -14).
  { split.
    - destruct (Z_le_gt_dec (-23) e) as [|Hc]; [assumption|exfalso].
      assert (2 ^ 24 * 2 ^ (e + K) <= U).
      { unfold U. rewrite <- pow2_split by (unfold K; lia).
        apply Z.pow_le_mono_r; unfold K; lia. }
      assert (0 < 2 ^ (e + K)) by (apply pow2_pos; unfold K; lia).
      apply (Z.mul_lt_mono_pos_r (2 ^ (e + K))) in Hm; lia.
    - destruct (Z_le_gt_dec e (-14)) as [|Hc]; [assumption|exfalso].
      rewrite (Hn ltac:(lia)) in Hl. change (2 ^ (24 - 1)) with (2 ^ 23) in Hl.
      assert (2 ^ 10 * U <= 2 ^ 23 * 2 ^ (e + K)).
      { unfold U. rewrite <- !pow2_split by (unfold K; lia).
        apply Z.pow_le_mono_r; unfold K; lia. }
      assert (0 <= 2 ^ (e + K)) by (apply Z.pow_nonneg; lia).
      apply (Z.mul_le_mono_nonneg_r _ _ (2 ^ (e + K))) in Hl; [|assumption].
      change (2 ^ 10) with 1024 in *. lia. }
  rewrite (Hn ltac:(lia)) in Hl. change (2 ^ (24 - 1)) with 8388608 in Hl.
  change (2 ^ 24) with 16777216 in Hm. lia.
Qed.

(** The rounded square of [m * P] is within [d * P^2] of the exact one,
    where [d] is the distance from [m^2] to the multiples of [2^24]
    (half a unit in the last place at most, nothing when [m] is a power of
    two). *)
Lemma square_error (m : positive) (e : Z) :
  let S := S754_finite false m e in
  let P := 2 ^ (e + K) in
  in_range S ->
  exists d,
    0 <= d <= 8388608
    /\ (Zpos m = 8388608 -> d = 0)
    /\ Z.abs (Zpos m * Zpos m * (P * P) - V (F32.mul S S) * U)
       <= d * (P * P).
Proof.
  intros S P HSr. pose proof HSr as [HS HSb].
  destruct (in_range_shape S HSr) as (m' & e' & Heq & Hm & He).
  injection Heq as <- <-.
  pose proof U_pos as HU.
  assert (HP : 0 < P) by (apply pow2_pos; unfold K; lia).
  assert (HPP : 0 < P * P) by (apply Z.mul_pos_pos; lia).
  assert (HVS : V S = Zpos m * P) by (unfold S, V, sgn, P; ring).
  destruct (mul_nearest' S S HS HS) as (z & Hz & Hne).
  { rewrite Z.abs_eq by (apply Z.mul_nonneg_nonneg; lia).
    pose proof big127 as H127. change (2 ^ 44) with 17592186044416 in H127.
    assert (0 < U * U) by (apply Z.mul_pos_pos; lia).
    apply Z.le_lt_trans with (1000 * U * (1000 * U));
      [apply Z.mul_le_mono_nonneg; lia|].
    replace (1000 * U * (1000 * U)) with (1000000 * (U * U)) by ring.
    replace (2 ^ 127 * U * U) with (2 ^ 127 * (U * U)) by ring.
    apply Z.mul_lt_mono_pos_r; lia. }
  set (mm := Zpos m * Zpos m) in *.
  assert (Hmm : 70368744177664 <= mm < 281474976710656).
  { unfold mm. split.
    - change 70368744177664 with (8388608 * 8388608).
      apply Z.mul_le_mono_nonneg; lia.
    - change 281474976710656 with (16777216 * 16777216).
      apply Z.mul_lt_mono_nonneg; lia. }
  set (G := (mm + 8388608) / 16777216).
  assert (HG : mm - 8388608 < G * 16777216 <= mm + 8388608).
  { unfold G. pose proof (Z.div_mod (mm + 8388608) 16777216 ltac:(lia)).
    pose proof (Z.mod_pos_bound (mm + 8388608) 16777216 ltac:(lia)). lia. }
  assert (HGr : 2 ^ 22 <= G <= 2 ^ 24).
  { change (2 ^ 22) with 4194304. change (2 ^ 24) with 16777216. lia. }
  destruct (mantissa_float G (2 * e + 24) HGr ltac:(lia)) as (g & Hg & HgV).
  assert (HgU : V g * U = G * 16777216 * (P * P)).
  { rewrite HgV. unfold U, P. change 16777216 with (2 ^ 24).
    rewrite <- !Z.mul_assoc. f_equal.
    rewrite <- !pow2_split by (unfold K; lia). f_equal. lia. }
  assert (HzU : z * U = mm * (P * P)) by (rewrite Hz, HVS; unfold mm; ring).
  exists (Z.abs (mm - G * 16777216)). split; [lia|]. split.
  { intros H23. unfold G, mm. rewrite H23. reflexivity. }
  destruct Hne as [_ Hne]. specialize (Hne g Hg).
  apply (Z.mul_le_mono_nonneg_r _ _ U) in Hne; [|lia].
  rewrite <- (Z.abs_eq U) in Hne at 1 2 by lia.
  rewrite <- !Z.abs_mul in Hne.
  rewrite !Z.mul_sub_distr_r, HzU, HgU in Hne.
  replace (mm * (P * P) - G * 16777216 * (P * P))
    with ((mm - G * 16777216) * (P * P)) in Hne by ring.
  rewrite (Z.abs_mul (mm - G * 16777216)), (Z.abs_eq (P * P)) in Hne by lia.
  exact Hne.
Qed.

(** The square root of the square of a speed in range is that speed
    again, although the square is rounded. *)
Lemma sqrt_square (S : float) :
  in_range S -> F32.sqrt (F32.mul S S) = S.
Proof.
  intros HSr. pose proof HSr as [HS HSb].
  destruct (in_range_shape S HSr) as (m & e & -> & Hm & He).
  destruct (square_error m e HSr) as (d & Hd & Hd0 & Herr).
  cbv zeta in Herr.
  set (S := S754_finite false m e) in *.
  set (P := 2 ^ (e + K)) in *.
  pose proof U_pos as HU.
  assert (HP : 0 < P) by (apply pow2_pos; unfold K; lia).
  assert (HPP : 0 < P * P) by (apply Z.mul_pos_pos; lia).
  assert (HVS : V S = Zpos m * P) by (unfold S, V, sgn, P; ring).
  destruct (square_props S HS HSb) as [Hy Hyb].
  set (y := F32.mul S S) in *.
  destruct (sqrt_spec y Hy ltac:(lia)) as (Hr & Hr0 & Hmid).
  set (r := F32.sqrt y) in *.
  fold U in Hmid.
  set (Y := V y * U) in *.
  set (mm := Zpos m * Zpos m) in *.
  assert (HY : (mm - d) * (P * P) <= Y <= (mm + d) * (P * P)).
  { rewrite !Z.mul_sub_distr_r, !Z.mul_add_distr_r. lia. }
  destruct (Z.lt_trichotomy (V r) (V S)) as [Hlt|[Heq|Hgt]].
  - (* the root cannot be below [S] *)
    exfalso.
    destruct (Hmid S HS ltac:(lia)) as [H1 _]. specialize (H1 Hlt).
    replace (4 * V y * U) with (4 * Y) in H1 by (unfold Y; ring).
    destruct (Z.eq_dec (Zpos m) 8388608) as [H23|H23].
    + rewrite (Hd0 H23) in HY.
      assert (H2 : (V r + V S) ^ 2 < (2 * V S) ^ 2)
        by (apply Z.pow_lt_mono_l; lia).
      replace ((2 * V S) ^ 2) with (4 * (mm * (P * P))) in H2
        by (rewrite HVS; unfold mm; ring).
      lia.
    + assert (Hle : V r <= (Zpos m - 1) * P).
      { destruct (V_zero_or_finite r Hr)
          as [H0|(sr & mr & er & Er & Hdr & Her & Hnr)].
        { rewrite H0. apply Z.mul_nonneg_nonneg; lia. }
        assert (sr = false).
        { destruct sr; [|reflexivity].
          pose proof (V_finite_sign _ _ _
                        (proj1 (eq_ind _ fv Hr _ Er))) as Hsg.
          rewrite <- Er in Hsg. unfold sgn in Hsg. lia. }
        subst sr.
        assert (Hr' : fv (S754_finite false mr er)) by (rewrite <- Er; exact Hr).
        assert (Hlt' : V (S754_finite false mr er) < V S)
          by (rewrite <- Er; exact Hlt).
        pose proof (spacing mr m er e Hr' HS Hlt') as Hsp.
        fold S in Hsp. rewrite <- Er in Hsp.
        destruct (Z_le_gt_dec e er) as [Hee|Hee].
        - assert (P <= 2 ^ (er + K))
            by (apply Z.pow_le_mono_r; unfold K; lia).
          rewrite HVS in Hsp. lia.
        - assert (HVr : V r = Zpos mr * 2 ^ (er + K))
            by (rewrite Er; unfold V, sgn; ring).
          assert (Hmr : Zpos mr < 16777216).
          { destruct (digits_bounds mr) as [_ Hu].
            eapply Z.lt_le_trans; [exact Hu|].
            change 16777216 with (2 ^ 24). apply Z.pow_le_mono_r; lia. }
          assert (H2 : 2 * 2 ^ (er + K) <= P).
          { rewrite <- Z.pow_succ_r by (unfold K; lia).
            apply Z.pow_le_mono_r; unfold K; lia. }
          assert (0 < 2 ^ (er + K)) by (apply pow2_pos; unfold K; lia).
          assert (Zpos mr * (2 * 2 ^ (er + K)) <= Zpos mr * P)
            by (apply Z.mul_le_mono_nonneg_l; lia).
          assert (Zpos mr * P < 16777216 * P)
            by (apply Z.mul_lt_mono_pos_r; lia).
          assert (8388608 * P <= (Zpos m - 1) * P)
            by (apply Z.mul_le_mono_nonneg_r; lia).
          lia. }
      assert (H2 : (V r + V S) ^ 2 <= ((2 * Zpos m - 1) * P) ^ 2).
      { apply Z.pow_le_mono_l. rewrite HVS. lia. }
      replace (((2 * Zpos m - 1) * P) ^ 2)
        with ((4 * mm - 4 * Zpos m + 1) * (P * P)) in H2
        by (unfold mm; ring).
      assert (H3 : 4 * ((mm - d) * (P * P))
                   <= (4 * mm - 4 * Zpos m + 1) * (P * P)) by lia.
      replace (4 * ((mm - d) * (P * P))) with (4 * (mm - d) * (P * P)) in H3
        by ring.
      apply Z.mul_le_mono_pos_r in H3; [|exact HPP]. lia.
  - apply V_inj; [exact Hr | exact HS | exact Heq | lia].
  - (* nor above *)
    exfalso.
    destruct (Hmid S HS ltac:(lia)) as [_ H1]. specialize (H1 Hgt).
    replace (4 * V y * U) with (4 * Y) in H1 by (unfold Y; ring).
    destruct (V_zero_or_finite r Hr)
      as [H0|(sr & mr & er & Er & Hdr & Her & Hnr)]; [lia|].
    assert (sr = false).
    { destruct sr; [|reflexivity].
      pose proof (V_finite_sign _ _ _
                    (proj1 (eq_ind _ fv Hr _ Er))) as Hsg.
      rewrite <- Er in Hsg. unfold sgn in Hsg. lia. }
    subst sr.
    assert (Hr' : fv (S754_finite false mr er)) by (rewrite <- Er; exact Hr).
    assert (Hgt' : V S < V (S754_finite false mr er))
      by (rewrite <- Er; exact Hgt).
    pose proof (spacing m mr e er HS Hr' Hgt') as Hsp.
    fold S in Hsp. fold P in Hsp. rewrite <- Er in Hsp.
    assert (H2 : ((2 * Zpos m + 1) * P) ^ 2 <= (V r + V S) ^ 2).
    { apply Z.pow_le_mono_l. rewrite HVS in *. split; [|lia].
      apply Z.mul_nonneg_nonneg; lia. }
    replace (((2 * Zpos m + 1) * P) ^ 2)
      with ((4 * mm + 4 * Zpos m + 1) * (P * P)) in H2
      by (unfold mm; ring).
    assert (H3 : (4 * mm + 4 * Zpos m + 1) * (P * P)
                 <= 4 * ((mm + d) * (P * P))) by lia.
    replace (4 * ((mm + d) * (P * P))) with (4 * (mm + d) * (P * P)) in H3
      by ring.
    apply Z.mul_le_mono_pos_r in H3; [|exact HPP]. lia.
Qed.

(** At [steps_done = 0] the radicand is the rounded square of the start
    speed, and its root the start speed. *)
Lemma root_zero (S a : float) :
  in_range S -> accel_in_range a -> root S a 0 = S.
Proof.
  intros HSr Har. pose proof HSr as [HS HSb]. pose proof Har as [Ha Hab].
  pose proof U_pos as HU.
  destruct (accel2_props a Ha Hab) as (HA & HAb & _).
  destruct (square_props S HS HSb) as [HS2 HS2b].
  change (F32.of_Z 0) with F32.zero in *.
  assert (Ht : fv (F32.mul (F32.mul F32.two a) F32.zero)
               /\ V (F32.mul (F32.mul F32.two a) F32.zero) = 0).
  { destruct (mul_nearest' _ F32.zero HA fv_zero0) as (z & Hz & Hne).
    - rewrite V_zero, Z.mul_0_r. simpl Z.abs.
      apply Z.mul_pos_pos; [apply Z.mul_pos_pos|]; lia.
    - rewrite V_zero, Z.mul_0_r in Hz.
      assert (z = 0) by (apply Z.mul_eq_0 in Hz as [|]; lia). subst z.
      pose proof (nearest_le _ _ _ Hne fv_zero0) as H1.
      pose proof (nearest_ge _ _ _ Hne fv_zero0) as H2.
      rewrite V_zero in *. split; [exact (proj1 Hne) | lia]. }
  destruct Ht as [Ht HtV].
  assert (Hrad : fv (radicand S a 0)
                 /\ V (radicand S a 0) = V (F32.mul S S)).
  { unfold radicand. change (F32.of_Z 0) with F32.zero.
    assert (Hb : Z.abs (V (F32.mul S S)
                        + V (F32.mul (F32.mul F32.two a) F32.zero))
                 < 2 ^ (127 + K)).
    { rewrite p127. apply radicand_bound; [exact HS2b|].
      rewrite HtV. simpl Z.abs. apply Z.mul_nonneg_nonneg; lia. }
    pose proof (add_nearest _ _ HS2 Ht Hb) as Hne.
    pose proof (nearest_le _ _ _ Hne HS2) as H1.
    pose proof (nearest_ge _ _ _ Hne HS2) as H2.
    split; [exact (proj1 Hne) | lia]. }
  destruct Hrad as [Hrad HradV].
  destruct (floored_V _ Hrad) as [Hfl HflV].
  unfold root.
  replace (floored (radicand S a 0)) with (F32.mul S S).
  - now apply sqrt_square.
  - symmetry. apply V_inj; [exact Hfl | exact HS2 | lia | lia].
Qed.

(** X21. A move starts at its start speed: for a step the console accepts
    whose end speed lies on the side the acceleration points to (not below
    the start speed when accelerating, not above it when decelerating),
    [computeSpeed] at [steps_done = 0] is exactly [start_speed], although
    it is obtained as the square root of a rounded square. *)
Theorem profile_starts_at_start_speed (st : Step) (fw : Firmware) :
  acceptedStep st = true ->
  (F32.gtb (accel st) F32.zero = true ->
   F32.leb (start_speed st) (end_speed st) = true) ->
  (F32.ltb (accel st) F32.zero = true ->
   F32.leb (end_speed st) (start_speed st) = true) ->
  computeSpeed (startStep st fw) 0 = start_speed st.
Proof.
  intros Hacc Hup Hdn.
  destruct (accepted_globals st fw Hacc) as (Gs & Ge & Ga & HS & HE & Ha).
  set (mv := startStep st fw) in *.
  assert (HS' : in_range (g_start_speed mv)) by (rewrite Gs; exact HS).
  assert (HE' : in_range (g_end_speed mv)) by (rewrite Ge; exact HE).
  assert (Ha' : accel_in_range (g_accel mv)) by (rewrite Ga; exact Ha).
  destruct (computeSpeed_V mv 0 HS' HE' Ha' ltac:(lia)) as [Hf HV].
  rewrite Gs, Ge, Ga in HV. rewrite (root_zero _ _ HS Ha) in HV.
  destruct HS as [HSf HSb], HE as [HEf HEb], Ha as [Haf Hab].
  pose proof U_pos as HU.
  unfold F32.gtb in Hup. fold (F32.ltb F32.zero (accel st)) in Hup.
  rewrite (ltb_V F32.zero _ fv_zero0 Haf), V_zero in Hup.
  rewrite (ltb_V _ F32.zero Haf fv_zero0), V_zero in Hdn.
  rewrite (leb_V _ _ HSf HEf) in Hup. rewrite (leb_V _ _ HEf HSf) in Hdn.
  assert (HVeq : V (computeSpeed mv 0) = V (start_speed st));
    [|apply V_inj; [exact Hf | exact HSf | exact HVeq | rewrite HVeq; lia]].
  rewrite HV.
  destruct (V (accel st) =? 0) eqn:E0; [reflexivity|].
  apply Z.eqb_neq in E0.
  destruct (V (start_speed st) =? V (end_speed st)) eqn:Ee; [reflexivity|].
  cbn [orb].
  destruct (0 <? V (accel st)) eqn:Ep.
  - specialize (Hup eq_refl). apply Z.leb_le in Hup. lia.
  - apply Z.ltb_ge in Ep.
    assert (Hneg : (V (accel st) <? 0) = true) by (apply Z.ltb_lt; lia).
    specialize (Hdn Hneg). apply Z.leb_le in Hdn. lia.
Qed.

(** X22. For a step the console accepts, the speed [computeSpeed] returns
    lies between the smaller and the larger of the start and end speeds at
    every step count a [long] can hold; so it never exceeds the limit
    [startStep] gave the driver, nor 1000 steps/s. *)
Theorem speed_within_envelope (st : Step) (fw : Firmware) (n : Z) :
  acceptedStep st = true ->
  0 <= n < 2 ^ 31 ->
  let v := computeSpeed (startStep st fw) n in
  F32.leb (F32.min (start_speed st) (end_speed st)) v = true
  /\ F32.leb v (F32.max (start_speed st) (end_speed st)) = true
  /\ F32.leb v ABS_MAX_SPEED = true.
Proof.
  intros Hacc Hn v.
  destruct (accepted_globals st fw Hacc) as (Gs & Ge & Ga & HS & HE & Ha).
  set (mv := startStep st fw) in *.
  assert (HS' : in_range (g_start_speed mv)) by (rewrite Gs; exact HS).
  assert (HE' : in_range (g_end_speed mv)) by (rewrite Ge; exact HE).
  assert (Ha' : accel_in_range (g_accel mv)) by (rewrite Ga; exact Ha).
  destruct (computeSpeed_V mv n HS' HE' Ha' Hn) as [Hf HV].
  destruct (root_mono _ _ 0 n HS' Ha' ltac:(lia) ltac:(lia) ltac:(lia))
    as [Hup Hdn].
  rewrite Gs, Ge, Ga in *. rewrite (root_zero _ _ HS Ha) in Hup, Hdn.
  destruct HS as [HSf HSb], HE as [HEf HEb], Ha as [Haf Hab].
  destruct (min_V _ _ HSf HEf) as [Hmin HminV].
  destruct (max_V _ _ HSf HEf) as [Hmax HmaxV].
  pose proof U_pos as HU. fold v in Hf, HV.
  rewrite (leb_V _ _ Hmin Hf), (leb_V _ _ Hf Hmax),
    (leb_V _ _ Hf fv_thousand), HminV, HmaxV, V_thousand, !Z.leb_le.
  rewrite HV.
  destruct ((V (accel st) =? 0)
            || (V (start_speed st) =? V (end_speed st))) eqn:Ec; [lia|].
  apply orb_false_iff in Ec as [E0 _]. apply Z.eqb_neq in E0.
  destruct (0 <? V (accel st)) eqn:Ep.
  - apply Z.ltb_lt in Ep. specialize (Hup Ep). lia.
  - apply Z.ltb_ge in Ep. specialize (Hdn ltac:(lia)). lia.
Qed.

(** X23. A decelerating step whose end speed is above its start speed
    runs at the end speed from the first step on: for a step the console
    accepts with a negative acceleration and [start_speed < end_speed],
    [computeSpeed] returns [end_speed] at every step count.  (The
    accelerating case with the end speed below is C10.) *)
Theorem undershoot_runs_at_end_speed (st : Step) (fw : Firmware) (n : Z) :
  acceptedStep st = true ->
  F32.ltb (accel st) F32.zero = true ->
  F32.ltb (start_speed st) (end_speed st) = true ->
  0 <= n < 2 ^ 31 ->
  computeSpeed (startStep st fw) n = end_speed st.
Proof.
  intros Hacc Hneg Hlt Hn.
  destruct (accepted_globals st fw Hacc) as (Gs & Ge & Ga & HS & HE & Ha).
  set (mv := startStep st fw) in *.
  assert (HS' : in_range (g_start_speed mv)) by (rewrite Gs; exact HS).
  assert (HE' : in_range (g_end_speed mv)) by (rewrite Ge; exact HE).
  assert (Ha' : accel_in_range (g_accel mv)) by (rewrite Ga; exact Ha).
  destruct (computeSpeed_V mv n HS' HE' Ha' Hn) as [Hf HV].
  destruct (root_mono _ _ 0 n HS' Ha' ltac:(lia) ltac:(lia) ltac:(lia))
    as [_ Hdn].
  rewrite Gs, Ge, Ga in *. rewrite (root_zero _ _ HS Ha) in Hdn.
  destruct HS as [HSf HSb], HE as [HEf HEb], Ha as [Haf Hab].
  pose proof U_pos as HU.
  rewrite (ltb_V _ F32.zero Haf fv_zero0), V_zero in Hneg.
  apply Z.ltb_lt in Hneg.
  rewrite (ltb_V _ _ HSf HEf) in Hlt. apply Z.ltb_lt in Hlt.
  specialize (Hdn Hneg).
  assert (HVeq : V (computeSpeed mv n) = V (end_speed st));
    [|apply V_inj; [exact Hf | exact HEf | exact HVeq | rewrite HVeq; lia]].
  rewrite HV.
  replace (V (accel st) =? 0) with false by (symmetry; apply Z.eqb_neq; lia).
  replace (V (start_speed st) =? V (end_speed st)) with false
    by (symmetry; apply Z.eqb_neq; lia).
  replace (0 <? V (accel st)) with false by (symmetry; apply Z.ltb_ge; lia).
  cbn [orb]. lia.
Qed.

Definition undershootStep : Step :=
  {| forward := true; distance := 100; start_speed := F32.of_Z 10;
     end_speed := F32.of_Z 50; accel := F32.of_Z (-5) |}.

Lemma profile_starts_at_start_speed_witness :
  computeSpeed (startStep decelStep (fst setup)) 0 = F32.of_Z 50.
Proof.
  apply (profile_starts_at_start_speed decelStep (fst setup) eq_refl);
    [discriminate | reflexivity].
Defined.

Lemma speed_within_envelope_witness :
  F32.leb (F32.of_Z 10)
    (computeSpeed (startStep scenarioStep (fst setup)) 160) = true
  /\ F32.leb (computeSpeed (startStep scenarioStep (fst setup)) 160)
       (F32.of_Z 50) = true
  /\ F32.leb (computeSpeed (startStep scenarioStep (fst setup)) 160)
       ABS_MAX_SPEED = true.
Proof.
  apply (speed_within_envelope scenarioStep (fst setup) 160 eq_refl).
  split; [lia | reflexivity].
Defined.

Lemma undershoot_runs_at_end_speed_witness :
  computeSpeed (startStep undershootStep (fst setup)) 7 = F32.of_Z 50.
Proof.
  apply (undershoot_runs_at_end_speed undershootStep (fst setup) 7
           eq_refl eq_refl eq_refl).
  split; [lia | reflexivity].
Defined.

(** * A manual move from start to finish *)

(** The number of ticks on which a step was due. *)
Fixpoint dueTicks (dues : list bool) : Z :=
  match dues with
  | [] => 0
  | d :: ds => (if d then 1 else 0) + dueTicks ds
  end.

Lemma dueTicks_nonneg (dues : list bool) : 0 <= dueTicks dues.
Proof. induction dues as [|[] ds IH]; simpl; lia. Qed.

Lemma ltb_shift (a b c : Z) : (a <? b - c) = (c + a <? b).
Proof. destruct (Z.ltb_spec a (b - c)), (Z.ltb_spec (c + a) b); lia. Qed.

Section ManualMove.
Variable toFloat : string -> float.

(** Calls of [loop()] with nothing received on the serial line, one for
    each entry of [dues]; the output is that of all the calls. *)
Fixpoint quietRun (dues : list bool) (fw : Firmware)
    : option (Firmware * list Tok) :=
  match dues with
  | [] => Some (fw, [])
  | d :: ds =>
      match loop toFloat d fw [] with
      | None => None
      | Some (fw1, _, out) =>
          match quietRun ds fw1 with
          | None => None
          | Some (fw2, out') => Some (fw2, out ++ out')
          end
      end
  end.

Lemma quietRun_idle (dues : list bool) (fw : Firmware) :
  state fw = STATE_IDLE -> g_moving fw = false ->
  quietRun dues fw = Some (fw, []).
Proof.
  intros Hs Hm. induction dues as [|d ds IH]; [reflexivity|].
  cbn [quietRun]. rewrite (idle_quiet_tick toFloat d fw Hs Hm), IH.
  reflexivity.
Qed.

Definition moveCompleteMsg (fw' : Firmware) : list Tok :=
  [Endl] ++ println (Txt "[DONE] Move complete.") ++ printMainMenu fw'.

(** One quiet tick of a manual move. *)
Lemma manual_tick (d : bool) (fw : Firmware) :
  Inv fw -> state fw = STATE_MOVING_MANUAL ->
  let p := Z.abs (currentPos (stepper fw)) in
  exists fw',
    Inv fw'
    /\ g_target_dist fw' = g_target_dist fw
    /\ g_fwd fw' = g_fwd fw
    /\ pulses (stepper fw') = pulses (stepper fw) + (if d then 1 else 0)
    /\ Z.abs (currentPos (stepper fw')) = p + (if d then 1 else 0)
    /\ currentPos (stepper fw')
       = (if g_fwd fw then Z.abs (currentPos (stepper fw'))
          else - Z.abs (currentPos (stepper fw')))
    /\ if d && (p + 1 =? g_target_dist fw)
       then loop toFloat d fw [] = Some (fw', [], moveCompleteMsg fw')
            /\ state fw' = STATE_IDLE /\ g_moving fw' = false
            /\ outputs (stepper fw') = false
       else loop toFloat d fw [] = Some (fw', [], [])
            /\ state fw' = STATE_MOVING_MANUAL.
Proof.
  intros [HS HM] Hs p.
  assert (Hmov : isMoving (state fw) = true) by now rewrite Hs.
  pose proof (inv_moving _ HM) as Hg. rewrite Hmov in Hg.
  destruct (inv_move _ HM Hmov) as [Hsp Hpos].
  pose proof (inv_target _ HM) as Ht.
  pose proof (inv_dist _ HM) as Hdist.
  pose proof (service_moving d fw Hg Hsp) as Hst. cbv zeta in Hst.
  destruct (service_store d fw) as (Hp & Hc & Hs' & _ & _ & Htd).
  set (p1 := if d
             then wrap_long (if g_fwd fw then currentPos (stepper fw) + 1
                             else currentPos (stepper fw) - 1)
             else currentPos (stepper fw)) in *.
  assert (Hp1 : p1 = currentPos (stepper fw)
                     + (if d then if g_fwd fw then 1 else -1 else 0)).
  { unfold p1. destruct d; [|lia].
    rewrite wrap_long_small by (destruct (g_fwd fw); lia).
    destruct (g_fwd fw); lia. }
  assert (Habs : Z.abs p1 = p + (if d then 1 else 0)).
  { unfold p. rewrite Hp1. revert Hpos. destruct d, (g_fwd fw); lia. }
  assert (Hsign : p1 = if g_fwd fw then Z.abs p1 else - Z.abs p1).
  { rewrite Hp1. revert Hpos. destruct d, (g_fwd fw); lia. }
  assert (Hb : Z.abs p1 <= g_target_dist fw).
  { rewrite Habs. unfold p. revert Hpos. destruct d, (g_fwd fw); lia. }
  assert (Hdone : moveDone (service d fw)
                  = d && (p + 1 =? g_target_dist fw)).
  { unfold moveDone, Stepper.currentPosition. rewrite Htd, Hst.
    cbn [currentPos]. fold p1.
    rewrite abs_long_small by lia. rewrite Habs, Z.geb_leb.
    assert (Hlt : p < g_target_dist fw)
      by (unfold p; revert Hpos; destruct (g_fwd fw); lia).
    clearbody p1 p. destruct d; cbn [andb].
    - destruct (Z.eqb_spec (p + 1) (g_target_dist fw));
        [apply Z.leb_le | apply Z.leb_gt]; lia.
    - apply Z.leb_gt. lia. }
  assert (El : exists fw' o', loop toFloat d fw [] = Some (fw', [], o')).
  { unfold loop. rewrite Hs', Hs. cbn [isMoving].
    destruct (moveDone (service d fw)); [|eexists _, _; reflexivity].
    unfold complete, bind, print, ret.
    cbn [state with_stepper with_moving]. rewrite Hs', Hs.
    eexists _, _. reflexivity. }
  destruct El as (fw' & o' & El).
  pose proof (loop_Inv toFloat _ _ _ _ _ _ (conj HS HM) El) as Hinv'.
  revert El. unfold loop. rewrite Hs', Hs, Hdone. cbn [isMoving].
  destruct (d && (p + 1 =? g_target_dist fw)).
  - unfold complete, bind, print, ret.
    cbn [state with_stepper with_moving]. rewrite Hs', Hs.
    intros [= <- <-]. eexists. split; [exact Hinv'|].
    cbn [g_target_dist g_fwd with_state with_stepper with_moving stepper
         Stepper.disableOutputs Stepper.setOutputs pulses currentPos outputs
         state g_moving].
    rewrite (service_eq d fw).
    cbn [g_target_dist g_fwd with_stepper stepper]. rewrite Hst.
    cbn [pulses currentPos]. fold p1.
    repeat split; auto. destruct d; lia.
  - unfold bind, readLineIfAvailable, ret. intros [= <- <-].
    eexists. split; [exact Hinv'|].
    rewrite (service_eq d fw).
    cbn [g_target_dist g_fwd with_stepper stepper state]. rewrite Hst.
    cbn [pulses currentPos]. fold p1.
    repeat split; auto. destruct d; lia.
Qed.

Lemma manual_run (dues : list bool) (fw : Firmware) :
  Inv fw -> state fw = STATE_MOVING_MANUAL ->
  let remaining := g_target_dist fw - Z.abs (currentPos (stepper fw)) in
  exists fw',
    g_target_dist fw' = g_target_dist fw
    /\ currentPos (stepper fw')
       = (if g_fwd fw then Z.abs (currentPos (stepper fw'))
          else - Z.abs (currentPos (stepper fw')))
    /\ if dueTicks dues <? remaining
       then quietRun dues fw = Some (fw', [])
            /\ state fw' = STATE_MOVING_MANUAL
            /\ Z.abs (currentPos (stepper fw'))
               = Z.abs (currentPos (stepper fw)) + dueTicks dues
            /\ pulses (stepper fw') = pulses (stepper fw) + dueTicks dues
       else quietRun dues fw = Some (fw', moveCompleteMsg fw')
            /\ state fw' = STATE_IDLE
            /\ outputs (stepper fw') = false
            /\ Z.abs (currentPos (stepper fw')) = g_target_dist fw
            /\ pulses (stepper fw') = pulses (stepper fw) + remaining.
Proof.
  revert fw. induction dues as [|d ds IH]; intros fw Hinv Hs remaining.
  - assert (Hmov : isMoving (state fw) = true) by now rewrite Hs.
    destruct (inv_move _ (proj2 Hinv) Hmov) as [_ Hpos].
    exists fw. split; [reflexivity|]. split.
    { revert Hpos. destruct (g_fwd fw); lia. }
    cbn [dueTicks].
    replace (0 <? remaining) with true
      by (symmetry; apply Z.ltb_lt; unfold remaining;
          revert Hpos; destruct (g_fwd fw); lia).
    repeat split; auto; lia.
  - destruct (manual_tick d fw Hinv Hs)
      as (fw1 & Hinv1 & Ht1 & Hf1 & Hpu1 & Hab1 & Hsg1 & Hcase).
    cbv zeta in Hcase, Hab1.
    assert (Hmov : isMoving (state fw) = true) by now rewrite Hs.
    destruct (inv_move _ (proj2 Hinv) Hmov) as [_ Hpos].
    assert (Hrem : 1 <= remaining)
      by (unfold remaining; revert Hpos; destruct (g_fwd fw); lia).
    pose proof (dueTicks_nonneg ds) as Hds.
    cbn [quietRun dueTicks].
    destruct (d && (Z.abs (currentPos (stepper fw)) + 1 =? g_target_dist fw))
      eqn:Edone.
    + (* the last step of the move *)
      destruct Hcase as (Hl & Hs1 & Hg1 & Ho1).
      apply andb_true_iff in Edone as [-> Eeq]. apply Z.eqb_eq in Eeq.
      rewrite Hl, (quietRun_idle ds fw1 Hs1 Hg1).
      exists fw1. split; [exact Ht1|]. split; [exact Hsg1|].
      replace (1 + dueTicks ds <? remaining) with false
        by (symmetry; apply Z.ltb_ge; unfold remaining; lia).
      rewrite app_nil_r. repeat split; auto; unfold remaining; lia.
    + destruct Hcase as (Hl & Hs1).
      destruct (IH fw1 Hinv1 Hs1) as (fw2 & Ht2 & Hsg2 & Hcase2).
      cbv zeta in Hcase2. rewrite Hl.
      exists fw2. split; [congruence|]. split; [now rewrite <- Hf1|].
      rewrite Ht1, Hab1 in Hcase2.
      replace (g_target_dist fw
               - (Z.abs (currentPos (stepper fw)) + (if d then 1 else 0)))
        with (remaining - (if d then 1 else 0)) in Hcase2
        by (unfold remaining; lia).
      rewrite ltb_shift in Hcase2.
      destruct ((if d then 1 else 0) + dueTicks ds <? remaining).
      * destruct Hcase2 as (Hq & Hs2 & Hab2 & Hpu2). rewrite Hq.
        repeat split; auto; lia.
      * destruct Hcase2 as (Hq & Hs2 & Ho2 & Hab2 & Hpu2). rewrite Hq.
        repeat split; auto; unfold remaining; lia.
Qed.

(** X24. A manual move makes exactly [distance] steps, whatever its speed
    profile: from a reachable state in [STATE_MOVING_MANUAL], with nothing
    received on the serial line, as long as fewer steps have been due than
    the distance left the move goes on and has made one step per due tick,
    all in its direction; on the tick that makes the last one the firmware
    prints the move-complete message and the menu, switches the outputs
    off and becomes idle, and the later ticks change nothing: the position
    is then the target distance exactly. *)
Theorem manual_move_makes_distance_steps (fw : Firmware) (dues : list bool) :
  reachable toFloat fw ->
  state fw = STATE_MOVING_MANUAL ->
  let remaining := g_target_dist fw - abs_long (currentPos (stepper fw)) in
  1 <= remaining
  /\ exists fw',
       if dueTicks dues <? remaining
       then quietRun dues fw = Some (fw', [])
            /\ state fw' = STATE_MOVING_MANUAL
            /\ abs_long (currentPos (stepper fw'))
               = abs_long (currentPos (stepper fw)) + dueTicks dues
            /\ pulses (stepper fw') = pulses (stepper fw) + dueTicks dues
       else quietRun dues fw = Some (fw', moveCompleteMsg fw')
            /\ state fw' = STATE_IDLE
            /\ outputs (stepper fw') = false
            /\ currentPos (stepper fw')
               = (if g_fwd fw then g_target_dist fw else - g_target_dist fw)
            /\ pulses (stepper fw') = pulses (stepper fw) + remaining.
Proof.
  intros Hr Hs remaining.
  pose proof (reachable_Inv toFloat fw Hr) as Hinv.
  assert (Hmov : isMoving (state fw) = true) by now rewrite Hs.
  destruct (inv_move _ (proj2 Hinv) Hmov) as [_ Hpos].
  pose proof (inv_target _ (proj2 Hinv)) as Ht.
  pose proof (inv_dist _ (proj2 Hinv)) as Hd.
  pose proof (dueTicks_nonneg dues) as Hdn.
  unfold remaining. rewrite abs_long_small by lia.
  split; [revert Hpos; destruct (g_fwd fw); lia|].
  destruct (manual_run dues fw Hinv Hs) as (fw' & Ht' & Hsg & Hcase).
  cbv zeta in Hcase. exists fw'.
  destruct (dueTicks dues
            <? g_target_dist fw - Z.abs (currentPos (stepper fw))) eqn:E.
  - apply Z.ltb_lt in E.
    destruct Hcase as (Hq & Hs2 & Hab & Hpu).
    rewrite abs_long_small by lia.
    repeat split; auto.
  - destruct Hcase as (Hq & Hs2 & Ho & Hab & Hpu).
    repeat split; auto.
    rewrite Hsg, Hab. reflexivity.
Qed.
End ManualMove.

Definition threeStepLines : list string :=
  ["M"; "B"; "3"; "10"; "50"; "5"]%string.

Definition stepBack3 : Step :=
  {| forward := false; distance := 3; start_speed := F32.of_Z 10;
     end_speed := F32.of_Z 50; accel := F32.of_Z 5 |}.

Definition movingBack3 : Firmware :=
  with_state STATE_MOVING_MANUAL
    (startStep stepBack3
       (with_stepper (Stepper.enableOutputs (stepper (fst setup))) (fst setup))).

Lemma movingBack3_started :
  exists out, loop demoToFloat false (fst setup) threeStepLines
              = Some (movingBack3, [], out).
Proof. eexists. vm_compute. reflexivity. Qed.

Lemma movingBack3_reachable : reachable demoToFloat movingBack3.
Proof.
  destruct movingBack3_started as [out H].
  exact (reach_loop demoToFloat _ _ _ _ _ _ (reach_setup demoToFloat) H).
Qed.

Lemma manual_move_makes_distance_steps_witness :
  exists fw',
    quietRun demoToFloat [true; false; true; true; false; true] movingBack3
    = Some (fw', moveCompleteMsg fw')
    /\ state fw' = STATE_IDLE
    /\ currentPos (stepper fw') = -3
    /\ pulses (stepper fw') = 3.
Proof.
  destruct (manual_move_makes_distance_steps demoToFloat movingBack3
              [true; false; true; true; false; true]
              movingBack3_reachable eq_refl)
    as (_ & fw' & Hq & Hs & _ & Hp & Hpu).
  exists fw'. repeat split; assumption.
Defined.

(** * Command lines are trimmed and put in upper case *)

Lemma isspace_toupper (c : ascii) : isspace (toupper c) = isspace c.
Proof. destruct c as [[] [] [] [] [] [] [] []]; reflexivity. Qed.

Lemma toupper_idem (c : ascii) : toupper (toupper c) = toupper c.
Proof. destruct c as [[] [] [] [] [] [] [] []]; reflexivity. Qed.

Lemma toUpperCase_idem (s : string) :
  toUpperCase (toUpperCase s) = toUpperCase s.
Proof.
  induction s as [|c s IH]; [reflexivity|].
  simpl. now rewrite toupper_idem, IH.
Qed.

Lemma ltrim_toUpperCase (s : string) :
  ltrim (toUpperCase s) = toUpperCase (ltrim s).
Proof.
  induction s as [|c s IH]; [reflexivity|].
  simpl. rewrite isspace_toupper. now destruct (isspace c).
Qed.

Lemma rtrim_toUpperCase (s : string) :
  rtrim (toUpperCase s) = toUpperCase (rtrim s).
Proof.
  induction s as [|c s IH]; [reflexivity|].
  simpl. rewrite IH, isspace_toupper.
  destruct (rtrim s); simpl; [now destruct (isspace c) | reflexivity].
Qed.

Lemma rtrim_idem (s : string) : rtrim (rtrim s) = rtrim s.
Proof.
  induction s as [|c s IH]; [reflexivity|].
  simpl. destruct (rtrim s) as [|d r] eqn:E.
  - destruct (isspace c) eqn:Ec; [reflexivity|]. simpl. now rewrite Ec.
  - change (rtrim (String c (String d r))) with
      (match rtrim (String d r) with
       | EmptyString => if isspace c then EmptyString else String c EmptyString
       | r0 => String c r0
       end).
    now rewrite IH.
Qed.

(** A string that does not begin with white space. *)
Definition headOk (s : string) : Prop :=
  match s with
  | EmptyString => True
  | String c _ => isspace c = false
  end.

Lemma ltrim_headOk (s : string) : headOk (ltrim s).
Proof.
  induction s as [|c s IH]; [exact I|].
  simpl. destruct (isspace c) eqn:E; [exact IH | exact E].
Qed.

Lemma headOk_ltrim (s : string) : headOk s -> ltrim s = s.
Proof. destruct s as [|c s]; [reflexivity|]. simpl. now intros ->. Qed.

Lemma rtrim_headOk (s : string) : headOk s -> headOk (rtrim s).
Proof.
  destruct s as [|c s]; [exact id|]. simpl. intros Hc.
  destruct (rtrim s); [now rewrite Hc | exact Hc].
Qed.

Lemma trim_idem (s : string) : trim (trim s) = trim s.
Proof.
  unfold trim.
  rewrite (headOk_ltrim (rtrim (ltrim s)))
    by (apply rtrim_headOk, ltrim_headOk).
  apply rtrim_idem.
Qed.

Lemma normalise_idem (l : string) :
  toUpperCase (trim (toUpperCase (trim l))) = toUpperCase (trim l).
Proof.
  unfold trim at 1.
  rewrite ltrim_toUpperCase, rtrim_toUpperCase, toUpperCase_idem.
  fold (trim (trim l)). now rewrite trim_idem.
Qed.

Section Normalised.
Variable toFloat : string -> float.

(** X25. A line that [loop()] reads is treated exactly as the same line
    stripped of leading and trailing white space and put in upper case:
    the commands of the idle state and the abort request are insensitive to
    case and to surrounding blanks.  (A call on which a move is done reads
    no line.) *)
Theorem command_line_normalised (due : bool) (fw : Firmware) (l : string)
    (inp : list string) :
  isMoving (state fw) && moveDone (service due fw) = false ->
  loop toFloat due fw (l :: inp)
  = loop toFloat due fw (toUpperCase (trim l) :: inp).
Proof.
  intros H. destruct (service_store due fw) as (_ & _ & Hs & _).
  unfold loop. cbv zeta. rewrite Hs.
  destruct (isMoving (state fw)).
  - cbn [andb] in H. rewrite H.
    unfold bind, readLineIfAvailable. cbv beta iota.
    now rewrite normalise_idem.
  - unfold bind, readLineIfAvailable. cbv beta iota.
    now rewrite normalise_idem.
Qed.
End Normalised.

Lemma command_line_normalised_witness :
  loop demoToFloat false twoSteps ["  r "%string]
  = loop demoToFloat false twoSteps ["R"%string].
Proof.
  apply (command_line_normalised demoToFloat false twoSteps "  r "%string []
           eq_refl).
Defined.

(** * A program run and the scenario move, end to end *)

Section ProgramRun.
Variable toFloat : string -> float.

(** C8. For a stored program of [N = programCount] steps running its step
    [i = progStepIndex]: on a tick where the current move is done, if
    [i+1 < N] the firmware re-enables the outputs and starts the move of
    [st = program[i+1]], the entry [i+1] of the listing: the target
    distance and the direction are those of [st], the profile that of
    [st], the position is reset to zero with no pulse made, the store is
    untouched, and for speeds of at least 1 the driver is commanded the
    start speed of [st], signed by its direction, under the limit
    [max(start_speed, end_speed)]; it prints the step-advance message and
    stays in [STATE_MOVING_PROG] with index [i+1].  If [i+1 = N] it prints
    the program-complete message and goes to [STATE_IDLE] with the outputs
    disabled.  So a run that is not aborted prints, from step [i] on,
    exactly [N-1-i] step-advance messages and one program-complete
    message, which comes last: from [i = 0], [N] completions in all. *)
Theorem program_run_spec (fw : Firmware) :
  state fw = STATE_MOVING_PROG ->
  (0 <= progStepIndex fw < programCount fw /\ programCount fw <= MAX_STEPS) ->
  (forall due inp,
      moveDone (service due fw) = true ->
      (progStepIndex fw + 1 < programCount fw ->
       let st := program_at fw (progStepIndex fw + 1) in
       (forall st',
           listing fw !! Z.to_nat (progStepIndex fw + 1) = Some st' ->
           st' = st)
       /\ (length (program fw) = Z.to_nat MAX_STEPS ->
           listing fw !! Z.to_nat (progStepIndex fw + 1) = Some st)
       /\ exists fw',
         loop toFloat due fw inp = Some (fw', inp, stepAdvancedMsg fw)
         /\ state fw' = STATE_MOVING_PROG
         /\ progStepIndex fw' = progStepIndex fw + 1
         /\ outputs (stepper fw') = true
         /\ g_moving fw' = true
         /\ g_target_dist fw' = distance st
         /\ currentPos (stepper fw') = 0
         /\ (forall n, computeSpeed fw' n = computeSpeed (startStep st fw) n)
         /\ g_fwd fw' = forward st
         /\ g_start_speed fw' = F32.max F32.one (start_speed st)
         /\ g_end_speed fw' = F32.max F32.one (end_speed st)
         /\ g_accel fw' = accel st
         /\ pulses (stepper fw') = pulses (stepper (service due fw))
         /\ program fw' = program fw
         /\ programCount fw' = programCount fw
         /\ (F32.leb F32.one (start_speed st) = true ->
             F32.leb F32.one (end_speed st) = true ->
             speed (stepper fw')
             = (if forward st then start_speed st
                else F32.neg (start_speed st))
             /\ maxSpeed (stepper fw')
                = F32.max (start_speed st) (end_speed st)))
      /\ (progStepIndex fw + 1 = programCount fw ->
          exists fw',
            loop toFloat due fw inp = Some (fw', inp, programCompleteMsg fw')
            /\ state fw' = STATE_IDLE
            /\ outputs (stepper fw') = false
            /\ g_moving fw' = false))
  /\ (forall out fw',
        progRun toFloat fw out fw' ->
        aborts out = O ->
        stepAdvances out = Z.to_nat (programCount fw - 1 - progStepIndex fw)
        /\ programCompletes out = 1%nat
        /\ exists pre, out = pre ++ programCompleteMsg fw').
Proof.
  intros Hs Hi. split.
  - intros due inp Hdone.
    destruct (service_store due fw) as (Hp & Hc & Hs' & Hi' & _).
    unfold MAX_STEPS in Hi.
    unfold loop. rewrite Hs', Hs, Hdone.
    change (isMoving STATE_MOVING_PROG) with true. cbv beta iota.
    unfold complete, bind, print, ret. simpl. rewrite Hs', Hs, Hi', Hc.
    unfold wrap_u8. rewrite Z.mod_small by lia.
    split.
    + intros Hlt. set (st := program_at fw (progStepIndex fw + 1)).
      split.
      { intros st' Hl. unfold listing in Hl.
        rewrite lookup_take_lt in Hl by lia.
        unfold st, program_at. now rewrite Hl. }
      split.
      { intros Hlen. unfold listing. rewrite lookup_take_lt by lia.
        unfold st, program_at.
        destruct (lookup_lt_is_Some_2 (program fw)
                    (Z.to_nat (progStepIndex fw + 1))) as [x Hx];
          [unfold MAX_STEPS in Hlen; lia|].
        now rewrite Hx. }
      apply Z.ltb_lt in Hlt. rewrite Hlt.
      set (fw0 := with_stepper
                    (Stepper.enableOutputs
                       (Stepper.disableOutputs (stepper (service due fw))))
                    (with_progStepIndex (progStepIndex fw + 1)
                       (with_stepper
                          (Stepper.disableOutputs (stepper (service due fw)))
                          (with_moving false (service due fw))))).
      exists (startStep st fw0). split.
      { unfold stepAdvancedMsg, st, fw0, program_at. simpl. rewrite Hp.
        now replace (progStepIndex fw + 1 + 1) with (progStepIndex fw + 2)
          by lia. }
      destruct (startStep_fields st fw0)
        as (Fo & Fs & Fi & Fc & Fpr & Fm & Ft & Fp).
      assert (Hpu : pulses (stepper (startStep st fw0))
                    = pulses (stepper (service due fw))).
      { unfold startStep, Stepper.setSpeed, Stepper.setMaxSpeed. cbn.
        repeat case_match; reflexivity. }
      assert (Hsp : F32.leb F32.one (start_speed st) = true ->
                    F32.leb F32.one (end_speed st) = true ->
                    speed (stepper (startStep st fw0))
                    = (if forward st then start_speed st
                       else F32.neg (start_speed st))
                    /\ maxSpeed (stepper (startStep st fw0))
                       = F32.max (start_speed st) (end_speed st)).
      { intros H1 H2. rewrite (startStep_stepper st fw0 H1 H2).
        split; reflexivity. }
      rewrite Fo, Fs, Fi, Fm, Ft, Fp, Fc, Fpr, Hpu.
      do 12 (split; [first [reflexivity | cbn; congruence]|]).
      split; [exact Hp|]. split; [exact Hc | exact Hsp].
    + intros Heq.
      destruct (progStepIndex fw + 1 <? programCount fw) eqn:E;
        [apply Z.ltb_lt in E; lia|].
      exists (with_state STATE_IDLE
                (with_progStepIndex (progStepIndex fw + 1)
                   (with_stepper
                      (Stepper.disableOutputs (stepper (service due fw)))
                      (with_moving false (service due fw))))).
      split.
      { unfold programCompleteMsg, printMainMenu. simpl. rewrite Hc.
        reflexivity. }
      repeat split; reflexivity.
  - intros out fw' Hrun Hab. exact (progRun_counts _ _ _ _ Hrun Hs Hi Hab).
Qed.
End ProgramRun.

Lemma program_run_spec_witness :
  listing running0 !! 1%nat = Some stepB
  /\ (exists fw',
         loop demoToFloat true running0 []
         = Some (fw', [], stepAdvancedMsg running0)
         /\ state fw' = STATE_MOVING_PROG /\ progStepIndex fw' = 1
         /\ outputs (stepper fw') = true
         /\ g_target_dist fw' = 1
         /\ g_fwd fw' = false
         /\ speed (stepper fw') = F32.neg (F32.of_Z 20)
         /\ maxSpeed (stepper fw') = F32.of_Z 20)
  /\ exists out fw',
       progRun demoToFloat running0 out fw'
       /\ stepAdvances out = 1%nat /\ programCompletes out = 1%nat.
Proof.
  destruct (program_run_spec demoToFloat running0 eq_refl
              ltac:(vm_compute; repeat split; discriminate)) as [Htick Hrun].
  destruct (proj1 (Htick true [] eq_refl) eq_refl)
    as (_ & Hl & fw' & H1 & H2 & H3 & H4 & _ & H6 & _ & _ & H9 & _ & _ & _
        & _ & _ & _ & H16).
  destruct (H16 eq_refl eq_refl) as [H17 H18].
  split; [exact (Hl eq_refl)|]. split.
  - exists fw'. repeat split; assumption.
  - assert (R : exists out fw',
               progRun demoToFloat running0 out fw' /\ aborts out = O).
    { eexists _, _. split.
      - eapply (progRun_step demoToFloat running0 true []);
          [vm_compute; reflexivity | discriminate |].
        eapply (progRun_last demoToFloat _ true []);
          [vm_compute; reflexivity | reflexivity].
      - reflexivity. }
    destruct R as (out & fw'' & Hr & Ha).
    exists out, fw''. destruct (Hrun out fw'' Hr Ha) as (Hx & Hy & _).
    repeat split; assumption.
Defined.

(** The manual move of C5 started from the console satisfies the
    invariant of the reachable states. *)
Lemma movingManual_Inv : Inv movingManual.
Proof.
  destruct movingManual_reached as [out H].
  apply (reachable_Inv demoToFloat).
  exact (reach_loop demoToFloat _ _ _ _ _ _ (reach_setup demoToFloat) H).
Qed.

(** C5, amended.  For the step {Forward, distance 100, start 10, end 50,
    accel 5}: the profile is 10 at [steps_done = 0]; at 160, where
    [v2 = 100 + 2*5*160 = 1700], it is the binary32 square root of 1700
    (10808474 * 2^-18, about 41.23), and it stays under the end speed for
    every [steps_done < 240]; from 240 on it is exactly the end speed 50,
    by the clamp: at 320, where [v2 = 3300], the square root is above 50
    and the speed returned is 50.  The move is done exactly when the
    absolute position has reached 100, and the executor gets there
    whatever the timing of the steps: started from the console and run
    with nothing received, the move is still going, with one step made per
    due tick, as long as fewer than 100 steps were due, and it is complete
    at position 100 from the 100th due tick on. *)
Theorem scenario_profile (toFloat : string -> float) (fw : Firmware) :
  let mv := startStep scenarioStep fw in
  computeSpeed mv 0 = F32.of_Z 10
  /\ computeSpeed mv 160 = S754_finite false 10808474 (-18)
  /\ F32.ltb (computeSpeed mv 160) (F32.of_Z 50) = true
  /\ F32.ltb (F32.of_Z 50) (root (g_start_speed mv) (g_accel mv) 320) = true
  /\ computeSpeed mv 320 = F32.of_Z 50
  /\ (forall n, 240 <= n < 2 ^ 31 -> computeSpeed mv n = F32.of_Z 50)
  /\ (forall n, 0 <= n < 240 ->
      F32.ltb (computeSpeed mv n) (F32.of_Z 50) = true)
  /\ (forall s : AccelStepper,
        moveDone (with_stepper s mv) = true
        <-> 100 <= abs_long (currentPos s))
  /\ (forall dues : list bool,
        exists fw',
          if dueTicks dues <? 100
          then quietRun toFloat dues movingManual = Some (fw', [])
               /\ state fw' = STATE_MOVING_MANUAL
               /\ currentPos (stepper fw') = dueTicks dues
               /\ moveDone fw' = false
          else quietRun toFloat dues movingManual
               = Some (fw', moveCompleteMsg fw')
               /\ state fw' = STATE_IDLE
               /\ currentPos (stepper fw') = 100
               /\ moveDone fw' = true).
Proof.
  intros mv.
  do 5 (split; [reflexivity|]).
  split; [|split; [|split]].
  - intros n Hn.
    destruct (accepted_globals scenarioStep fw eq_refl)
      as (Gs & Ge & Ga & HS & HE & Ha).
    fold mv in Gs, Ge, Ga.
    assert (HS' : in_range (g_start_speed mv)) by (rewrite Gs; exact HS).
    assert (HE' : in_range (g_end_speed mv)) by (rewrite Ge; exact HE).
    assert (Ha' : accel_in_range (g_accel mv)) by (rewrite Ga; exact Ha).
    destruct (computeSpeed_V mv n HS' HE' Ha' ltac:(lia)) as [Hf HV].
    destruct (root_mono _ _ 240 n HS' Ha' ltac:(lia) ltac:(lia) ltac:(lia))
      as [Hup _].
    rewrite Gs, Ge, Ga in *.
    change (root (start_speed scenarioStep) (accel scenarioStep) 240)
      with (F32.of_Z 50) in Hup.
    pose proof U_pos as HU.
    assert (V10 : V (start_speed scenarioStep) = 10 * U) by reflexivity.
    assert (V50 : V (end_speed scenarioStep) = 50 * U) by reflexivity.
    assert (V5 : V (accel scenarioStep) = 5 * U) by reflexivity.
    assert (V50' : V (F32.of_Z 50) = 50 * U) by reflexivity.
    rewrite V10, V50, V5 in HV. rewrite V5, V50' in Hup.
    specialize (Hup ltac:(lia)).
    replace (5 * U =? 0) with false in HV by (symmetry; apply Z.eqb_neq; lia).
    replace (10 * U =? 50 * U) with false in HV
      by (symmetry; apply Z.eqb_neq; lia).
    replace (0 <? 5 * U) with true in HV by (symmetry; apply Z.ltb_lt; lia).
    cbn [orb] in HV.
    apply V_inj; [exact Hf | split; reflexivity | lia | lia].
  - intros n Hn.
    destruct (accepted_globals scenarioStep fw eq_refl)
      as (Gs & Ge & Ga & HS & HE & Ha).
    fold mv in Gs, Ge, Ga.
    assert (HS' : in_range (g_start_speed mv)) by (rewrite Gs; exact HS).
    assert (HE' : in_range (g_end_speed mv)) by (rewrite Ge; exact HE).
    assert (Ha' : accel_in_range (g_accel mv)) by (rewrite Ga; exact Ha).
    destruct (computeSpeed_V mv n HS' HE' Ha' ltac:(lia)) as [Hf HV].
    destruct (root_mono _ _ n 239 HS' Ha' ltac:(lia) ltac:(lia) ltac:(lia))
      as [Hup _].
    rewrite Gs, Ge, Ga in *.
    pose proof U_pos as HU.
    assert (V10 : V (start_speed scenarioStep) = 10 * U) by reflexivity.
    assert (V50 : V (end_speed scenarioStep) = 50 * U) by reflexivity.
    assert (V5 : V (accel scenarioStep) = 5 * U) by reflexivity.
    assert (V50' : V (F32.of_Z 50) = 50 * U) by reflexivity.
    assert (V239 : V (root (start_speed scenarioStep) (accel scenarioStep) 239)
                   < 50 * U) by (apply Z.ltb_lt; vm_compute; reflexivity).
    rewrite V10, V50, V5 in HV. rewrite V5 in Hup.
    specialize (Hup ltac:(lia)).
    replace (5 * U =? 0) with false in HV by (symmetry; apply Z.eqb_neq; lia).
    replace (10 * U =? 50 * U) with false in HV
      by (symmetry; apply Z.eqb_neq; lia).
    replace (0 <? 5 * U) with true in HV by (symmetry; apply Z.ltb_lt; lia).
    cbn [orb] in HV.
    assert (Hf50 : fv (F32.of_Z 50)) by (split; reflexivity).
    rewrite (ltb_V _ _ Hf Hf50), V50'.
    apply Z.ltb_lt. lia.
  - intros s. unfold moveDone; simpl. rewrite Z.geb_le. reflexivity.
  - intros dues.
    destruct (manual_run toFloat dues movingManual movingManual_Inv eq_refl)
      as (fw' & Ht & Hsg & Hcase).
    cbv zeta in Hcase.
    change (g_target_dist movingManual
            - Z.abs (currentPos (stepper movingManual))) with 100 in Hcase.
    change (g_fwd movingManual) with true in Hsg. cbv iota in Hsg.
    change (g_target_dist movingManual) with 100 in *.
    pose proof (dueTicks_nonneg dues) as Hd.
    exists fw'. destruct (dueTicks dues <? 100) eqn:E.
    + apply Z.ltb_lt in E. destruct Hcase as (Hq & Hs & Hab & _).
      change (Z.abs (currentPos (stepper movingManual))) with 0 in Hab.
      split; [exact Hq|]. split; [exact Hs|].
      assert (Hp : currentPos (stepper fw') = dueTicks dues)
        by (rewrite Hsg, Hab; apply Z.add_0_l).
      split; [exact Hp|].
      unfold moveDone, Stepper.currentPosition. rewrite Ht.
      rewrite abs_long_small by lia.
      rewrite Z.geb_leb. apply Z.leb_gt. lia.
    + destruct Hcase as (Hq & Hs & _ & Hab & _).
      split; [exact Hq|]. split; [exact Hs|].
      assert (Hp : currentPos (stepper fw') = 100)
        by (rewrite Hsg; exact Hab).
      split; [exact Hp|].
      unfold moveDone, Stepper.currentPosition. rewrite Ht.
      rewrite abs_long_small by lia.
      rewrite Z.geb_leb. apply Z.leb_le. lia.
Qed.
